(** * libDAI [BipartiteGraph] (include/dai/bipgraph.h): a shallow embedding

    The C++ class stores, for every node of type 1 and of type 2, a vector of
    [Neighbor] records.  Vectors are lists; [size_t] positions, node numbers
    and counts are [nat]: every number the class stores or returns is a
    vector size, a position in a vector or the number of records held in
    memory, so the unsigned arithmetic of the header never wraps.  A failed
    [assert] and an out-of-range vector subscript are explicit outcomes, and
    the two preprocessor symbols that decide which checks are compiled are a
    parameter of every member function that has one.

    The header only declares [erase1], [erase2], [isConnected] and [isTree];
    their definitions here follow the specification and say so. *)

From Stdlib Require Import ZArith Lia.
From stdpp Require Import base numbers option list gmap sorting.

(** ** Outcomes of a call, build configuration *)

(** A member function either returns, or stops the program in a failed
    [assert], or runs into undefined behaviour (a vector subscript that is out
    of range, a dereferenced end iterator).  After undefined behaviour C++
    promises nothing: the program may crash, or the call may return with
    corrupted data; [Undefined] says that this point was reached and follows
    the call no further. *)
Inductive outcome (A : Type) : Type :=
  | Done (a : A)
  | Aborted
  | Undefined.
Arguments Done {A} a.
Arguments Aborted {A}.
Arguments Undefined {A}.

#[global] Instance outcome_ret : MRet outcome := λ A a, Done a.
#[global] Instance outcome_bind : MBind outcome := λ A B f c,
  match c with
  | Done a => f a
  | Aborted => Aborted
  | Undefined => Undefined
  end.

(** The two preprocessor symbols the header depends on. *)
Record Build : Type := mkBuild { DAI_DEBUG : bool; NDEBUG : bool }.

(** [assert(b)] of <cassert>: compiled out when NDEBUG is defined. *)
Definition c_assert (cfg : Build) (b : bool) : outcome unit :=
  if NDEBUG cfg then Done tt else if b then Done tt else Aborted.

(** [#ifdef DAI_DEBUG assert(b); #endif] *)
Definition debug_assert (cfg : Build) (b : bool) : outcome unit :=
  if DAI_DEBUG cfg then c_assert cfg b else Done tt.

(** [v[i]] of std::vector: no bound check. *)
Definition subscript {A : Type} (v : list A) (i : nat) : outcome A :=
  match v !! i with
  | Some x => Done x
  | None => Undefined
  end.

(** A loop body run over a range, threading the state through the calls. *)
Fixpoint for_each {S X : Type} (body : S → X → outcome S) (xs : list X) (s : S)
  : outcome S :=
  match xs with
  | [] => Done s
  | x :: xs' => s' ← body s x; for_each body xs' s'
  end.

(** ** Data model *)

Record Neighbor : Type := mkNeighbor { iter : nat; node : nat; dual : nat }.

#[global] Instance Neighbor_eq_dec : EqDecision Neighbor.
Proof. solve_decision. Defined.

Abbreviation Neighbors := (list Neighbor).
Abbreviation Edge := (nat * nat)%type.

Record BipartiteGraph : Type := mkGraph {
  _nb1 : list Neighbors;
  _nb2 : list Neighbors;
  _edge_indexed : bool;
  _edges : list Edge;
  _vv2e : gmap Edge nat
}.

Definition with_nb (g : BipartiteGraph) (nbs1 nbs2 : list Neighbors)
  : BipartiteGraph :=
  {| _nb1 := nbs1; _nb2 := nbs2; _edge_indexed := _edge_indexed g;
     _edges := _edges g; _vv2e := _vv2e g |}.

(** The neighbour list of node [a], empty when there is no such node. *)
Definition row (nbs : list Neighbors) (a : nat) : Neighbors :=
  default [] (nbs !! a).

(** The nodes that the records of a list name, in the order of the list. *)
Definition names (l : Neighbors) : list nat := node <$> l.

(** What a call hands back besides the new state: [void] or a [size_t]. *)
Inductive returned : Type :=
  | Void
  | Size (n : nat).

(** ** Adjacency store (from the header) *)

(** Default constructor. *)
Definition empty_graph : BipartiteGraph :=
  {| _nb1 := []; _nb2 := []; _edge_indexed := false; _edges := []; _vv2e := ∅ |}.

Definition nr1 (g : BipartiteGraph) : nat := length (_nb1 g).
Definition nr2 (g : BipartiteGraph) : nat := length (_nb2 g).

(** [nb1(i1)], [nb2(i2)]: all neighbours of a node. *)
Definition nb1 (cfg : Build) (g : BipartiteGraph) (i1 : nat) : outcome Neighbors :=
  debug_assert cfg (i1 <? length (_nb1 g));;
  subscript (_nb1 g) i1.

Definition nb2 (cfg : Build) (g : BipartiteGraph) (i2 : nat) : outcome Neighbors :=
  debug_assert cfg (i2 <? length (_nb2 g));;
  subscript (_nb2 g) i2.

(** [nb1(i1,_i2)], [nb2(i2,_i1)]: one neighbour record. *)
Definition nb1_at (cfg : Build) (g : BipartiteGraph) (i1 _i2 : nat)
  : outcome Neighbor :=
  debug_assert cfg (i1 <? length (_nb1 g));;
  row ← subscript (_nb1 g) i1;
  debug_assert cfg (_i2 <? length row);;
  subscript row _i2.

Definition nb2_at (cfg : Build) (g : BipartiteGraph) (i2 _i1 : nat)
  : outcome Neighbor :=
  debug_assert cfg (i2 <? length (_nb2 g));;
  row ← subscript (_nb2 g) i2;
  debug_assert cfg (_i1 <? length row);;
  subscript row _i1.

(** [nrEdges()]: the loop index stays below [nr1()], so the accessor's
    assertion and the subscript cannot fail. *)
Definition nrEdges (g : BipartiteGraph) : nat :=
  fold_left (λ sum i1, sum + length (default [] (_nb1 g !! i1)))
            (seq 0 (nr1 g)) 0.

(** [add1()], [add2()]: [push_back( Neighbors() )], return type [void]. *)
Definition add1 (g : BipartiteGraph) : BipartiteGraph * returned :=
  (with_nb g (_nb1 g ++ [[]]) (_nb2 g), Void).

Definition add2 (g : BipartiteGraph) : BipartiteGraph * returned :=
  (with_nb g (_nb1 g) (_nb2 g ++ [[]]), Void).

(** The body of the loop of [add1( begin, end, sizeHint )]; the state is the
    graph, the list [nbs1new] and the counter [iter].  [sizeHint] is only
    passed to [reserve] and is left out. *)
Definition add1_step (cfg : Build)
    (s : BipartiteGraph * Neighbors * nat) (it : nat)
  : outcome (BipartiteGraph * Neighbors * nat) :=
  let '(g, nbs1new, i) := s in
  c_assert cfg (it <? nr2 g);;
  row ← nb2 cfg g it;
  let nb1new := mkNeighbor i it (length row) in
  let nb2new := mkNeighbor (length row) (nr1 g) i in
  Done (with_nb g (_nb1 g) (<[it := row ++ [nb2new]]> (_nb2 g)),
        nbs1new ++ [nb1new], S i).

Definition add1_range (cfg : Build) (g : BipartiteGraph) (range : list nat)
  : outcome BipartiteGraph :=
  '(g', nbs1new, _) ← for_each (add1_step cfg) range (g, [], 0);
  Done (with_nb g' (_nb1 g' ++ [nbs1new]) (_nb2 g')).

Definition add2_step (cfg : Build)
    (s : BipartiteGraph * Neighbors * nat) (it : nat)
  : outcome (BipartiteGraph * Neighbors * nat) :=
  let '(g, nbs2new, i) := s in
  c_assert cfg (it <? nr1 g);;
  row ← nb1 cfg g it;
  let nb2new := mkNeighbor i it (length row) in
  let nb1new := mkNeighbor (length row) (nr2 g) i in
  Done (with_nb g (<[it := row ++ [nb1new]]> (_nb1 g)) (_nb2 g),
        nbs2new ++ [nb2new], S i).

Definition add2_range (cfg : Build) (g : BipartiteGraph) (range : list nat)
  : outcome BipartiteGraph :=
  '(g', nbs2new, _) ← for_each (add2_step cfg) range (g, [], 0);
  Done (with_nb g' (_nb1 g') (_nb2 g' ++ [nbs2new])).

(** The loop of [eraseEdge]: erase the first record whose [node] is [n],
    then [break]. *)
Fixpoint erase_first (n : nat) (l : Neighbors) : Neighbors :=
  match l with
  | [] => []
  | r :: l' => if node r =? n then l' else r :: erase_first n l'
  end.

Definition eraseEdge (cfg : Build) (g : BipartiteGraph) (n1 n2 : nat)
  : outcome BipartiteGraph :=
  c_assert cfg (n1 <? nr1 g);;
  c_assert cfg (n2 <? nr2 g);;
  row1 ← subscript (_nb1 g) n1;
  row2 ← subscript (_nb2 g) n2;
  Done (with_nb g (<[n1 := erase_first n2 row1]> (_nb1 g))
                  (<[n2 := erase_first n1 row2]> (_nb2 g))).

(** The scan of [addEdge] under [check]: is there a record of [n1] whose
    [node] is [n2]? *)
Definition has_neighbor (n : nat) (l : Neighbors) : bool :=
  existsb (λ nb, node nb =? n) l.

Definition addEdge (cfg : Build) (g : BipartiteGraph) (n1 n2 : nat) (check : bool)
  : outcome BipartiteGraph :=
  c_assert cfg (n1 <? nr1 g);;
  c_assert cfg (n2 <? nr2 g);;
  found ← (if check then row ← nb1 cfg g n1; Done (has_neighbor n2 row)
           else Done false);
  if (found : bool) then Done g
  else
    row1 ← subscript (_nb1 g) n1;
    row2 ← subscript (_nb2 g) n2;
    let nb_1 := mkNeighbor (length row1) n2 (length row2) in
    let nb_2 := mkNeighbor (dual nb_1) n1 (iter nb_1) in
    Done (with_nb g (<[n1 := row1 ++ [nb_1]]> (_nb1 g))
                    (<[n2 := row2 ++ [nb_2]]> (_nb2 g))).

(** [construct( nr1, nr2, begin, end )]: edges are added with [check] only
    when DAI_DEBUG is defined. *)
Definition construct (cfg : Build) (g : BipartiteGraph) (n1 n2 : nat)
    (edges : list Edge) : outcome BipartiteGraph :=
  for_each (λ g e, addEdge cfg g e.1 e.2 (DAI_DEBUG cfg)) edges
           (with_nb g (replicate n1 []) (replicate n2 [])).

(** The constructor from a range of edges. *)
Definition new_graph (cfg : Build) (n1 n2 : nat) (edges : list Edge)
  : outcome BipartiteGraph :=
  construct cfg
    {| _nb1 := replicate n1 []; _nb2 := replicate n2 [];
       _edge_indexed := false; _edges := []; _vv2e := ∅ |} n1 n2 edges.

(** ** Backwards compatibility layer (from the header) *)

(** [operator<] of [std::pair<size_t,size_t>], as the order [sort] leaves
    the edges in. *)
Definition edge_le (e1 e2 : Edge) : Prop :=
  e1.1 < e2.1 ∨ (e1.1 = e2.1 ∧ e1.2 ≤ e2.2).

#[global] Instance edge_le_dec : RelDecision edge_le.
Proof. intros e1 e2. unfold edge_le. apply _. Defined.

(** The edges in the order of the two nested [foreach] loops. *)
Definition listed_edges (nbs1 : list Neighbors) : list Edge :=
  concat (imap (λ i nb1s, map (λ n2 : Neighbor, (i, node n2)) nb1s) nbs1).

(** [_vv2e[e] = i++] for every edge of the sorted list. *)
Definition number_edges (edges : list Edge) : gmap Edge nat :=
  (fold_left (λ (s : gmap Edge nat * nat) e, (<[e := s.2]> (s.1), S (s.2)))
             edges (∅, 0)).1.

(** [indexEdges()]; the warning written to [std::cerr] is not modelled. *)
Definition indexEdges (g : BipartiteGraph) : BipartiteGraph :=
  let edges := merge_sort edge_le (listed_edges (_nb1 g)) in
  {| _nb1 := _nb1 g; _nb2 := _nb2 g; _edge_indexed := true;
     _edges := edges; _vv2e := number_edges edges |}.

Definition edge (cfg : Build) (g : BipartiteGraph) (e : nat) : outcome Edge :=
  c_assert cfg (_edge_indexed g);;
  subscript (_edges g) e.

Definition edges (g : BipartiteGraph) : list Edge := _edges g.

Definition VV2E (cfg : Build) (g : BipartiteGraph) (n1 n2 : nat) : outcome nat :=
  c_assert cfg (_edge_indexed g);;
  match _vv2e g !! (n1, n2) with
  | Some i => c_assert cfg true;; Done i
  | None => c_assert cfg false;; Undefined
  end.

Definition nr_edges (cfg : Build) (g : BipartiteGraph) : outcome nat :=
  c_assert cfg (_edge_indexed g);;
  Done (length (_edges g)).

(** ** Node removal (declared in the header, defined elsewhere) *)

(** Modelled from the spec: the scan of the spec's edge removal, which is
    part of the node removal whose body is not in the header; the position of
    the first record whose [node] is [n]. *)
Fixpoint find_first (n : nat) (l : Neighbors) : option nat :=
  match l with
  | [] => None
  | r :: l' => if node r =? n then Some 0 else S <$> find_first n l'
  end.

(** Modelled from the spec: the two decrements of the spec's repair (node
    removal, body not in the header). *)
Definition dec_iter (r : Neighbor) : Neighbor :=
  mkNeighbor (pred (iter r)) (node r) (dual r).

(** Modelled from the spec: see [dec_iter]. *)
Definition dec_dual (r : Neighbor) : Neighbor :=
  mkNeighbor (iter r) (node r) (pred (dual r)).

(** Modelled from the spec: the repair that the spec's edge removal asks for
    (it is part of the spec's node removal, whose body is not in the header).
    The matching record of node [a] is removed from [own]; every record
    behind it gets its [iter] decremented, and the reciprocal record in
    [other] gets its [dual] decremented. *)
Definition erase_repaired (own other : list Neighbors) (a b : nat)
  : list Neighbors * list Neighbors :=
  match find_first b (row own a) with
  | None => (own, other)
  | Some p =>
      let shifted := drop (S p) (row own a) in
      (<[a := take p (row own a) ++ (dec_iter <$> shifted)]> own,
       foldl (λ o r, alter (alter dec_dual (dual r)) (node r) o) other shifted)
  end.

(** Modelled from the spec: edge removal with full repair of both lists,
    as the spec's node removal uses it. *)
Definition eraseEdge_repaired (g : BipartiteGraph) (n1 n2 : nat) : BipartiteGraph :=
  let '(nbs1, nbs2) := erase_repaired (_nb1 g) (_nb2 g) n1 n2 in
  let '(nbs2', nbs1') := erase_repaired nbs2 nbs1 n2 n1 in
  with_nb g nbs1' nbs2'.

(** Modelled from the spec: the renumbering of the spec's node removal (body
    not in the header); a record that points at a node behind the removed one
    follows it down. *)
Definition shift_down (n : nat) (r : Neighbor) : Neighbor :=
  if n <? node r then mkNeighbor (iter r) (pred (node r)) (dual r) else r.

(** Modelled from the spec: [erase1( n1 )], whose body is not in the header.
    Every incident edge is removed with full repair, then the slot of the
    node is deleted and the [node] field of every type-2 record that exceeds
    [n1] is decremented.  An id that is out of range fails. *)
Definition erase1 (g : BipartiteGraph) (n1 : nat) : outcome BipartiteGraph :=
  if n1 <? nr1 g then
    let g' := foldl (λ h n2, eraseEdge_repaired h n1 n2) g
                    (names (row (_nb1 g) n1)) in
    Done (with_nb g' (delete n1 (_nb1 g'))
                     (fmap (M:=list) (shift_down n1) <$> _nb2 g'))
  else Aborted.

(** Modelled from the spec: [erase2( n2 )], whose body is not in the header;
    the mirror image of [erase1]. *)
Definition erase2 (g : BipartiteGraph) (n2 : nat) : outcome BipartiteGraph :=
  if n2 <? nr2 g then
    let g' := foldl (λ h n1, eraseEdge_repaired h n1 n2) g
                    (names (row (_nb2 g) n2)) in
    Done (with_nb g' (fmap (M:=list) (shift_down n2) <$> _nb1 g')
                     (delete n2 (_nb2 g')))
  else Aborted.

(** ** Connectivity and the tree test (declared in the header, defined
    elsewhere) *)

(** Both node types in one traversal graph: [inl] is type 1, [inr] type 2. *)
Abbreviation vertex := (nat + nat)%type.

(** Modelled from the spec: the nodes of the traversal graph of the spec's
    [isConnected] and [isTree] (bodies not in the header), type 1 first. *)
Definition vertices (g : BipartiteGraph) : list vertex :=
  (inl <$> seq 0 (nr1 g)) ++ (inr <$> seq 0 (nr2 g)).

(** Modelled from the spec: the bipartite adjacency as one traversal graph
    ([isConnected], [isTree]: bodies not in the header). *)
Definition adjacent (g : BipartiteGraph) (v : vertex) : list vertex :=
  match v with
  | inl a => (λ r, inr (node r)) <$> row (_nb1 g) a
  | inr b => (λ r, inl (node r)) <$> row (_nb2 g) b
  end.

(** Modelled from the spec: part of the traversal of [isTree] (body not in
    the header).  The first occurrence of [p] is dropped: the edge a node was
    reached by is not a second path to its parent. *)
Fixpoint remove_one (p : vertex) (l : list vertex) : list vertex :=
  match l with
  | [] => []
  | v :: l' => if decide (v = p) then l' else v :: remove_one p l'
  end.

(** Modelled from the spec: the state of the traversal of [isConnected] and
    [isTree] (bodies not in the header): the nodes reached so far, the next
    frontier (each node with the node it was reached from) and the number of
    revisits detected. *)
Record traversal : Type := mkTraversal {
  seen : list vertex;
  next : list (vertex * option vertex);
  revisits : nat
}.

(** Modelled from the spec: one step of the frontier expansion ([isTree],
    body not in the header); reaching [v] from [u], a node reached before is
    a revisit. *)
Definition visit (u : vertex) (t : traversal) (v : vertex) : traversal :=
  if decide (v ∈ seen t)
  then mkTraversal (seen t) (next t) (S (revisits t))
  else mkTraversal (seen t ++ [v]) (next t ++ [(v, Some u)]) (revisits t).

(** Modelled from the spec: expanding one node of the frontier ([isTree],
    body not in the header). *)
Definition expand (g : BipartiteGraph) (t : traversal) (e : vertex * option vertex)
  : traversal :=
  foldl (visit e.1) t
        (match e.2 with
         | None => adjacent g e.1
         | Some p => remove_one p (adjacent g e.1)
         end).

(** Modelled from the spec: the level-by-level traversal of the spec's
    [isConnected] and [isTree], whose bodies are not in the header.  Each
    round expands the whole frontier into the next one. *)
Fixpoint levels (g : BipartiteGraph) (fuel : nat) (t : traversal) : traversal :=
  match fuel with
  | 0 => t
  | S fuel' =>
      match next t with
      | [] => t
      | frontier =>
          levels g fuel'
                 (foldl (expand g) (mkTraversal (seen t) [] (revisits t)) frontier)
      end
  end.

(** Modelled from the spec: the traversal of [isConnected] and [isTree]
    (bodies not in the header) from an arbitrary start node, the first node
    there is; the fuel is one round more than there are nodes. *)
Definition traverse (g : BipartiteGraph) : option traversal :=
  match vertices g with
  | [] => None
  | s :: _ => Some (levels g (S (nr1 g + nr2 g)) (mkTraversal [s] [(s, None)] 0))
  end.

(** Modelled from the spec: [isConnected()], whose body is not in the
    header: all nodes are reached from the start node; a graph without
    nodes is connected. *)
Definition isConnected (g : BipartiteGraph) : bool :=
  match traverse g with
  | None => true
  | Some t => forallb (λ v, bool_decide (v ∈ seen t)) (vertices g)
  end.

(** Modelled from the spec: the acyclicity test of the spec's [isTree()]:
    no node is reached by more than one path. *)
Definition acyclic (g : BipartiteGraph) : bool :=
  match traverse g with
  | None => true
  | Some t => revisits t =? 0
  end.

(** Modelled from the spec: [isTree()], whose body is not in the header:
    connected and acyclic, as the traversal from the start node finds it.  On
    the graph without nodes there is no node to start from, and the two
    formulations that the spec gives for the test part there (the graph is
    connected and has no cycle, but its 0 edges are not [nr1 + nr2 - 1]); the
    value [isTree()] returns there is left open, as [without_nodes]. *)
Definition isTree (without_nodes : bool) (g : BipartiteGraph) : bool :=
  match traverse g with
  | None => without_nodes
  | Some _ => isConnected g && acyclic g
  end.

(** Modelled from the spec: the cheaper tree test that the spec sets beside
    [isTree()] (body not in the header), with the arithmetic of the spec's
    formula. *)
Definition edge_count_test (g : BipartiteGraph) : bool :=
  isConnected g
  && (Z.of_nat (nrEdges g) =? Z.of_nat (nr1 g) + Z.of_nat (nr2 g) - 1)%Z.

(** ** Properties of a graph state *)

(** The dual cross-reference of the records of one node type: the record at
    position [p] of node [a] has [iter = p], and the record it points at,
    [other[r.node][r.dual]], points back at [(a, p)]. *)
Definition dual_ok (own other : list Neighbors) : Prop :=
  ∀ a p r, row own a !! p = Some r →
    iter r = p ∧
    ∃ r', row other (node r) !! dual r = Some r' ∧ node r' = a ∧ dual r' = p.

Definition dual_inv (g : BipartiteGraph) : Prop :=
  dual_ok (_nb1 g) (_nb2 g) ∧ dual_ok (_nb2 g) (_nb1 g).

(** Degree of a node. *)
Definition degree1 (g : BipartiteGraph) (n1 : nat) : nat := length (row (_nb1 g) n1).
Definition degree2 (g : BipartiteGraph) (n2 : nat) : nat := length (row (_nb2 g) n2).

(** Sum of the lengths of the neighbour lists of one node type. *)
Definition total_degree (nbs : list Neighbors) : nat :=
  sum_list_with length nbs.
Arguments total_degree : simpl never.

(** Number of records of a list that name node [n]. *)
Definition count_node (n : nat) (l : Neighbors) : nat :=
  length (filter (λ r, node r = n) l).

(** The id a node had before the node [n] of its type was removed. *)
Definition unshift (n a : nat) : nat := if decide (a < n) then a else S a.

(** Every edge is recorded as often at its type-1 end as at its type-2 end. *)
Definition sym (nbs1 nbs2 : list Neighbors) : Prop :=
  ∀ a b, count_node b (row nbs1 a) = count_node a (row nbs2 b).

(** Degree of a node of either type. *)
Definition degree (g : BipartiteGraph) (v : vertex) : nat := length (adjacent g v).

(** Number of frontier entries without a parent (the start node). *)
Definition nones (l : list (vertex * option vertex)) : nat :=
  length (filter (λ e, e.2 = None) l).

(** A walk along the edges from [s]. *)
Inductive path (g : BipartiteGraph) (s : vertex) : vertex → Prop :=
  | path_start : path g s s
  | path_step v w : path g s v → w ∈ adjacent g v → path g s w.

(** What holds while a round of the traversal from [s] runs: [expanded] are
    the nodes expanded so far and [todo] is the rest of the frontier.  The
    nodes reached are the expanded ones, the frontier and the next frontier,
    each once; a node of a frontier is a neighbour of the node it was reached
    from; every record of an expanded node is accounted for as the edge to
    its parent, as the discovery of a node or as a revisit; the nodes reached
    are joined to [s] by a walk, and the neighbours of an expanded node are
    reached. *)
Definition traversal_inv (g : BipartiteGraph) (s : vertex)
    (expanded : list vertex) (todo : list (vertex * option vertex))
    (t : traversal) : Prop :=
  seen t ≡ₚ expanded ++ todo.*1 ++ (next t).*1 ∧
  NoDup (seen t) ∧
  (∀ v, v ∈ seen t → v ∈ vertices g) ∧
  (∀ u p, (u, Some p) ∈ todo ++ next t → p ∈ adjacent g u ∧ p ∈ seen t) ∧
  sum_list_with (degree g) expanded + length todo + length (next t) + 2
    = 2 * length (seen t) + revisits t + nones (todo ++ next t) ∧
  s ∈ seen t ∧
  (∀ v, v ∈ seen t → path g s v) ∧
  (∀ u w, u ∈ expanded → w ∈ adjacent g u → w ∈ seen t).

(** The member functions that change a graph, as calls a caller can make.
    The accessors that hand out a reference to a neighbour list are not
    among them: what a caller writes through such a reference is not the
    work of the class. *)
Inductive call : Type :=
  | Construct (n1 n2 : nat) (es : list Edge)
  | Add1
  | Add2
  | Add1Range (range : list nat)
  | Add2Range (range : list nat)
  | AddEdge (n1 n2 : nat) (check : bool)
  | EraseEdge (n1 n2 : nat)
  | Erase1 (n1 : nat)
  | Erase2 (n2 : nat)
  | IndexEdges.

#[global] Instance call_eq_dec : EqDecision call.
Proof. solve_decision. Defined.

Definition do_call (cfg : Build) (g : BipartiteGraph) (c : call)
  : outcome BipartiteGraph :=
  match c with
  | Construct n1 n2 es => construct cfg g n1 n2 es
  | Add1 => Done (add1 g).1
  | Add2 => Done (add2 g).1
  | Add1Range range => add1_range cfg g range
  | Add2Range range => add2_range cfg g range
  | AddEdge n1 n2 check => addEdge cfg g n1 n2 check
  | EraseEdge n1 n2 => eraseEdge cfg g n1 n2
  | Erase1 n1 => erase1 g n1
  | Erase2 n2 => erase2 g n2
  | IndexEdges => Done (indexEdges g)
  end.

(** The calls that only add nodes, edges or the edge index. *)
Definition insertion (c : call) : bool :=
  match c with
  | EraseEdge _ _ | Erase1 _ | Erase2 _ => false
  | _ => true
  end.

(** A sequence of calls on a graph. *)
Definition run (cfg : Build) (cs : list call) (g : BipartiteGraph)
  : outcome BipartiteGraph :=
  for_each (do_call cfg) cs g.

(** The graph states a caller can produce: the calls start from the default
    constructor; the constructor from a range of edges is [Construct] as the
    first call. *)
Definition reachable (cfg : Build) (g : BipartiteGraph) : Prop :=
  ∃ cs, run cfg cs empty_graph = Done g.

(** The state after the two [push_back]s of [addEdge]. *)
Definition edge_added (g : BipartiteGraph) (n1 n2 : nat) (row1 row2 : Neighbors)
  : BipartiteGraph :=
  with_nb g
    (<[n1 := row1 ++ [mkNeighbor (length row1) n2 (length row2)]]> (_nb1 g))
    (<[n2 := row2 ++ [mkNeighbor (length row2) n1 (length row1)]]> (_nb2 g)).

(** The three members of the compatibility layer. *)
Definition legacy (g : BipartiteGraph) : bool * list Edge * gmap Edge nat :=
  (_edge_indexed g, _edges g, _vv2e g).

(** The builds used in the examples. *)
Definition release : Build := mkBuild false false.
Definition debug : Build := mkBuild true false.
Definition ndebug : Build := mkBuild false true.

(** The graph of example_bipgraph.cpp. *)
Definition example_edges : list Edge := [(0, 0); (1, 0); (2, 0); (1, 1); (2, 1)].

Definition example_graph : BipartiteGraph :=
  {| _nb1 := [[mkNeighbor 0 0 0];
              [mkNeighbor 0 0 1; mkNeighbor 1 1 0];
              [mkNeighbor 0 0 2; mkNeighbor 1 1 1]];
     _nb2 := [[mkNeighbor 0 0 0; mkNeighbor 1 1 0; mkNeighbor 2 2 0];
              [mkNeighbor 0 1 1; mkNeighbor 1 2 1]];
     _edge_indexed := false; _edges := []; _vv2e := ∅ |}.

(** ** Further notions for the member functions of the header *)

(** The graph of the loop of the ranged [add1] as it will be once the list
    built so far has been pushed. *)
Definition pending1 (g : BipartiteGraph) (nbs : Neighbors) : BipartiteGraph :=
  with_nb g (_nb1 g ++ [nbs]) (_nb2 g).

Definition pending2 (g : BipartiteGraph) (nbs : Neighbors) : BipartiteGraph :=
  with_nb g (_nb1 g) (_nb2 g ++ [nbs]).

(** The calls whose bodies are in the header. *)
Definition in_header (c : call) : bool :=
  match c with
  | Erase1 _ | Erase2 _ => false
  | _ => true
  end.

(** Is [(e.1, e.2)] an edge of the graph, as [addEdge] looks for it? *)
Definition has_edge (g : BipartiteGraph) (e : Edge) : bool :=
  has_neighbor e.2 (row (_nb1 g) e.1).

(** The record that the loop of [eraseEdge] erases from [l], the first one
    that names [n], is the last record of [l]. *)
Definition erases_last (n : nat) (l : Neighbors) : Prop :=
  ∃ l' r, l = l' ++ [r] ∧ node r = n ∧ has_neighbor n l' = false.

(** The edges that the loops of [indexEdges] list when the first list is
    the one of node [k]. *)
Definition listed_from (k : nat) (nbs : list Neighbors) : list Edge :=
  concat (imap (λ i nb1s, map (λ n2 : Neighbor, (k + i, node n2)) nb1s) nbs).

(** The loop [_vv2e[e] = i++] from a given map and counter. *)
Definition number_from (edges : list Edge) (s : gmap Edge nat * nat)
  : gmap Edge nat * nat :=
  fold_left (λ (s : gmap Edge nat * nat) e, (<[e := s.2]> (s.1), S (s.2))) edges s.

#[global] Instance edge_le_total : Total edge_le.
Proof. intros [a b] [c d]. unfold edge_le. simpl. lia. Qed.

#[global] Instance edge_le_trans : Transitive edge_le.
Proof. intros [a b] [c d] [e f]. unfold edge_le. simpl. lia. Qed.

(** * Theorems *)

(** ** Outcomes of the bound checks *)

Lemma c_assert_true cfg : c_assert cfg true = Done tt.
Proof. unfold c_assert. by destruct (NDEBUG cfg). Qed.

Lemma debug_assert_true cfg : debug_assert cfg true = Done tt.
Proof. unfold debug_assert. destruct (DAI_DEBUG cfg); [apply c_assert_true|done]. Qed.

Lemma subscript_Some {A} (v : list A) i x : v !! i = Some x → subscript v i = Done x.
Proof. unfold subscript. by intros ->. Qed.

Lemma subscript_None {A} (v : list A) i : length v ≤ i → subscript v i = Undefined.
Proof. intros H. unfold subscript. by rewrite (lookup_ge_None_2 v i H). Qed.

Lemma ltb_lookup {A} (v : list A) i x : v !! i = Some x → (i <? length v) = true.
Proof. intros H. apply Nat.ltb_lt. by eapply lookup_lt_Some. Qed.

Lemma row_lookup nbs a l : nbs !! a = Some l → row nbs a = l.
Proof. unfold row. by intros ->. Qed.

Lemma row_ge nbs a : length nbs ≤ a → row nbs a = [].
Proof. intros H. unfold row. by rewrite lookup_ge_None_2. Qed.

Lemma example_graph_built cfg :
  new_graph cfg 3 2 example_edges = Done example_graph.
Proof. by destruct cfg as [[] []]. Qed.

Lemma new_graph_construct cfg n1 n2 es :
  new_graph cfg n1 n2 es = construct cfg empty_graph n1 n2 es.
Proof. reflexivity. Qed.

Lemma example_graph_reachable cfg : reachable cfg example_graph.
Proof.
  exists [Construct 3 2 example_edges]. unfold run. simpl.
  rewrite <- new_graph_construct, example_graph_built. done.
Qed.

Lemma bind_Done {A B} (c : outcome A) (f : A → outcome B) b :
  c ≫= f = Done b → ∃ a, c = Done a ∧ f a = Done b.
Proof. destruct c; simpl; [eauto|done|done]. Qed.

Lemma run_app cfg cs1 cs2 g :
  run cfg (cs1 ++ cs2) g = run cfg cs1 g ≫= run cfg cs2.
Proof.
  unfold run. revert g. induction cs1 as [|c cs1 IH]; intros g; simpl; [done|].
  destruct (do_call cfg g c); simpl; auto.
Qed.

(** A property that every call preserves holds in every state the calls
    lead to. *)
Lemma run_invariant cfg (P : BipartiteGraph → Prop) :
  (∀ g c g', P g → do_call cfg g c = Done g' → P g') →
  ∀ cs g g', P g → run cfg cs g = Done g' → P g'.
Proof.
  intros Hstep cs. unfold run.
  induction cs as [|c cs IH]; intros g g' HP Hrun; simpl in Hrun.
  - by injection Hrun as <-.
  - apply bind_Done in Hrun as (g1 & Hc & Hrun). eauto.
Qed.

(** ** The calls on ids that are in range *)

Lemma nb1_in_range cfg g i1 l : _nb1 g !! i1 = Some l → nb1 cfg g i1 = Done l.
Proof.
  intros H. unfold nb1. rewrite (ltb_lookup _ _ _ H), debug_assert_true. simpl.
  by apply subscript_Some.
Qed.

Lemma nb2_in_range cfg g i2 l : _nb2 g !! i2 = Some l → nb2 cfg g i2 = Done l.
Proof.
  intros H. unfold nb2. rewrite (ltb_lookup _ _ _ H), debug_assert_true. simpl.
  by apply subscript_Some.
Qed.

Lemma addEdge_in_range cfg g n1 n2 check row1 row2 :
  _nb1 g !! n1 = Some row1 → _nb2 g !! n2 = Some row2 →
  addEdge cfg g n1 n2 check =
    Done (if check && has_neighbor n2 row1 then g else edge_added g n1 n2 row1 row2).
Proof.
  intros H1 H2. unfold addEdge, nr1, nr2.
  rewrite (ltb_lookup _ _ _ H1), (ltb_lookup _ _ _ H2), c_assert_true. simpl.
  destruct check; simpl.
  - rewrite (nb1_in_range cfg g n1 row1 H1). simpl.
    destruct (has_neighbor n2 row1); [done|].
    by rewrite (subscript_Some _ _ _ H1), (subscript_Some _ _ _ H2).
  - by rewrite (subscript_Some _ _ _ H1), (subscript_Some _ _ _ H2).
Qed.

Lemma eraseEdge_in_range cfg g n1 n2 row1 row2 :
  _nb1 g !! n1 = Some row1 → _nb2 g !! n2 = Some row2 →
  eraseEdge cfg g n1 n2 =
    Done (with_nb g (<[n1 := erase_first n2 row1]> (_nb1 g))
                    (<[n2 := erase_first n1 row2]> (_nb2 g))).
Proof.
  intros H1 H2. unfold eraseEdge, nr1, nr2.
  rewrite (ltb_lookup _ _ _ H1), (ltb_lookup _ _ _ H2), c_assert_true. simpl.
  by rewrite (subscript_Some _ _ _ H1), (subscript_Some _ _ _ H2).
Qed.

(** What the loop of [eraseEdge] does to a list: nothing when no record
    matches, otherwise exactly the first match goes. *)
Lemma erase_first_spec n l :
  (has_neighbor n l = false ∧ erase_first n l = l) ∨
  (∃ l1 r l2, l = l1 ++ r :: l2 ∧ node r = n ∧ has_neighbor n l1 = false ∧
              erase_first n l = l1 ++ l2).
Proof.
  induction l as [|r l IH]; simpl; [by left|].
  destruct (node r =? n) eqn:E; simpl.
  - right. exists [], r, l. apply Nat.eqb_eq in E. done.
  - destruct IH as [[Hn He]|(l1 & r' & l2 & -> & Hr & Hn & He)].
    + left. by rewrite Hn, He.
    + right. exists (r :: l1), r', l2. simpl. rewrite E, Hn, He. done.
Qed.

Lemma erase_first_absent n l : has_neighbor n l = false → erase_first n l = l.
Proof.
  induction l as [|r l IH]; simpl; [done|].
  destruct (node r =? n); simpl; [done|]. intros H. by rewrite IH.
Qed.

Lemma erase_first_last n l r :
  has_neighbor n l = false → node r = n → erase_first n (l ++ [r]) = l.
Proof.
  intros Hl Hr. induction l as [|r' l IH]; simpl in *.
  - apply Nat.eqb_eq in Hr. by rewrite Hr.
  - destruct (node r' =? n); simpl in *; [done|]. by rewrite IH.
Qed.

(** ** C8: nodes without neighbours *)

(** C8, as stated, fails: [add1()] is declared [void], so on the empty graph
    it does not return the id of the node it adds. *)
Lemma add1_returns_no_id : (add1 empty_graph).2 ≠ Size (nr1 empty_graph).
Proof. done. Qed.

(** C8, amended: [add1()] (and [add2()] for type 2) returns nothing; it
    raises the number of nodes of its type by one, the added node has the id
    that was the number of nodes before the call and an empty neighbour list,
    and all other lists are as they were. *)
Theorem add_node_appends_empty_list (g : BipartiteGraph) :
  ((add1 g).2 = Void ∧
   nr1 (add1 g).1 = S (nr1 g) ∧ nr2 (add1 g).1 = nr2 g ∧
   _nb1 (add1 g).1 !! nr1 g = Some [] ∧
   take (nr1 g) (_nb1 (add1 g).1) = _nb1 g ∧ _nb2 (add1 g).1 = _nb2 g) ∧
  ((add2 g).2 = Void ∧
   nr2 (add2 g).1 = S (nr2 g) ∧ nr1 (add2 g).1 = nr1 g ∧
   _nb2 (add2 g).1 !! nr2 g = Some [] ∧
   take (nr2 g) (_nb2 (add2 g).1) = _nb2 g ∧ _nb1 (add2 g).1 = _nb1 g).
Proof.
  unfold nr1, nr2; simpl.
  rewrite !length_app, !list_lookup_middle, !take_app_length by done.
  simpl. repeat split; lia.
Qed.

(** ** C10: what [eraseEdge] leaves alone *)

(** C10: for ids in range [eraseEdge( n1, n2 )] returns; the numbers of nodes
    are unchanged; only the list of node [n1] of type 1 and the list of node
    [n2] of type 2 can differ, and each of the two either is unchanged (no
    record matches) or has lost exactly the first record whose [node]
    matches. *)
Theorem eraseEdge_frame cfg (g : BipartiteGraph) (n1 n2 : nat) :
  n1 < nr1 g → n2 < nr2 g →
  ∃ g', eraseEdge cfg g n1 n2 = Done g' ∧
    nr1 g' = nr1 g ∧ nr2 g' = nr2 g ∧
    (∀ a, a ≠ n1 → _nb1 g' !! a = _nb1 g !! a) ∧
    (∀ b, b ≠ n2 → _nb2 g' !! b = _nb2 g !! b) ∧
    row (_nb1 g') n1 = erase_first n2 (row (_nb1 g) n1) ∧
    row (_nb2 g') n2 = erase_first n1 (row (_nb2 g) n2) ∧
    ((has_neighbor n2 (row (_nb1 g) n1) = false ∧
      row (_nb1 g') n1 = row (_nb1 g) n1) ∨
     (∃ l1 r l2, row (_nb1 g) n1 = l1 ++ r :: l2 ∧ node r = n2 ∧
                 has_neighbor n2 l1 = false ∧ row (_nb1 g') n1 = l1 ++ l2)) ∧
    ((has_neighbor n1 (row (_nb2 g) n2) = false ∧
      row (_nb2 g') n2 = row (_nb2 g) n2) ∨
     (∃ l1 r l2, row (_nb2 g) n2 = l1 ++ r :: l2 ∧ node r = n1 ∧
                 has_neighbor n1 l1 = false ∧ row (_nb2 g') n2 = l1 ++ l2)) ∧
    _edge_indexed g' = _edge_indexed g ∧ _edges g' = _edges g ∧
    _vv2e g' = _vv2e g.
Proof.
  unfold nr1, nr2. intros H1 H2.
  destruct (lookup_lt_is_Some_2 _ _ H1) as [row1 E1].
  destruct (lookup_lt_is_Some_2 _ _ H2) as [row2 E2].
  eexists. split; [by apply eraseEdge_in_range|]. simpl.
  rewrite !length_insert. unfold row. rewrite E1, E2.
  rewrite !list_lookup_insert_eq by done. simpl.
  split_and!; try done.
  - intros a Ha. by rewrite list_lookup_insert_ne.
  - intros b Hb. by rewrite list_lookup_insert_ne.
  - apply erase_first_spec.
  - apply erase_first_spec.
Qed.

Lemma eraseEdge_frame_witness :
  ∃ g', eraseEdge release example_graph 1 0 = Done g' ∧
        nr1 g' = 3 ∧ _nb1 g' !! 2 = _nb1 example_graph !! 2 ∧
        row (_nb1 g') 1 = [mkNeighbor 1 1 0].
Proof.
  destruct (eraseEdge_frame release example_graph 1 0) as (g' & E & N1 & _ & F1 & _ & R1 & _);
    [unfold nr1; simpl; lia | unfold nr2; simpl; lia |].
  exists g'. split; [exact E|]. split; [exact N1|]. split; [apply F1; lia|].
  exact R1.
Defined.

(** ** C6: the bound checks and the build *)

Lemma c_assert_false cfg :
  c_assert cfg false = if NDEBUG cfg then Done tt else Aborted.
Proof. done. Qed.

Lemma ltb_ge {A} (v : list A) i : length v ≤ i → (i <? length v) = false.
Proof. intros H. apply Nat.ltb_ge. lia. Qed.

Lemma nb1_out_of_range cfg g i :
  nr1 g ≤ i →
  nb1 cfg g i = if DAI_DEBUG cfg && negb (NDEBUG cfg) then Aborted else Undefined.
Proof.
  unfold nr1, nb1, debug_assert, c_assert. intros H.
  rewrite (ltb_ge _ _ H), (subscript_None _ _ H).
  by destruct (DAI_DEBUG cfg), (NDEBUG cfg).
Qed.

Lemma nb2_out_of_range cfg g i :
  nr2 g ≤ i →
  nb2 cfg g i = if DAI_DEBUG cfg && negb (NDEBUG cfg) then Aborted else Undefined.
Proof.
  unfold nr2, nb2, debug_assert, c_assert. intros H.
  rewrite (ltb_ge _ _ H), (subscript_None _ _ H).
  by destruct (DAI_DEBUG cfg), (NDEBUG cfg).
Qed.

Lemma nb1_at_out_of_range cfg g i p :
  nr1 g ≤ i →
  nb1_at cfg g i p =
    if DAI_DEBUG cfg && negb (NDEBUG cfg) then Aborted else Undefined.
Proof.
  unfold nr1, nb1_at, debug_assert, c_assert. intros H.
  rewrite (ltb_ge _ _ H), (subscript_None _ _ H).
  by destruct (DAI_DEBUG cfg), (NDEBUG cfg).
Qed.

Lemma nb2_at_out_of_range cfg g i p :
  nr2 g ≤ i →
  nb2_at cfg g i p =
    if DAI_DEBUG cfg && negb (NDEBUG cfg) then Aborted else Undefined.
Proof.
  unfold nr2, nb2_at, debug_assert, c_assert. intros H.
  rewrite (ltb_ge _ _ H), (subscript_None _ _ H).
  by destruct (DAI_DEBUG cfg), (NDEBUG cfg).
Qed.

Lemma eraseEdge_out_of_range cfg g n1 n2 :
  nr1 g ≤ n1 ∨ nr2 g ≤ n2 →
  eraseEdge cfg g n1 n2 = if NDEBUG cfg then Undefined else Aborted.
Proof.
  unfold eraseEdge, c_assert, nr1, nr2. intros H.
  destruct (NDEBUG cfg); simpl.
  - destruct (decide (length (_nb1 g) ≤ n1)) as [H1|H1].
    + by rewrite (subscript_None _ _ H1).
    + destruct H as [H|H]; [done|]. rewrite (subscript_None (_nb2 g) _ H).
      unfold subscript. by destruct (_nb1 g !! n1).
  - destruct H as [H|H].
    + by rewrite (ltb_ge _ _ H).
    + rewrite (ltb_ge _ _ H). by destruct (n1 <? length (_nb1 g)).
Qed.

Lemma addEdge_out_of_range cfg g n1 n2 check :
  nr1 g ≤ n1 ∨ nr2 g ≤ n2 → NDEBUG cfg = false →
  addEdge cfg g n1 n2 check = Aborted.
Proof.
  unfold addEdge, c_assert, nr1, nr2. intros H ->.
  destruct H as [H|H]; rewrite (ltb_ge _ _ H); [done|].
  by destruct (n1 <? length (_nb1 g)).
Qed.

Lemma addEdge_unchecked_out_of_range cfg g n1 n2 :
  nr1 g ≤ n1 ∨ nr2 g ≤ n2 → NDEBUG cfg = true →
  addEdge cfg g n1 n2 false = Undefined.
Proof.
  unfold addEdge, c_assert, nr1, nr2. intros H ->. simpl.
  destruct (decide (length (_nb1 g) ≤ n1)) as [H1|H1].
  - by rewrite (subscript_None _ _ H1).
  - destruct H as [H|H]; [done|]. rewrite (subscript_None (_nb2 g) _ H).
    unfold subscript. by destruct (_nb1 g !! n1).
Qed.

Lemma addEdge_sizes cfg g n1 n2 check g' :
  addEdge cfg g n1 n2 check = Done g' → nr1 g' = nr1 g ∧ nr2 g' = nr2 g.
Proof.
  unfold addEdge. intros H.
  apply bind_Done in H as (_ & _ & H). apply bind_Done in H as (_ & _ & H).
  apply bind_Done in H as (found & _ & H). destruct found.
  - by injection H as <-.
  - apply bind_Done in H as (row1 & _ & H). apply bind_Done in H as (row2 & _ & H).
    injection H as <-. unfold nr1, nr2. simpl. by rewrite !length_insert.
Qed.

(** The first edge of a range that is out of range decides the outcome of
    the loop of [construct]. *)
Lemma construct_loop_out_of_range cfg es g :
  Exists (λ e : Edge, nr1 g ≤ e.1 ∨ nr2 g ≤ e.2) es →
  (NDEBUG cfg = false →
   for_each (λ g e, addEdge cfg g e.1 e.2 (DAI_DEBUG cfg)) es g = Aborted) ∧
  (NDEBUG cfg = true → DAI_DEBUG cfg = false →
   for_each (λ g e, addEdge cfg g e.1 e.2 (DAI_DEBUG cfg)) es g = Undefined).
Proof.
  revert g. induction es as [|e es IH]; intros g Hex; [by apply Exists_nil in Hex|].
  simpl. destruct (decide (nr1 g ≤ e.1 ∨ nr2 g ≤ e.2)) as [Hout|Hin].
  - split.
    + intros Hn. by rewrite (addEdge_out_of_range _ _ _ _ _ Hout Hn).
    + intros Hn Hd. rewrite Hd.
      by rewrite (addEdge_unchecked_out_of_range _ _ _ _ Hout Hn).
  - apply Exists_cons in Hex as [Hex|Hex]; [done|].
    destruct (addEdge cfg g e.1 e.2 (DAI_DEBUG cfg)) as [g'| |] eqn:E; simpl.
    + apply addEdge_sizes in E as [E1 E2]. apply IH. by rewrite E1, E2.
    + split; [done|]. intros Hn Hd. exfalso.
      unfold addEdge, c_assert in E. rewrite Hn, Hd in E. simpl in E.
      unfold subscript in E.
      destruct (_nb1 g !! e.1); simpl in E; try done.
      destruct (_nb2 g !! e.2); simpl in E; done.
    + split; [|done]. intros Hn. exfalso.
      assert (e.1 < nr1 g ∧ e.2 < nr2 g) as [H1 H2] by lia.
      destruct (lookup_lt_is_Some_2 _ _ H1) as [row1 E1].
      destruct (lookup_lt_is_Some_2 _ _ H2) as [row2 E2].
      by rewrite (addEdge_in_range cfg g _ _ _ _ _ E1 E2) in E.
Qed.

(** ** C7: the backwards compatibility layer before [indexEdges()] *)

Lemma for_each_invariant {S X} (P : S → Prop) (body : S → X → outcome S) :
  (∀ s x s', P s → body s x = Done s' → P s') →
  ∀ xs s s', P s → for_each body xs s = Done s' → P s'.
Proof.
  intros Hstep xs. induction xs as [|x xs IH]; intros s s' HP H; simpl in H.
  - by injection H as <-.
  - apply bind_Done in H as (s1 & Hb & H). eauto.
Qed.

Lemma addEdge_legacy cfg g n1 n2 check g' :
  addEdge cfg g n1 n2 check = Done g' → legacy g' = legacy g.
Proof.
  unfold addEdge. intros H.
  apply bind_Done in H as (_ & _ & H). apply bind_Done in H as (_ & _ & H).
  apply bind_Done in H as (found & _ & H). destruct found.
  - by injection H as <-.
  - apply bind_Done in H as (row1 & _ & H). apply bind_Done in H as (row2 & _ & H).
    by injection H as <-.
Qed.

Lemma eraseEdge_legacy cfg g n1 n2 g' :
  eraseEdge cfg g n1 n2 = Done g' → legacy g' = legacy g.
Proof.
  unfold eraseEdge. intros H.
  apply bind_Done in H as (_ & _ & H). apply bind_Done in H as (_ & _ & H).
  apply bind_Done in H as (row1 & _ & H). apply bind_Done in H as (row2 & _ & H).
  by injection H as <-.
Qed.

Lemma construct_legacy cfg g n1 n2 es g' :
  construct cfg g n1 n2 es = Done g' → legacy g' = legacy g.
Proof.
  unfold construct. intros H.
  refine (for_each_invariant (λ h, legacy h = legacy g) _ _ es _ g' _ H); [|done].
  intros h e h' Hh Hadd. by rewrite (addEdge_legacy _ _ _ _ _ _ Hadd).
Qed.

Lemma add1_range_legacy cfg g range g' :
  add1_range cfg g range = Done g' → legacy g' = legacy g.
Proof.
  unfold add1_range. intros H. apply bind_Done in H as ([[h l] i] & Hloop & H).
  injection H as <-.
  eapply (for_each_invariant (λ s, legacy s.1.1 = legacy g)) in Hloop; [done| |done].
  intros [[h1 l1] i1] x [[h2 l2] i2] Hh Hstep. unfold add1_step in Hstep.
  apply bind_Done in Hstep as (_ & _ & Hstep).
  apply bind_Done in Hstep as (r & _ & Hstep). by injection Hstep as <- <- <-.
Qed.

Lemma add2_range_legacy cfg g range g' :
  add2_range cfg g range = Done g' → legacy g' = legacy g.
Proof.
  unfold add2_range. intros H. apply bind_Done in H as ([[h l] i] & Hloop & H).
  injection H as <-.
  eapply (for_each_invariant (λ s, legacy s.1.1 = legacy g)) in Hloop; [done| |done].
  intros [[h1 l1] i1] x [[h2 l2] i2] Hh Hstep. unfold add2_step in Hstep.
  apply bind_Done in Hstep as (_ & _ & Hstep).
  apply bind_Done in Hstep as (r & _ & Hstep). by injection Hstep as <- <- <-.
Qed.

Lemma eraseEdge_repaired_legacy g n1 n2 :
  legacy (eraseEdge_repaired g n1 n2) = legacy g.
Proof.
  unfold eraseEdge_repaired.
  destruct (erase_repaired (_nb1 g) (_nb2 g) n1 n2) as [nbs1 nbs2].
  by destruct (erase_repaired nbs2 nbs1 n2 n1).
Qed.

Lemma erase_all_legacy (f : BipartiteGraph → nat → BipartiteGraph) ns g :
  (∀ h n, legacy (f h n) = legacy h) → legacy (foldl f g ns) = legacy g.
Proof.
  intros Hf. revert g. induction ns as [|n ns IH]; intros g; simpl; [done|].
  by rewrite IH, Hf.
Qed.

Lemma erase1_legacy g n1 g' : erase1 g n1 = Done g' → legacy g' = legacy g.
Proof.
  unfold erase1. destruct (n1 <? nr1 g); [|done]. intros H. injection H as <-.
  rewrite <- (erase_all_legacy (λ h n2, eraseEdge_repaired h n1 n2)
                (names (row (_nb1 g) n1)) g); [done|].
  intros. apply eraseEdge_repaired_legacy.
Qed.

Lemma erase2_legacy g n2 g' : erase2 g n2 = Done g' → legacy g' = legacy g.
Proof.
  unfold erase2. destruct (n2 <? nr2 g); [|done]. intros H. injection H as <-.
  rewrite <- (erase_all_legacy (λ h n1, eraseEdge_repaired h n1 n2)
                (names (row (_nb2 g) n2)) g); [done|].
  intros. apply eraseEdge_repaired_legacy.
Qed.

(** Only [indexEdges()] writes the members of the compatibility layer. *)
Lemma do_call_legacy cfg g c g' :
  c ≠ IndexEdges → do_call cfg g c = Done g' → legacy g' = legacy g.
Proof.
  intros Hc H. destruct c; simpl in H; try done.
  - by eapply construct_legacy.
  - by injection H as <-.
  - by injection H as <-.
  - by eapply add1_range_legacy.
  - by eapply add2_range_legacy.
  - by eapply addEdge_legacy.
  - by eapply eraseEdge_legacy.
  - by eapply erase1_legacy.
  - by eapply erase2_legacy.
Qed.

Lemma run_legacy cfg cs g g' :
  IndexEdges ∉ cs → run cfg cs g = Done g' → legacy g' = legacy g.
Proof.
  unfold run. revert g. induction cs as [|c cs IH]; intros g Hni H; simpl in H.
  - by injection H as <-.
  - apply bind_Done in H as (g1 & Hc & H).
    apply not_elem_of_cons in Hni as [Hne Hni].
    rewrite (IH _ Hni H). eapply do_call_legacy; [|done]. congruence.
Qed.

(** C7, as stated, fails: when NDEBUG is defined the assertions of the
    compatibility layer are compiled out, and [nr_edges()] returns 0 on a
    graph that was never indexed. *)
Lemma nr_edges_unindexed_returns :
  _edge_indexed empty_graph = false ∧ nr_edges ndebug empty_graph = Done 0.
Proof. split; reflexivity. Qed.

(** C7, amended: in a build where assertions are compiled in (NDEBUG not
    defined), [edge], [VV2E] and [nr_edges] stop in a failed assertion on
    every graph state reached by calls among which there is no
    [indexEdges()]. *)
Theorem legacy_queries_need_index cfg cs (g : BipartiteGraph) (e n1 n2 : nat) :
  run cfg cs empty_graph = Done g → IndexEdges ∉ cs → NDEBUG cfg = false →
  edge cfg g e = Aborted ∧ VV2E cfg g n1 n2 = Aborted ∧ nr_edges cfg g = Aborted.
Proof.
  intros Hrun Hni Hn. apply (run_legacy _ _ _ _ Hni) in Hrun.
  injection Hrun as Hidx _ _.
  unfold edge, VV2E, nr_edges, c_assert. by rewrite Hidx, Hn.
Qed.

Lemma legacy_queries_need_index_witness :
  edge release example_graph 0 = Aborted ∧
  VV2E release example_graph 0 0 = Aborted ∧
  nr_edges release example_graph = Aborted.
Proof.
  apply (legacy_queries_need_index release [Construct 3 2 example_edges]).
  - reflexivity.
  - intros H. apply list_elem_of_singleton in H. discriminate H.
  - reflexivity.
Defined.

(** Once [indexEdges()] has run the queries answer. *)
Lemma nr_edges_indexed cfg g :
  nr_edges cfg (indexEdges g) = Done (length (listed_edges (_nb1 g))).
Proof.
  unfold nr_edges. simpl. rewrite c_assert_true. simpl.
  by rewrite (merge_sort_Permutation edge_le).
Qed.

(** ** Neighbour lists under the two [push_back]s of [addEdge] *)

Lemma row_insert nbs a l l' a' :
  nbs !! a = Some l →
  row (<[a := l']> nbs) a' = if decide (a' = a) then l' else row nbs a'.
Proof.
  intros H. unfold row. destruct (decide (a' = a)) as [->|Hne].
  - rewrite list_lookup_insert_eq; [done|]. by eapply lookup_lt_Some.
  - by rewrite list_lookup_insert_ne.
Qed.

Lemma has_neighbor_true n l :
  has_neighbor n l = true ↔ ∃ p r, l !! p = Some r ∧ node r = n.
Proof.
  induction l as [|r l IH]; simpl.
  - split; [done|]. by intros (p & r & H & _).
  - rewrite orb_true_iff, IH, Nat.eqb_eq. split.
    + intros [H|(p & r' & H & Hn)]; [by exists 0, r|by exists (S p), r'].
    + intros ([|p] & r' & H & Hn); simpl in H; [left; congruence|right; eauto].
Qed.

Lemma has_neighbor_false n l :
  has_neighbor n l = false ↔ ∀ p r, l !! p = Some r → node r ≠ n.
Proof.
  rewrite <- not_true_iff_false, has_neighbor_true. split.
  - intros H p r Hp Hn. apply H. eauto.
  - intros H (p & r & Hp & Hn). by eapply H.
Qed.

(** Under the cross-reference an edge that node [n1] does not list is not
    listed by node [n2] either. *)
Lemma absent_on_both_sides own other a b :
  dual_ok other own →
  has_neighbor b (row own a) = false → has_neighbor a (row other b) = false.
Proof.
  intros Hok Habs. apply has_neighbor_false. intros q r' Hq Hn.
  destruct (Hok b q r' Hq) as (_ & r'' & Hr'' & Hback & _).
  rewrite Hn in Hr''. rewrite has_neighbor_false in Habs. by eapply Habs.
Qed.

Lemma dual_ok_add own other a b rowa rowb :
  own !! a = Some rowa → other !! b = Some rowb →
  dual_ok own other →
  dual_ok (<[a := rowa ++ [mkNeighbor (length rowa) b (length rowb)]]> own)
          (<[b := rowb ++ [mkNeighbor (length rowb) a (length rowa)]]> other).
Proof.
  intros Ha Hb Hok a' p r.
  rewrite (row_insert _ _ _ _ _ Ha).
  assert (∀ x q r', row other x !! q = Some r' →
            row (<[b := rowb ++ [mkNeighbor (length rowb) a (length rowa)]]> other) x
              !! q = Some r') as Hkeep.
  { intros x q r' Hx. rewrite (row_insert _ _ _ _ _ Hb).
    destruct (decide (x = b)) as [->|]; [|done].
    rewrite (row_lookup _ _ _ Hb) in Hx. by apply lookup_app_l_Some. }
  assert (row own a' !! p = Some r →
          iter r = p ∧ ∃ r',
            row (<[b := rowb ++ [mkNeighbor (length rowb) a (length rowa)]]> other)
                (node r) !! dual r = Some r' ∧ node r' = a' ∧ dual r' = p) as Hold.
  { intros Hr. destruct (Hok a' p r Hr) as (Hi & r' & Hr' & Hn & Hd).
    split; [done|]. exists r'. auto. }
  destruct (decide (a' = a)) as [->|]; [|done].
  intros Hr. apply lookup_app_Some in Hr as [Hr|[Hlen Hr]].
  - apply Hold. by rewrite (row_lookup _ _ _ Ha).
  - apply list_lookup_singleton_Some in Hr as [Hp <-]. simpl.
    split; [lia|]. eexists. rewrite (row_insert _ _ _ _ _ Hb).
    rewrite decide_True by done. rewrite lookup_app_r by done.
    rewrite Nat.sub_diag. simpl. split; [done|]. simpl. split; [done|]. lia.
Qed.

Lemma dual_ok_other_app own other b rowb r0 :
  other !! b = Some rowb → dual_ok own other →
  ∀ a p r, row own a !! p = Some r →
    iter r = p ∧ ∃ r', row (<[b := rowb ++ [r0]]> other) (node r) !! dual r = Some r'
                       ∧ node r' = a ∧ dual r' = p.
Proof.
  intros Hb Hok a p r Hr. destruct (Hok a p r Hr) as (Hi & r' & Hr' & Hn & Hd).
  split; [done|]. exists r'. split; [|done].
  rewrite (row_insert _ _ _ _ _ Hb). destruct (decide (node r = b)) as [E|]; [|done].
  rewrite E, (row_lookup _ _ _ Hb) in Hr'. by apply lookup_app_l_Some.
Qed.

Lemma edge_added_dual_inv g n1 n2 row1 row2 :
  _nb1 g !! n1 = Some row1 → _nb2 g !! n2 = Some row2 →
  dual_inv g → dual_inv (edge_added g n1 n2 row1 row2).
Proof.
  intros H1 H2 [Hok1 Hok2]. split; simpl; by apply dual_ok_add.
Qed.

(** ** The number of edges *)

Lemma total_degree_cons x l : total_degree (x :: l) = length x + total_degree l.
Proof. reflexivity. Qed.

Lemma nrEdges_loop (pre l : list Neighbors) acc :
  fold_left (λ sum i1, sum + length (default [] ((pre ++ l) !! i1)))
            (seq (length pre) (length l)) acc
  = acc + total_degree l.
Proof.
  revert pre acc. induction l as [|x l IH]; intros pre acc.
  - simpl. unfold total_degree. simpl. lia.
  - rewrite total_degree_cons. simpl.
    rewrite list_lookup_middle by done. simpl.
    replace (pre ++ x :: l) with ((pre ++ [x]) ++ l) by by rewrite <- app_assoc.
    replace (S (length pre)) with (length (pre ++ [x]))
      by (rewrite length_app; simpl; lia).
    rewrite IH. lia.
Qed.

Lemma nrEdges_total g : nrEdges g = total_degree (_nb1 g).
Proof. unfold nrEdges, nr1. apply (nrEdges_loop [] (_nb1 g) 0). Qed.

Lemma total_degree_app l1 l2 :
  total_degree (l1 ++ l2) = total_degree l1 + total_degree l2.
Proof. apply sum_list_with_app. Qed.

Lemma total_degree_insert nbs a l l' :
  nbs !! a = Some l →
  total_degree (<[a := l']> nbs) + length l = total_degree nbs + length l'.
Proof.
  intros H. apply list_elem_of_split_length in H as (l1 & l2 & -> & ->).
  rewrite insert_app_r_alt, Nat.sub_diag by done.
  change (<[0:=l']> (l :: l2)) with (l' :: l2).
  rewrite !total_degree_app, !total_degree_cons. lia.
Qed.

Lemma total_degree_replicate n : total_degree (replicate n []) = 0.
Proof. induction n; simpl; [done|]. by rewrite total_degree_cons, IHn. Qed.

(** ** C1, C2: [eraseEdge] and the dual cross-reference *)

(** The example graph after [eraseEdge( 1, 0 )]. *)
Lemma example_erased cfg :
  eraseEdge cfg example_graph 1 0 =
    Done {| _nb1 := [[mkNeighbor 0 0 0];
                     [mkNeighbor 1 1 0];
                     [mkNeighbor 0 0 2; mkNeighbor 1 1 1]];
            _nb2 := [[mkNeighbor 0 0 0; mkNeighbor 2 2 0];
                     [mkNeighbor 0 1 1; mkNeighbor 1 2 1]];
            _edge_indexed := false; _edges := []; _vv2e := ∅ |}.
Proof. by rewrite (eraseEdge_in_range cfg example_graph 1 0 _ _ eq_refl eq_refl). Qed.

Ltac check_positions H p :=
  simpl in H;
  first [ done
        | destruct p as [|p];
          [ injection H as <-; simpl; split;
            [reflexivity|eexists; split; [reflexivity|done]]
          | check_positions H p ] ].

Ltac check_nodes H a p :=
  simpl in H;
  first [ done
        | destruct a as [|a]; [check_positions H p|check_nodes H a p] ].

Ltac check_records :=
  let a := fresh "a" in let p := fresh "p" in let r := fresh "r" in
  let H := fresh "H" in
  intros a p r H; unfold row in H; check_nodes H a p.

Lemma example_graph_dual_inv : dual_inv example_graph.
Proof. split; check_records. Qed.

Lemma stale_iter_not_dual_inv g r l :
  _nb1 g !! 1 = Some (r :: l) → iter r = 1 → ¬ dual_inv g.
Proof.
  intros Hrow Hiter [Hok _].
  destruct (Hok 1 0 r) as [Hi _]; [by rewrite (row_lookup _ _ _ Hrow)|]. lia.
Qed.

(** C1: the code does not keep the invariant.  The graph of the example,
    built by the constructor, satisfies the dual cross-reference; after
    [eraseEdge( 1, 0 )] the state, which is reachable, does not: the record
    left at position 0 of node 1 of type 1 still has [iter = 1]. *)
Theorem eraseEdge_breaks_dual_invariant cfg :
  dual_inv example_graph ∧
  ∃ g, run cfg [Construct 3 2 example_edges; EraseEdge 1 0] empty_graph = Done g ∧
       reachable cfg g ∧ ¬ dual_inv g.
Proof.
  split; [apply example_graph_dual_inv|].
  assert (run cfg [Construct 3 2 example_edges; EraseEdge 1 0] empty_graph
          = eraseEdge cfg example_graph 1 0 ≫= λ g, Done g) as Hrun.
  { unfold run. simpl. by rewrite <- new_graph_construct, example_graph_built. }
  rewrite example_erased in Hrun. simpl in Hrun.
  eexists. split; [exact Hrun|]. split; [by eexists|].
  by eapply stale_iter_not_dual_inv.
Qed.

(** C2: on the graph of the example, which satisfies the invariant and has
    the edge (1,0), [eraseEdge( 1, 0 )] shifts the records behind the erased
    ones to the front and leaves their fields as they were: node 1 of type 1
    keeps [iter = 1] at position 0, node 0 of type 2 keeps [iter = 2] at
    position 1, and the reciprocal records keep [dual = 1] and [dual = 2];
    the repair that the spec describes gives other lists. *)
Theorem eraseEdge_leaves_positions_stale cfg :
  dual_inv example_graph ∧ has_neighbor 0 (row (_nb1 example_graph) 1) = true ∧
  ∃ g, eraseEdge cfg example_graph 1 0 = Done g ∧
       row (_nb1 g) 1 = [mkNeighbor 1 1 0] ∧
       row (_nb2 g) 1 !! 0 = Some (mkNeighbor 0 1 1) ∧
       row (_nb2 g) 0 = [mkNeighbor 0 0 0; mkNeighbor 2 2 0] ∧
       row (_nb1 g) 2 !! 0 = Some (mkNeighbor 0 0 2) ∧
       row (_nb1 (eraseEdge_repaired example_graph 1 0)) 1 = [mkNeighbor 0 1 0] ∧
       row (_nb2 (eraseEdge_repaired example_graph 1 0)) 0
         = [mkNeighbor 0 0 0; mkNeighbor 1 2 0] ∧
       ¬ dual_ok (_nb1 g) (_nb2 g) ∧ ¬ dual_ok (_nb2 g) (_nb1 g).
Proof.
  split; [apply example_graph_dual_inv|]. split; [reflexivity|].
  eexists. split; [apply example_erased|]. simpl.
  split_and!; try reflexivity.
  - intros Hok. destruct (Hok 1 0 _ eq_refl) as [Hi _]. discriminate Hi.
  - intros Hok. destruct (Hok 0 1 _ eq_refl) as [Hi _]. discriminate Hi.
Qed.

(** ** C3: [addEdge] followed by [eraseEdge] *)

(** C3: on a graph that satisfies the dual cross-reference, for ids in range
    and an edge that is not there, [addEdge( n1, n2 )] followed by
    [eraseEdge( n1, n2 )] returns the graph it started from: the degrees of
    [n1] and [n2], which the insertion raised by one, and the invariant are
    as before. *)
Theorem addEdge_eraseEdge_roundtrip cfg (g : BipartiteGraph) (n1 n2 : nat)
    (check : bool) :
  dual_inv g → n1 < nr1 g → n2 < nr2 g →
  has_neighbor n2 (row (_nb1 g) n1) = false →
  ∃ g1 g2, addEdge cfg g n1 n2 check = Done g1 ∧
           eraseEdge cfg g1 n1 n2 = Done g2 ∧
           degree1 g1 n1 = S (degree1 g n1) ∧ degree2 g1 n2 = S (degree2 g n2) ∧
           g2 = g ∧
           degree1 g2 n1 = degree1 g n1 ∧ degree2 g2 n2 = degree2 g n2 ∧
           dual_inv g2.
Proof.
  unfold nr1, nr2. intros Hinv H1 H2 Habs.
  destruct (lookup_lt_is_Some_2 _ _ H1) as [row1 E1].
  destruct (lookup_lt_is_Some_2 _ _ H2) as [row2 E2].
  pose proof (absent_on_both_sides _ _ _ _ (proj2 Hinv) Habs) as Habs2.
  rewrite (row_lookup _ _ _ E1) in Habs. rewrite (row_lookup _ _ _ E2) in Habs2.
  assert (eraseEdge cfg (edge_added g n1 n2 row1 row2) n1 n2 = Done g) as Herase.
  { erewrite eraseEdge_in_range; simpl.
    2: { rewrite list_lookup_insert_eq; [done|]. by eapply lookup_lt_Some. }
    2: { rewrite list_lookup_insert_eq; [done|]. by eapply lookup_lt_Some. }
    rewrite !erase_first_last by done.
    rewrite !list_insert_insert_eq, !list_insert_id by done.
    by destruct g. }
  exists (edge_added g n1 n2 row1 row2), g.
  split. { rewrite (addEdge_in_range cfg g n1 n2 check row1 row2 E1 E2).
           by rewrite Habs, andb_false_r. }
  split; [exact Herase|].
  unfold degree1, degree2. simpl.
  rewrite (row_insert _ _ _ _ _ E1), (row_insert _ _ _ _ _ E2), !decide_True by done.
  rewrite (row_lookup _ _ _ E1), (row_lookup _ _ _ E2), !length_app. simpl.
  split_and!; try done; lia.
Qed.

Lemma addEdge_eraseEdge_roundtrip_witness :
  ∃ g1, addEdge release example_graph 0 1 true = Done g1 ∧
        eraseEdge release g1 0 1 = Done example_graph ∧
        degree1 g1 0 = 2 ∧ degree2 g1 1 = 3.
Proof.
  destruct (addEdge_eraseEdge_roundtrip release example_graph 0 1 true)
    as (g1 & g2 & Ha & He & D1 & D2 & Hg & _).
  - exact example_graph_dual_inv.
  - unfold nr1. simpl. lia.
  - unfold nr2. simpl. lia.
  - reflexivity.
  - exists g1. rewrite Hg in He. split; [exact Ha|]. split; [exact He|].
    split; [exact D1|exact D2].
Defined.

(** ** C9: unchecked insertion *)

Lemma edge_added_nrEdges g n1 n2 row1 row2 :
  _nb1 g !! n1 = Some row1 →
  nrEdges (edge_added g n1 n2 row1 row2) = S (nrEdges g).
Proof.
  intros H1. rewrite !nrEdges_total. simpl.
  pose proof (total_degree_insert (_nb1 g) n1 row1
                (row1 ++ [mkNeighbor (length row1) n2 (length row2)]) H1) as Ht.
  rewrite length_app in Ht. simpl in Ht. lia.
Qed.

Lemma row_replicate n a : row (replicate n []) a = [].
Proof.
  unfold row. destruct (replicate n [] !! a) as [l|] eqn:E; [|done].
  by apply lookup_replicate in E as [-> _].
Qed.

Lemma dual_ok_replicate n other : dual_ok (replicate n []) other.
Proof. intros a p r. by rewrite row_replicate. Qed.

(** The loop of [construct] in a build without DAI_DEBUG: every edge of the
    range is appended. *)
Lemma construct_loop_unchecked cfg es g :
  DAI_DEBUG cfg = false →
  Forall (λ e : Edge, e.1 < nr1 g ∧ e.2 < nr2 g) es → dual_inv g →
  ∃ g', for_each (λ g e, addEdge cfg g e.1 e.2 (DAI_DEBUG cfg)) es g = Done g' ∧
        nr1 g' = nr1 g ∧ nr2 g' = nr2 g ∧
        nrEdges g' = nrEdges g + length es ∧ dual_inv g'.
Proof.
  intros ->. revert g. induction es as [|e es IH]; intros g Hin Hinv; simpl.
  - exists g. split_and!; try done; lia.
  - apply Forall_cons in Hin as [[H1 H2] Hin].
    destruct (lookup_lt_is_Some_2 _ _ H1) as [row1 E1].
    destruct (lookup_lt_is_Some_2 _ _ H2) as [row2 E2].
    rewrite (addEdge_in_range cfg g _ _ _ _ _ E1 E2). simpl.
    destruct (IH (edge_added g e.1 e.2 row1 row2)) as (g' & Hrun & N1 & N2 & Hn & Hinv').
    + unfold nr1, nr2 in *. simpl. by rewrite !length_insert.
    + by apply edge_added_dual_inv.
    + exists g'. split; [done|]. rewrite N1, N2, Hn.
      rewrite (edge_added_nrEdges _ _ _ _ _ E1).
      unfold nr1, nr2. simpl. rewrite !length_insert. split_and!; try done; lia.
Qed.

(** The loop of [construct] without the scan appends, for every edge of the
    range and in the order of the range, one record to the list of each of
    its two nodes. *)
Lemma construct_loop_names cfg es g :
  Forall (λ e : Edge, e.1 < nr1 g ∧ e.2 < nr2 g) es →
  ∃ g', for_each (λ g e, addEdge cfg g e.1 e.2 false) es g = Done g' ∧
    (∀ a, names (row (_nb1 g') a)
          = names (row (_nb1 g) a) ++ (snd <$> filter (λ e : Edge, e.1 = a) es)) ∧
    (∀ b, names (row (_nb2 g') b)
          = names (row (_nb2 g) b) ++ (fst <$> filter (λ e : Edge, e.2 = b) es)).
Proof.
  revert g. induction es as [|e es IH]; intros g Hin.
  - exists g. split; [done|]. split; intros x; by rewrite filter_nil, app_nil_r.
  - apply Forall_cons in Hin as [[H1 H2] Hin]. cbn [for_each].
    destruct (lookup_lt_is_Some_2 _ _ H1) as [row1 E1].
    destruct (lookup_lt_is_Some_2 _ _ H2) as [row2 E2].
    rewrite (addEdge_in_range cfg g _ _ _ _ _ E1 E2). simpl.
    destruct (IH (edge_added g e.1 e.2 row1 row2)) as (g' & Hrun & Ha & Hb).
    { unfold nr1, nr2 in *. simpl. by rewrite !length_insert. }
    exists g'. split; [done|]. split.
    + intros a. rewrite Ha, filter_cons. simpl.
      rewrite (row_insert _ _ _ _ _ E1).
      destruct (decide (a = e.1)) as [->|Hne].
      * rewrite decide_True by done. rewrite (row_lookup _ _ _ E1).
        unfold names. rewrite fmap_app, fmap_cons. simpl. by rewrite <- app_assoc.
      * by rewrite decide_False by done.
    + intros b. rewrite Hb, filter_cons. simpl.
      rewrite (row_insert _ _ _ _ _ E2).
      destruct (decide (b = e.2)) as [->|Hne].
      * rewrite decide_True by done. rewrite (row_lookup _ _ _ E2).
        unfold names. rewrite fmap_app, fmap_cons. simpl. by rewrite <- app_assoc.
      * by rewrite decide_False by done.
Qed.

Lemma count_node_in_names n l :
  count_node n l = length (filter (λ x, x = n) (names l)).
Proof.
  unfold count_node, names. induction l as [|r l IH]; [done|].
  rewrite fmap_cons, !filter_cons. destruct (decide (node r = n)); simpl; by rewrite IH.
Qed.

Lemma listed_second_count a b (es : list Edge) :
  length (filter (λ x, x = b) (snd <$> filter (λ e : Edge, e.1 = a) es))
  = length (filter (λ e : Edge, e = (a, b)) es).
Proof.
  induction es as [|[x y] es IH]; [done|]. rewrite !filter_cons. simpl.
  destruct (decide (x = a)) as [->|Hx].
  - rewrite fmap_cons, filter_cons. simpl. destruct (decide (y = b)) as [->|Hy].
    + rewrite decide_True by done. simpl. by rewrite IH.
    + rewrite decide_False by congruence. done.
  - rewrite decide_False by congruence. done.
Qed.

Lemma listed_first_count a b (es : list Edge) :
  length (filter (λ x, x = a) (fst <$> filter (λ e : Edge, e.2 = b) es))
  = length (filter (λ e : Edge, e = (a, b)) es).
Proof.
  induction es as [|[x y] es IH]; [done|]. rewrite !filter_cons. simpl.
  destruct (decide (y = b)) as [->|Hy].
  - rewrite fmap_cons, filter_cons. simpl. destruct (decide (x = a)) as [->|Hx].
    + rewrite decide_True by done. simpl. by rewrite IH.
    + rewrite decide_False by congruence. done.
  - rewrite decide_False by congruence. done.
Qed.

(** C9: [addEdge( n1, n2, false )] on a graph that has the edge appends a
    second pair of records that point at each other, and [nrEdges()] grows by
    one; [construct] in a build without DAI_DEBUG appends a pair of records
    for every edge of its input, repeated or not: the list of a node names
    the other ends of the input edges at that node, in the order and as often
    as the input lists them, so an edge listed twice is recorded twice,
    [nrEdges()] is the length of the input and the dual cross-reference holds
    for all records. *)
Theorem unchecked_insertion_keeps_duplicates cfg :
  (∀ g n1 n2, n1 < nr1 g → n2 < nr2 g →
     has_neighbor n2 (row (_nb1 g) n1) = true →
     ∃ g', addEdge cfg g n1 n2 false = Done g' ∧
       row (_nb1 g') n1 =
         row (_nb1 g) n1 ++ [mkNeighbor (degree1 g n1) n2 (degree2 g n2)] ∧
       row (_nb2 g') n2 =
         row (_nb2 g) n2 ++ [mkNeighbor (degree2 g n2) n1 (degree1 g n1)] ∧
       has_neighbor n2 (row (_nb1 g) n1 ++ [mkNeighbor (degree1 g n1) n2 (degree2 g n2)])
         = true ∧
       nrEdges g' = S (nrEdges g) ∧
       (dual_inv g → dual_inv g')) ∧
  (∀ g0 n1 n2 es, DAI_DEBUG cfg = false →
     Forall (λ e : Edge, e.1 < n1 ∧ e.2 < n2) es →
     ∃ g, construct cfg g0 n1 n2 es = Done g ∧
          nr1 g = n1 ∧ nr2 g = n2 ∧ nrEdges g = length es ∧ dual_inv g ∧
          (∀ a, names (row (_nb1 g) a) = snd <$> filter (λ e : Edge, e.1 = a) es) ∧
          (∀ b, names (row (_nb2 g) b) = fst <$> filter (λ e : Edge, e.2 = b) es) ∧
          (∀ a b, count_node b (row (_nb1 g) a)
                    = length (filter (λ e : Edge, e = (a, b)) es) ∧
                  count_node a (row (_nb2 g) b)
                    = length (filter (λ e : Edge, e = (a, b)) es))).
Proof.
  split.
  - unfold nr1, nr2. intros g n1 n2 H1 H2 Hdup.
    destruct (lookup_lt_is_Some_2 _ _ H1) as [row1 E1].
    destruct (lookup_lt_is_Some_2 _ _ H2) as [row2 E2].
    exists (edge_added g n1 n2 row1 row2).
    split; [by rewrite (addEdge_in_range cfg g n1 n2 false row1 row2 E1 E2)|].
    unfold degree1, degree2. simpl.
    rewrite (row_insert _ _ _ _ _ E1), (row_insert _ _ _ _ _ E2), !decide_True by done.
    rewrite (row_lookup _ _ _ E1), (row_lookup _ _ _ E2).
    split_and!; try done.
    + unfold has_neighbor. rewrite existsb_app. apply orb_true_iff. left.
      by rewrite (row_lookup _ _ _ E1) in Hdup.
    + by apply edge_added_nrEdges.
    + by apply edge_added_dual_inv.
  - intros g0 n1 n2 es Hd Hin. unfold construct.
    destruct (construct_loop_unchecked cfg es
                (with_nb g0 (replicate n1 []) (replicate n2 [])) Hd)
      as (g & Hrun & N1 & N2 & Hn & Hinv).
    + unfold nr1, nr2. simpl. by rewrite !length_replicate.
    + split; simpl; apply dual_ok_replicate.
    + destruct (construct_loop_names cfg es
                  (with_nb g0 (replicate n1 []) (replicate n2 [])))
        as (g' & Hrun' & Ha & Hb).
      { unfold nr1, nr2. simpl. by rewrite !length_replicate. }
      rewrite Hd in Hrun. rewrite Hrun in Hrun'. injection Hrun' as <-.
      simpl in Ha, Hb.
      assert (∀ a, names (row (_nb1 g) a) = snd <$> filter (λ e : Edge, e.1 = a) es)
        as Ha' by (intros a; by rewrite Ha, row_replicate).
      assert (∀ b, names (row (_nb2 g) b) = fst <$> filter (λ e : Edge, e.2 = b) es)
        as Hb' by (intros b; by rewrite Hb, row_replicate).
      exists g. rewrite Hd. split; [done|]. rewrite N1, N2, Hn, nrEdges_total. simpl.
      rewrite total_degree_replicate. unfold nr1, nr2. simpl.
      rewrite !length_replicate.
      split; [done|]. split; [done|]. split; [done|]. split; [done|].
      split; [done|]. split; [done|]. intros a b.
      rewrite !count_node_in_names, Ha', Hb'.
      by rewrite listed_second_count, listed_first_count.
Qed.

Lemma unchecked_insertion_keeps_duplicates_witness :
  (∃ g', addEdge release example_graph 1 0 false = Done g' ∧
         row (_nb1 g') 1 = [mkNeighbor 0 0 1; mkNeighbor 1 1 0; mkNeighbor 2 0 3] ∧
         nrEdges g' = 6) ∧
  (∃ g, construct release empty_graph 1 1 [(0, 0); (0, 0)] = Done g ∧
        nrEdges g = 2 ∧ dual_inv g ∧
        names (row (_nb1 g) 0) = [0; 0] ∧ count_node 0 (row (_nb2 g) 0) = 2).
Proof.
  destruct (unchecked_insertion_keeps_duplicates release) as [A B]. split.
  - destruct (A example_graph 1 0) as (g' & Ha & R1 & _ & _ & Hn & _).
    + unfold nr1. simpl. lia.
    + unfold nr2. simpl. lia.
    + reflexivity.
    + exists g'. split; [exact Ha|]. split; [exact R1|exact Hn].
  - destruct (B empty_graph 1 1 [(0, 0); (0, 0)])
      as (g & Hc & _ & _ & Hn & Hinv & Ha & _ & Hcount).
    + reflexivity.
    + repeat constructor; simpl; lia.
    + exists g. split; [exact Hc|]. split; [exact Hn|]. split; [exact Hinv|].
      split; [apply (Ha 0)|apply (Hcount 0 0)].
Defined.

(** ** Counting the records that name a node *)

Lemma count_node_nil n : count_node n [] = 0.
Proof. reflexivity. Qed.

Lemma count_node_cons n r l :
  count_node n (r :: l) = (if decide (node r = n) then 1 else 0) + count_node n l.
Proof.
  unfold count_node. rewrite filter_cons. by destruct (decide (node r = n)).
Qed.

Lemma count_node_app n l1 l2 :
  count_node n (l1 ++ l2) = count_node n l1 + count_node n l2.
Proof. unfold count_node. by rewrite filter_app, length_app. Qed.

Lemma count_node_snoc n l r :
  count_node n (l ++ [r]) = count_node n l + (if decide (node r = n) then 1 else 0).
Proof. rewrite count_node_app, count_node_cons, count_node_nil. lia. Qed.

Lemma count_node_pos n l : 0 < count_node n l ↔ has_neighbor n l = true.
Proof.
  induction l as [|r l IH]; simpl.
  - rewrite count_node_nil. split; [lia|done].
  - rewrite count_node_cons, orb_true_iff, <- IH, Nat.eqb_eq.
    destruct (decide (node r = n)); split; try lia; auto.
Qed.

Lemma count_node_zero n l : count_node n l = 0 ↔ has_neighbor n l = false.
Proof.
  rewrite <- not_true_iff_false, <- count_node_pos. lia.
Qed.

(** The loop of [eraseEdge] takes one record that names [m] away, if there
    is one, and none that names another node. *)
Lemma count_node_erase_first n m l :
  count_node n (erase_first m l) =
    if decide (n = m) then pred (count_node n l) else count_node n l.
Proof.
  induction l as [|r l IH]; simpl.
  - by destruct (decide (n = m)).
  - destruct (node r =? m) eqn:E.
    + apply Nat.eqb_eq in E. rewrite count_node_cons.
      destruct (decide (n = m)) as [->|Hne].
      * rewrite decide_True by done. simpl. done.
      * rewrite decide_False by congruence. done.
    + apply Nat.eqb_neq in E. rewrite !count_node_cons, IH.
      destruct (decide (n = m)) as [->|Hne]; [|done].
      rewrite decide_False by done. done.
Qed.

Lemma count_node_le_length n l : count_node n l ≤ length l.
Proof. unfold count_node. apply length_filter. Qed.

(** ** Symmetry of the two adjacency tables *)

Lemma sym_swap nbs1 nbs2 : sym nbs1 nbs2 → sym nbs2 nbs1.
Proof. intros H a b. symmetry. apply H. Qed.

Lemma sym_node_in_range nbs1 nbs2 a p r :
  sym nbs1 nbs2 → row nbs1 a !! p = Some r → node r < length nbs2.
Proof.
  intros Hsym Hr. destruct (decide (node r < length nbs2)) as [|Hge]; [done|].
  assert (0 < count_node (node r) (row nbs1 a)) as Hpos.
  { apply count_node_pos, has_neighbor_true. eauto. }
  rewrite (Hsym a (node r)), row_ge, count_node_nil in Hpos; lia.
Qed.

Lemma row_app_nil nbs a : row (nbs ++ [[]]) a = row nbs a.
Proof.
  unfold row. destruct (decide (a < length nbs)) as [Hlt|Hge].
  - by rewrite lookup_app_l.
  - rewrite lookup_app_r, (lookup_ge_None_2 nbs) by lia.
    by destruct (a - length nbs) as [|[|k]].
Qed.

Lemma sym_push_l nbs1 nbs2 : sym nbs1 nbs2 → sym (nbs1 ++ [[]]) nbs2.
Proof. intros H a b. by rewrite row_app_nil. Qed.

Lemma sym_replicate n1 n2 : sym (replicate n1 []) (replicate n2 []).
Proof. intros a b. by rewrite !row_replicate. Qed.

(** One record appended on each side, each naming the other node. *)
Lemma sym_add own other a b rowa rowb ra rb :
  own !! a = Some rowa → other !! b = Some rowb →
  node ra = b → node rb = a →
  sym own other →
  sym (<[a := rowa ++ [ra]]> own) (<[b := rowb ++ [rb]]> other).
Proof.
  intros Ha Hb Hra Hrb Hsym a' b'.
  rewrite (row_insert _ _ _ _ _ Ha), (row_insert _ _ _ _ _ Hb).
  pose proof (Hsym a' b') as Hab.
  destruct (decide (a' = a)) as [->|Hna], (decide (b' = b)) as [->|Hnb].
  - rewrite !count_node_snoc, !decide_True by done.
    rewrite (row_lookup _ _ _ Ha), (row_lookup _ _ _ Hb) in Hab. lia.
  - rewrite count_node_snoc, decide_False by congruence.
    rewrite (row_lookup _ _ _ Ha) in Hab. lia.
  - rewrite count_node_snoc, decide_False by congruence.
    rewrite (row_lookup _ _ _ Hb) in Hab. lia.
  - done.
Qed.

(** The first record that names the other node erased on each side. *)
Lemma sym_erase own other a b rowa rowb :
  own !! a = Some rowa → other !! b = Some rowb →
  sym own other →
  sym (<[a := erase_first b rowa]> own) (<[b := erase_first a rowb]> other).
Proof.
  intros Ha Hb Hsym a' b'.
  rewrite (row_insert _ _ _ _ _ Ha), (row_insert _ _ _ _ _ Hb).
  pose proof (Hsym a' b') as Hab.
  destruct (decide (a' = a)) as [->|Hna], (decide (b' = b)) as [->|Hnb].
  - rewrite !count_node_erase_first, !decide_True by done.
    rewrite (row_lookup _ _ _ Ha), (row_lookup _ _ _ Hb) in Hab. lia.
  - rewrite count_node_erase_first, decide_False by done.
    by rewrite (row_lookup _ _ _ Ha) in Hab.
  - rewrite count_node_erase_first, decide_False by done.
    by rewrite (row_lookup _ _ _ Hb) in Hab.
  - done.
Qed.

Lemma addEdge_sym cfg g n1 n2 check g' :
  addEdge cfg g n1 n2 check = Done g' →
  sym (_nb1 g) (_nb2 g) → sym (_nb1 g') (_nb2 g').
Proof.
  unfold addEdge. intros H Hsym.
  apply bind_Done in H as (_ & _ & H). apply bind_Done in H as (_ & _ & H).
  apply bind_Done in H as (found & _ & H). destruct found.
  - by injection H as <-.
  - apply bind_Done in H as (row1 & E1 & H). apply bind_Done in H as (row2 & E2 & H).
    injection H as <-. simpl. unfold subscript in E1, E2.
    destruct (_nb1 g !! n1) eqn:L1; [injection E1 as ->|done].
    destruct (_nb2 g !! n2) eqn:L2; [injection E2 as ->|done].
    by apply sym_add.
Qed.

Lemma eraseEdge_sym cfg g n1 n2 g' :
  eraseEdge cfg g n1 n2 = Done g' →
  sym (_nb1 g) (_nb2 g) → sym (_nb1 g') (_nb2 g').
Proof.
  unfold eraseEdge. intros H Hsym.
  apply bind_Done in H as (_ & _ & H). apply bind_Done in H as (_ & _ & H).
  apply bind_Done in H as (row1 & E1 & H). apply bind_Done in H as (row2 & E2 & H).
  injection H as <-. simpl. unfold subscript in E1, E2.
  destruct (_nb1 g !! n1) eqn:L1; [injection E1 as ->|done].
  destruct (_nb2 g !! n2) eqn:L2; [injection E2 as ->|done].
  by apply sym_erase.
Qed.

Lemma construct_sym cfg g n1 n2 es g' :
  construct cfg g n1 n2 es = Done g' → sym (_nb1 g') (_nb2 g').
Proof.
  unfold construct. intros H.
  refine (for_each_invariant (λ h, sym (_nb1 h) (_nb2 h)) _ _ es _ g' _ H).
  - intros h e h' Hh Hadd. by eapply addEdge_sym.
  - apply sym_replicate.
Qed.

(** ** C6: the bound checks and the build *)

(** C6, as stated, fails: in a build without DAI_DEBUG the accessor [nb1]
    does not check its id, and with NDEBUG [addEdge] does not either; the id
    0 on the empty graph reaches the vector subscript. *)
Lemma bound_checks_compiled_out :
  nr1 empty_graph ≤ 0 ∧
  nb1 release empty_graph 0 = Undefined ∧
  addEdge ndebug empty_graph 0 0 false = Undefined.
Proof. split; [done|]. split; reflexivity. Qed.

(** With NDEBUG nothing but the scan of a checked [addEdge] looks at the
    ids: the call returns if the list of [n1] names [n2], and reaches a
    subscript out of range if not. *)
Lemma addEdge_checked_out_of_range cfg g n1 n2 :
  nr1 g ≤ n1 ∨ nr2 g ≤ n2 → NDEBUG cfg = true →
  addEdge cfg g n1 n2 true = if has_edge g (n1, n2) then Done g else Undefined.
Proof.
  unfold addEdge, has_edge, nb1, debug_assert, c_assert, nr1, nr2.
  intros H ->. simpl.
  destruct (decide (length (_nb1 g) ≤ n1)) as [H1|H1].
  - rewrite (row_ge _ _ H1), (subscript_None _ _ H1). simpl.
    by destruct (DAI_DEBUG cfg).
  - destruct H as [H|H]; [done|].
    destruct (lookup_lt_is_Some_2 (_nb1 g) n1) as [row1 E1]; [lia|].
    rewrite (row_lookup _ _ _ E1), (subscript_Some _ _ _ E1). simpl.
    assert ((if DAI_DEBUG cfg then Done () else Done ()) = Done ()) as ->
      by by destruct (DAI_DEBUG cfg).
    simpl. destruct (has_neighbor n2 row1); [done|].
    by rewrite (subscript_None (_nb2 g) _ H).
Qed.

(** A graph that records every edge at both of its ends names no node that
    is not there. *)
Lemma sym_no_edge_out_of_range g n1 n2 :
  sym (_nb1 g) (_nb2 g) → nr1 g ≤ n1 ∨ nr2 g ≤ n2 → has_edge g (n1, n2) = false.
Proof.
  unfold has_edge, nr1, nr2. simpl. intros Hsym [H|H].
  - by rewrite (row_ge _ _ H).
  - apply not_true_is_false. intros (p & r & Hr & Hn)%has_neighbor_true.
    pose proof (sym_node_in_range _ _ _ _ _ Hsym Hr). lia.
Qed.

Lemma addEdge_out_of_range_ndebug cfg g n1 n2 check :
  sym (_nb1 g) (_nb2 g) → nr1 g ≤ n1 ∨ nr2 g ≤ n2 → NDEBUG cfg = true →
  addEdge cfg g n1 n2 check = Undefined.
Proof.
  intros Hsym H Hn. destruct check.
  - by rewrite (addEdge_checked_out_of_range _ _ _ _ H Hn),
      (sym_no_edge_out_of_range _ _ _ Hsym H).
  - by apply addEdge_unchecked_out_of_range.
Qed.

(** With NDEBUG the first edge of a range that is out of range takes the
    loop of [construct] to a subscript out of range, with and without the
    scan of DAI_DEBUG. *)
Lemma construct_loop_out_of_range_ndebug cfg check es g :
  NDEBUG cfg = true → sym (_nb1 g) (_nb2 g) →
  Exists (λ e : Edge, nr1 g ≤ e.1 ∨ nr2 g ≤ e.2) es →
  for_each (λ g e, addEdge cfg g e.1 e.2 check) es g = Undefined.
Proof.
  intros Hn. revert g. induction es as [|e es IH]; intros g Hsym Hex;
    [by apply Exists_nil in Hex|].
  cbn [for_each]. destruct (decide (nr1 g ≤ e.1 ∨ nr2 g ≤ e.2)) as [Hout|Hin].
  - by rewrite (addEdge_out_of_range_ndebug _ _ _ _ _ Hsym Hout Hn).
  - apply Exists_cons in Hex as [Hex|Hex]; [done|].
    destruct (addEdge cfg g e.1 e.2 check) as [g'| |] eqn:E; simpl; [|exfalso..|done].
    + pose proof (addEdge_sym _ _ _ _ _ _ E Hsym) as Hsym'.
      apply addEdge_sizes in E as [E1 E2]. apply IH; [done|]. by rewrite E1, E2.
    + assert (e.1 < nr1 g ∧ e.2 < nr2 g) as [H1 H2] by lia.
      destruct (lookup_lt_is_Some_2 _ _ H1) as [row1 E1].
      destruct (lookup_lt_is_Some_2 _ _ H2) as [row2 E2].
      by rewrite (addEdge_in_range cfg g _ _ _ _ _ E1 E2) in E.
Qed.

(** C6, amended: the bound checks are assertions, and the build decides
    whether they are there.  When NDEBUG is not defined, [addEdge],
    [eraseEdge] and [construct] stop in a failed assertion on an id that is
    not below the number of nodes of its type; the accessors [nb1] and [nb2]
    do so only when DAI_DEBUG is defined as well.  In the other builds the id
    reaches an unchecked vector subscript, which is undefined behaviour: in
    [eraseEdge], in the accessors, in [construct] and in [addEdge] without
    the scan always, and in [addEdge] with the scan on every graph that
    records each edge at both of its ends (if the list of [n1] names the [n2]
    that is out of range, the scan finds it and the call returns with the
    graph as it is). *)
Theorem bound_checks_follow_build cfg (g : BipartiteGraph) :
  (∀ n1 n2 check, nr1 g ≤ n1 ∨ nr2 g ≤ n2 → NDEBUG cfg = false →
     addEdge cfg g n1 n2 check = Aborted ∧ eraseEdge cfg g n1 n2 = Aborted) ∧
  (∀ n1 n2, nr1 g ≤ n1 ∨ nr2 g ≤ n2 → NDEBUG cfg = true →
     addEdge cfg g n1 n2 false = Undefined ∧ eraseEdge cfg g n1 n2 = Undefined ∧
     addEdge cfg g n1 n2 true
       = (if has_edge g (n1, n2) then Done g else Undefined) ∧
     (sym (_nb1 g) (_nb2 g) → addEdge cfg g n1 n2 true = Undefined)) ∧
  (∀ i p, nr1 g ≤ i →
     nb1 cfg g i = (if DAI_DEBUG cfg && negb (NDEBUG cfg) then Aborted else Undefined) ∧
     nb1_at cfg g i p = (if DAI_DEBUG cfg && negb (NDEBUG cfg) then Aborted else Undefined)) ∧
  (∀ i p, nr2 g ≤ i →
     nb2 cfg g i = (if DAI_DEBUG cfg && negb (NDEBUG cfg) then Aborted else Undefined) ∧
     nb2_at cfg g i p = (if DAI_DEBUG cfg && negb (NDEBUG cfg) then Aborted else Undefined)) ∧
  (∀ n1 n2 es, Exists (λ e : Edge, n1 ≤ e.1 ∨ n2 ≤ e.2) es →
     (NDEBUG cfg = false → construct cfg g n1 n2 es = Aborted) ∧
     (NDEBUG cfg = true → construct cfg g n1 n2 es = Undefined)).
Proof.
  split_and!.
  - intros n1 n2 check H Hn. split; [by apply addEdge_out_of_range|].
    by rewrite eraseEdge_out_of_range, Hn.
  - intros n1 n2 H Hn. split; [by apply addEdge_unchecked_out_of_range|].
    split; [by rewrite eraseEdge_out_of_range, Hn|].
    split; [by apply addEdge_checked_out_of_range|].
    intros Hsym. by apply addEdge_out_of_range_ndebug.
  - intros i p H. split; [by apply nb1_out_of_range|by apply nb1_at_out_of_range].
  - intros i p H. split; [by apply nb2_out_of_range|by apply nb2_at_out_of_range].
  - intros n1 n2 es H. unfold construct. split.
    + apply construct_loop_out_of_range.
      unfold nr1, nr2. simpl. by rewrite !length_replicate.
    + intros Hn. apply construct_loop_out_of_range_ndebug; [done|apply sym_replicate|].
      unfold nr1, nr2. simpl. by rewrite !length_replicate.
Qed.

Lemma bound_checks_follow_build_witness :
  (addEdge debug example_graph 3 0 true = Aborted ∧
   eraseEdge debug example_graph 3 0 = Aborted) ∧
  (addEdge ndebug example_graph 0 2 false = Undefined ∧
   eraseEdge ndebug example_graph 0 2 = Undefined ∧
   addEdge ndebug example_graph 0 2 true = Undefined) ∧
  nb1 debug example_graph 3 = Aborted ∧
  nb2_at release example_graph 2 0 = Undefined ∧
  construct release empty_graph 1 1 [(0, 0); (1, 0)] = Aborted ∧
  construct (mkBuild true true) empty_graph 1 1 [(0, 0); (1, 0)] = Undefined.
Proof.
  destruct (bound_checks_follow_build debug example_graph) as (A & _ & C & _ & _).
  destruct (bound_checks_follow_build ndebug example_graph) as (_ & B & _ & _ & _).
  destruct (bound_checks_follow_build release example_graph) as (_ & _ & _ & D & _).
  destruct (bound_checks_follow_build release empty_graph) as (_ & _ & _ & _ & E).
  destruct (bound_checks_follow_build (mkBuild true true) empty_graph)
    as (_ & _ & _ & _ & F).
  split; [apply A; [left; unfold nr1; simpl; lia | reflexivity]|].
  split.
  { destruct (B 0 2) as (B1 & B2 & _ & B3).
    - right. unfold nr2. simpl. lia.
    - reflexivity.
    - split; [exact B1|]. split; [exact B2|]. apply B3.
      apply (construct_sym release empty_graph 3 2 example_edges). reflexivity. }
  split; [apply (C 3 0); unfold nr1; simpl; lia|].
  split; [apply (D 2 0); unfold nr2; simpl; lia|].
  split.
  - apply E; [|reflexivity].
    apply Exists_cons. right. apply Exists_cons. left. simpl. lia.
  - apply F; [|reflexivity].
    apply Exists_cons. right. apply Exists_cons. left. simpl. lia.
Defined.

Lemma nb1_Done cfg g i l : nb1 cfg g i = Done l → _nb1 g !! i = Some l.
Proof.
  unfold nb1, subscript. intros H. apply bind_Done in H as (_ & _ & H).
  destruct (_nb1 g !! i); [by injection H as ->|done].
Qed.

Lemma nb2_Done cfg g i l : nb2 cfg g i = Done l → _nb2 g !! i = Some l.
Proof.
  unfold nb2, subscript. intros H. apply bind_Done in H as (_ & _ & H).
  destruct (_nb2 g !! i); [by injection H as ->|done].
Qed.

Lemma snoc_as_insert {A} (l : list A) x y : l ++ [y] = <[length l := y]> (l ++ [x]).
Proof. rewrite insert_app_r_alt, Nat.sub_diag by done. done. Qed.

(** In the loop of the ranged [add1] the node under construction does not
    have its slot yet; with the list built so far in that slot the tables
    are symmetric. *)
Lemma add1_step_sym cfg s it s' :
  add1_step cfg s it = Done s' →
  sym (_nb1 s.1.1 ++ [s.1.2]) (_nb2 s.1.1) →
  sym (_nb1 s'.1.1 ++ [s'.1.2]) (_nb2 s'.1.1).
Proof.
  destruct s as [[g nbs] i]. unfold add1_step. intros H Hsym.
  apply bind_Done in H as (_ & _ & H). apply bind_Done in H as (r & Hr & H).
  injection H as <-. simpl in *. apply nb2_Done in Hr.
  rewrite (snoc_as_insert (_nb1 g) nbs). apply sym_add; try done.
  by rewrite list_lookup_middle.
Qed.

Lemma add1_range_sym cfg g range g' :
  add1_range cfg g range = Done g' →
  sym (_nb1 g) (_nb2 g) → sym (_nb1 g') (_nb2 g').
Proof.
  unfold add1_range. intros H Hsym. apply bind_Done in H as ([[h l] i] & Hloop & H).
  injection H as <-. simpl.
  refine (for_each_invariant (λ s, sym (_nb1 s.1.1 ++ [s.1.2]) (_nb2 s.1.1))
            _ _ range _ (h, l, i) _ Hloop).
  - intros s x s'. intros Hs Hstep. by eapply add1_step_sym.
  - simpl. by apply sym_push_l.
Qed.

Lemma add2_step_sym cfg s it s' :
  add2_step cfg s it = Done s' →
  sym (_nb1 s.1.1) (_nb2 s.1.1 ++ [s.1.2]) →
  sym (_nb1 s'.1.1) (_nb2 s'.1.1 ++ [s'.1.2]).
Proof.
  destruct s as [[g nbs] i]. unfold add2_step. intros H Hsym.
  apply bind_Done in H as (_ & _ & H). apply bind_Done in H as (r & Hr & H).
  injection H as <-. simpl in *. apply nb1_Done in Hr.
  rewrite (snoc_as_insert (_nb2 g) nbs). apply sym_swap, sym_add; try done.
  - by rewrite list_lookup_middle.
  - by apply sym_swap.
Qed.

Lemma add2_range_sym cfg g range g' :
  add2_range cfg g range = Done g' →
  sym (_nb1 g) (_nb2 g) → sym (_nb1 g') (_nb2 g').
Proof.
  unfold add2_range. intros H Hsym. apply bind_Done in H as ([[h l] i] & Hloop & H).
  injection H as <-. simpl.
  refine (for_each_invariant (λ s, sym (_nb1 s.1.1) (_nb2 s.1.1 ++ [s.1.2]))
            _ _ range _ (h, l, i) _ Hloop).
  - intros s x s'. intros Hs Hstep. by eapply add2_step_sym.
  - simpl. by apply sym_swap, sym_push_l, sym_swap.
Qed.

(** ** The inserting member functions keep the dual cross-reference *)

Lemma dual_inv_push_l nbs1 nbs2 :
  dual_ok nbs1 nbs2 ∧ dual_ok nbs2 nbs1 →
  dual_ok (nbs1 ++ [[]]) nbs2 ∧ dual_ok nbs2 (nbs1 ++ [[]]).
Proof.
  intros [H1 H2]. split; intros a p r; [rewrite row_app_nil; apply H1|].
  intros Hr. destruct (H2 a p r Hr) as (Hi & r' & Hr' & Hback).
  split; [done|]. exists r'. by rewrite row_app_nil.
Qed.

Lemma subscript_Done {A} (v : list A) i x : subscript v i = Done x → v !! i = Some x.
Proof. unfold subscript. destruct (v !! i); [by intros [= ->]|done]. Qed.

(** A call of [addEdge] that returns has left the graph alone or has
    appended the two records. *)
Lemma addEdge_Done cfg g n1 n2 check g' :
  addEdge cfg g n1 n2 check = Done g' →
  g' = g ∨ ∃ row1 row2, _nb1 g !! n1 = Some row1 ∧ _nb2 g !! n2 = Some row2 ∧
                        g' = edge_added g n1 n2 row1 row2.
Proof.
  unfold addEdge. intros H.
  apply bind_Done in H as (_ & _ & H). apply bind_Done in H as (_ & _ & H).
  apply bind_Done in H as (found & _ & H). destruct found.
  - left. by injection H as <-.
  - right. apply bind_Done in H as (row1 & E1 & H).
    apply bind_Done in H as (row2 & E2 & H). injection H as <-.
    apply subscript_Done in E1, E2. by exists row1, row2.
Qed.

Lemma addEdge_dual_inv cfg g n1 n2 check g' :
  addEdge cfg g n1 n2 check = Done g' → dual_inv g → dual_inv g'.
Proof.
  intros H Hinv.
  apply addEdge_Done in H as [->|(row1 & row2 & E1 & E2 & ->)]; [done|].
  by apply edge_added_dual_inv.
Qed.

Lemma construct_dual_inv cfg g n1 n2 es g' :
  construct cfg g n1 n2 es = Done g' → dual_inv g'.
Proof.
  unfold construct. intros H.
  refine (for_each_invariant dual_inv _ _ es _ g' _ H).
  - intros h e h' Hh Hadd. by eapply addEdge_dual_inv.
  - split; simpl; intros a p r; by rewrite row_replicate.
Qed.

(** The loop of the ranged [add1]: with the list built so far in the slot of
    the node under construction the cross-reference holds, and the counter
    [iter] is the length of that list. *)
Lemma add1_step_dual cfg s it s' :
  add1_step cfg s it = Done s' →
  s.2 = length s.1.2 ∧ dual_ok (_nb1 s.1.1 ++ [s.1.2]) (_nb2 s.1.1) ∧
    dual_ok (_nb2 s.1.1) (_nb1 s.1.1 ++ [s.1.2]) →
  s'.2 = length s'.1.2 ∧ dual_ok (_nb1 s'.1.1 ++ [s'.1.2]) (_nb2 s'.1.1) ∧
    dual_ok (_nb2 s'.1.1) (_nb1 s'.1.1 ++ [s'.1.2]).
Proof.
  destruct s as [[g nbs] i]. unfold add1_step. intros H (Hi & H1 & H2).
  apply bind_Done in H as (_ & _ & H). apply bind_Done in H as (r & Hr & H).
  injection H as <-. simpl in *. apply nb2_Done in Hr. subst i.
  rewrite length_app. simpl. split; [lia|].
  rewrite (snoc_as_insert (_nb1 g) nbs). unfold nr1.
  split; apply dual_ok_add; try done; by rewrite list_lookup_middle.
Qed.

Lemma add1_range_dual_inv cfg g range g' :
  add1_range cfg g range = Done g' → dual_inv g → dual_inv g'.
Proof.
  unfold add1_range. intros H Hinv. apply bind_Done in H as ([[h l] i] & Hloop & H).
  injection H as <-. unfold dual_inv. simpl.
  refine (proj2 (for_each_invariant
            (λ s, s.2 = length s.1.2 ∧ dual_ok (_nb1 s.1.1 ++ [s.1.2]) (_nb2 s.1.1) ∧
                  dual_ok (_nb2 s.1.1) (_nb1 s.1.1 ++ [s.1.2]))
            _ _ range _ (h, l, i) _ Hloop)).
  - intros s x s' Hs Hstep. by eapply add1_step_dual.
  - simpl. split; [done|]. by apply dual_inv_push_l.
Qed.

Lemma add2_step_dual cfg s it s' :
  add2_step cfg s it = Done s' →
  s.2 = length s.1.2 ∧ dual_ok (_nb1 s.1.1) (_nb2 s.1.1 ++ [s.1.2]) ∧
    dual_ok (_nb2 s.1.1 ++ [s.1.2]) (_nb1 s.1.1) →
  s'.2 = length s'.1.2 ∧ dual_ok (_nb1 s'.1.1) (_nb2 s'.1.1 ++ [s'.1.2]) ∧
    dual_ok (_nb2 s'.1.1 ++ [s'.1.2]) (_nb1 s'.1.1).
Proof.
  destruct s as [[g nbs] i]. unfold add2_step. intros H (Hi & H1 & H2).
  apply bind_Done in H as (_ & _ & H). apply bind_Done in H as (r & Hr & H).
  injection H as <-. simpl in *. apply nb1_Done in Hr. subst i.
  rewrite length_app. simpl. split; [lia|].
  rewrite (snoc_as_insert (_nb2 g) nbs). unfold nr2.
  split; apply dual_ok_add; try done; by rewrite list_lookup_middle.
Qed.

Lemma add2_range_dual_inv cfg g range g' :
  add2_range cfg g range = Done g' → dual_inv g → dual_inv g'.
Proof.
  unfold add2_range. intros H [Hi1 Hi2].
  apply bind_Done in H as ([[h l] i] & Hloop & H).
  injection H as <-. unfold dual_inv. simpl.
  refine (proj2 (for_each_invariant
            (λ s, s.2 = length s.1.2 ∧ dual_ok (_nb1 s.1.1) (_nb2 s.1.1 ++ [s.1.2]) ∧
                  dual_ok (_nb2 s.1.1 ++ [s.1.2]) (_nb1 s.1.1))
            _ _ range _ (h, l, i) _ Hloop)).
  - intros s x s' Hs Hstep. by eapply add2_step_dual.
  - simpl. split; [done|]. by apply and_comm, dual_inv_push_l.
Qed.

(** Every member function of the header that inserts keeps the invariant
    that [eraseEdge] breaks. *)
Lemma insertions_keep_dual_inv cfg cs g :
  forallb insertion cs = true → run cfg cs empty_graph = Done g → dual_inv g.
Proof.
  intros Hins. unfold run.
  assert (dual_inv empty_graph) as H0 by (split; intros a p r Hr; done).
  revert H0. generalize empty_graph.
  induction cs as [|c cs IH]; intros g0 H0 Hrun; simpl in *.
  - by injection Hrun as <-.
  - apply andb_true_iff in Hins as [Hc Hins].
    apply bind_Done in Hrun as (g1 & Hstep & Hrun).
    apply (IH Hins g1); [|done]. clear IH Hrun.
    destruct c; simpl in *; try done.
    + by eapply construct_dual_inv.
    + injection Hstep as <-. by apply dual_inv_push_l.
    + injection Hstep as <-. by apply and_comm, dual_inv_push_l, and_comm.
    + by eapply add1_range_dual_inv.
    + by eapply add2_range_dual_inv.
    + by eapply addEdge_dual_inv.
    + by injection Hstep as <-.
Qed.

(** ** Node removal and the symmetry of the tables *)

Lemma count_node_names l l' n : names l = names l' → count_node n l = count_node n l'.
Proof.
  revert l'. induction l as [|r l IH]; intros [|r' l'] H; try done.
  injection H as Hr Hl. rewrite !count_node_cons, Hr. by rewrite (IH l' Hl).
Qed.

Lemma names_erase_first n l l' :
  names l = names l' → names (erase_first n l) = names (erase_first n l').
Proof.
  revert l'. induction l as [|r l IH]; intros [|r' l'] H; try done.
  injection H as Hr Hl. simpl. rewrite Hr. destruct (node r' =? n); [done|].
  unfold names in *. rewrite !fmap_cons, Hr. f_equal. by apply IH.
Qed.

Lemma find_first_erase n l p :
  find_first n l = Some p → erase_first n l = take p l ++ drop (S p) l.
Proof.
  revert p. induction l as [|r l IH]; intros p H; simpl in *; [done|].
  destruct (node r =? n).
  - by injection H as <-.
  - destruct (find_first n l) as [q|]; [|done]. injection H as <-.
    simpl. by rewrite (IH q).
Qed.

Lemma find_first_None n l : find_first n l = None → erase_first n l = l.
Proof.
  induction l as [|r l IH]; simpl; [done|].
  destruct (node r =? n); [done|]. destruct (find_first n l); [done|].
  intros _. by rewrite IH.
Qed.

Lemma names_dec_iter l : names (dec_iter <$> l) = names l.
Proof. unfold names. rewrite <- list_fmap_compose. by apply list_fmap_ext. Qed.

Lemma names_row_alter (f : Neighbor → Neighbor) nbs q n x :
  (∀ r, node (f r) = node r) →
  names (row (alter (alter f q) n nbs) x) = names (row nbs x).
Proof.
  intros Hf. unfold row. destruct (decide (n = x)) as [->|Hne].
  - rewrite list_lookup_alter_eq. destruct (nbs !! x) as [l|]; [|done]. simpl.
    unfold names. apply list_eq. intros i. rewrite !list_lookup_fmap.
    destruct (decide (q = i)) as [->|Hqi].
    + rewrite list_lookup_alter_eq. destruct (l !! i); [|done]. simpl. by rewrite Hf.
    + by rewrite list_lookup_alter_ne.
  - by rewrite list_lookup_alter_ne.
Qed.

Lemma names_row_alter_all (shifted : Neighbors) nbs x :
  names (row (foldl (λ o r, alter (alter dec_dual (dual r)) (node r) o) nbs shifted) x)
  = names (row nbs x).
Proof.
  revert nbs. induction shifted as [|r l IH]; intros nbs; simpl; [done|].
  rewrite IH. by apply names_row_alter.
Qed.

(** The repair changes [iter] and [dual] fields only: as far as the nodes
    named are concerned, [erase_repaired] is the loop of [eraseEdge]. *)
Lemma erase_repaired_names own other a b x :
  names (row (erase_repaired own other a b).1 x)
    = names (if decide (x = a) then erase_first b (row own a) else row own x) ∧
  names (row (erase_repaired own other a b).2 x) = names (row other x).
Proof.
  unfold erase_repaired. destruct (find_first b (row own a)) as [p|] eqn:E; simpl.
  - split; [|apply names_row_alter_all].
    rewrite (find_first_erase _ _ _ E).
    assert (is_Some (own !! a)) as [l Hl].
    { unfold row in E. destruct (own !! a); [by eexists|done]. }
    rewrite (row_insert _ _ _ _ _ Hl). destruct (decide (x = a)); [|done].
    unfold names. rewrite !fmap_app. f_equal. apply names_dec_iter.
  - split; [|done]. destruct (decide (x = a)) as [->|]; [|done].
    by rewrite (find_first_None _ _ E).
Qed.

Lemma eraseEdge_repaired_names g n1 n2 x :
  names (row (_nb1 (eraseEdge_repaired g n1 n2)) x)
    = names (if decide (x = n1) then erase_first n2 (row (_nb1 g) n1)
             else row (_nb1 g) x) ∧
  names (row (_nb2 (eraseEdge_repaired g n1 n2)) x)
    = names (if decide (x = n2) then erase_first n1 (row (_nb2 g) n2)
             else row (_nb2 g) x).
Proof.
  unfold eraseEdge_repaired.
  pose proof (erase_repaired_names (_nb1 g) (_nb2 g) n1 n2) as H1.
  destruct (erase_repaired (_nb1 g) (_nb2 g) n1 n2) as [nbs1 nbs2]. simpl in H1.
  pose proof (erase_repaired_names nbs2 nbs1 n2 n1) as H2.
  destruct (erase_repaired nbs2 nbs1 n2 n1) as [nbs2' nbs1']. simpl in *.
  split.
  - rewrite (proj2 (H2 x)). apply H1.
  - rewrite (proj1 (H2 x)). destruct (decide (x = n2)); [|apply H1].
    apply names_erase_first, H1.
Qed.

Lemma eraseEdge_repaired_sym g n1 n2 :
  sym (_nb1 g) (_nb2 g) →
  sym (_nb1 (eraseEdge_repaired g n1 n2)) (_nb2 (eraseEdge_repaired g n1 n2)).
Proof.
  intros Hsym a b.
  rewrite (count_node_names _ _ b (proj1 (eraseEdge_repaired_names g n1 n2 a))).
  rewrite (count_node_names _ _ a (proj2 (eraseEdge_repaired_names g n1 n2 b))).
  pose proof (Hsym a b) as Hab.
  destruct (decide (a = n1)) as [->|Hna], (decide (b = n2)) as [->|Hnb].
  - rewrite !count_node_erase_first, !decide_True by done. lia.
  - rewrite count_node_erase_first, decide_False by done. done.
  - rewrite count_node_erase_first, decide_False by done. done.
  - done.
Qed.

(** Removing the edges to the nodes that the list of [n1] names, one after
    the other, empties the list of [n1]. *)
Lemma erase_all_1 n1 ns g :
  names (row (_nb1 g) n1) = ns → sym (_nb1 g) (_nb2 g) →
  sym (_nb1 (foldl (λ h n2, eraseEdge_repaired h n1 n2) g ns))
      (_nb2 (foldl (λ h n2, eraseEdge_repaired h n1 n2) g ns)) ∧
  row (_nb1 (foldl (λ h n2, eraseEdge_repaired h n1 n2) g ns)) n1 = [].
Proof.
  revert g. induction ns as [|n ns IH]; intros g Hn Hsym; simpl.
  - split; [done|]. by apply fmap_nil_inv in Hn.
  - apply IH; [|by apply eraseEdge_repaired_sym].
    rewrite (proj1 (eraseEdge_repaired_names g n1 n n1)), decide_True by done.
    destruct (row (_nb1 g) n1) as [|r l]; [done|]. injection Hn as Hr Hl.
    simpl. apply Nat.eqb_eq in Hr. by rewrite Hr.
Qed.

Lemma erase_all_2 n2 ns g :
  names (row (_nb2 g) n2) = ns → sym (_nb1 g) (_nb2 g) →
  sym (_nb1 (foldl (λ h n1, eraseEdge_repaired h n1 n2) g ns))
      (_nb2 (foldl (λ h n1, eraseEdge_repaired h n1 n2) g ns)) ∧
  row (_nb2 (foldl (λ h n1, eraseEdge_repaired h n1 n2) g ns)) n2 = [].
Proof.
  revert g. induction ns as [|n ns IH]; intros g Hn Hsym; simpl.
  - split; [done|]. by apply fmap_nil_inv in Hn.
  - apply IH; [|by apply eraseEdge_repaired_sym].
    rewrite (proj2 (eraseEdge_repaired_names g n n2 n2)), decide_True by done.
    destruct (row (_nb2 g) n2) as [|r l]; [done|]. injection Hn as Hr Hl.
    simpl. apply Nat.eqb_eq in Hr. by rewrite Hr.
Qed.

Lemma row_delete nbs n a : row (delete n nbs) a = row nbs (unshift n a).
Proof.
  unfold row, unshift. destruct (decide (a < n)).
  - by rewrite list_lookup_delete_lt.
  - by rewrite list_lookup_delete_ge by lia.
Qed.

Lemma row_fmap (f : Neighbors → Neighbors) nbs a :
  f [] = [] → row (f <$> nbs) a = f (row nbs a).
Proof. intros Hf. unfold row. rewrite list_lookup_fmap. by destruct (nbs !! a). Qed.

Lemma count_node_shift_down n a l :
  count_node n l = 0 →
  count_node a (shift_down n <$> l) = count_node (unshift n a) l.
Proof.
  induction l as [|r l IH]; [done|].
  rewrite fmap_cons, !count_node_cons. intros H.
  destruct (decide (node r = n)) as [|Hrn]; [lia|]. rewrite IH by lia. f_equal.
  unfold shift_down, unshift.
  destruct (n <? node r) eqn:E; [apply Nat.ltb_lt in E|apply Nat.ltb_ge in E]; simpl;
    repeat case_decide; lia.
Qed.

(** The slot of a node without neighbours is deleted and the records that
    name a node behind it follow. *)
Lemma sym_delete (own other : list Neighbors) n :
  sym own other → row own n = [] →
  sym (delete n own) (fmap (M:=list) (shift_down n) <$> other).
Proof.
  intros Hsym Hn a b. rewrite row_delete, row_fmap by done.
  rewrite count_node_shift_down; [apply Hsym|].
  rewrite <- (Hsym n b), Hn. done.
Qed.

Lemma erase1_sym g n1 g' :
  erase1 g n1 = Done g' → sym (_nb1 g) (_nb2 g) → sym (_nb1 g') (_nb2 g').
Proof.
  unfold erase1. destruct (n1 <? nr1 g); [|done]. intros H Hsym.
  injection H as <-. simpl.
  destruct (erase_all_1 n1 (names (row (_nb1 g) n1)) g eq_refl Hsym) as [Hs He].
  by apply sym_delete.
Qed.

Lemma erase2_sym g n2 g' :
  erase2 g n2 = Done g' → sym (_nb1 g) (_nb2 g) → sym (_nb1 g') (_nb2 g').
Proof.
  unfold erase2. destruct (n2 <? nr2 g); [|done]. intros H Hsym.
  injection H as <-. simpl.
  destruct (erase_all_2 n2 (names (row (_nb2 g) n2)) g eq_refl Hsym) as [Hs He].
  apply sym_swap, sym_delete; [by apply sym_swap|done].
Qed.

(** Every call keeps the tables symmetric. *)
Lemma do_call_sym cfg g c g' :
  sym (_nb1 g) (_nb2 g) → do_call cfg g c = Done g' → sym (_nb1 g') (_nb2 g').
Proof.
  intros Hsym H. destruct c; simpl in H.
  - by eapply construct_sym.
  - injection H as <-. simpl. by apply sym_push_l.
  - injection H as <-. simpl. by apply sym_swap, sym_push_l, sym_swap.
  - by eapply add1_range_sym.
  - by eapply add2_range_sym.
  - by eapply addEdge_sym.
  - by eapply eraseEdge_sym.
  - by eapply erase1_sym.
  - by eapply erase2_sym.
  - by injection H as <-.
Qed.

Lemma reachable_sym cfg g : reachable cfg g → sym (_nb1 g) (_nb2 g).
Proof.
  intros [cs Hrun].
  refine (run_invariant cfg (λ h, sym (_nb1 h) (_nb2 h)) _ cs _ g _ Hrun).
  - intros h c h' Hh Hc. by eapply do_call_sym.
  - done.
Qed.

(** ** C5: the number of edges, counted from either side *)

Lemma sum_with_zero {A} (l : list A) : sum_list_with (λ _, 0) l = 0.
Proof. induction l; simpl; [done|]. by rewrite IHl. Qed.

Lemma sum_with_plus {A} (f h : A → nat) (l : list A) :
  sum_list_with (λ x, f x + h x) l = sum_list_with f l + sum_list_with h l.
Proof. induction l as [|x l IH]; simpl; [done|]. rewrite IH. lia. Qed.

Lemma sum_with_ext {A} (f h : A → nat) (l : list A) :
  (∀ x, x ∈ l → f x = h x) → sum_list_with f l = sum_list_with h l.
Proof.
  induction l as [|x l IH]; simpl; [done|]. intros H.
  rewrite (H x), IH; [done| |by left]. intros y Hy. apply H. by right.
Qed.

Lemma sum_with_exchange {A B} (f : A → B → nat) (la : list A) (lb : list B) :
  sum_list_with (λ a, sum_list_with (f a) lb) la
  = sum_list_with (λ b, sum_list_with (λ a, f a b) la) lb.
Proof.
  induction la as [|a la IH]; simpl.
  - by rewrite sum_with_zero.
  - by rewrite IH, sum_with_plus.
Qed.

Lemma sum_indicator k n :
  sum_list_with (λ b, if decide (k = b) then 1 else 0) (seq 0 n)
  = if decide (k < n) then 1 else 0.
Proof.
  induction n as [|n IH]; [done|].
  rewrite seq_S, sum_list_with_app, IH. simpl.
  repeat case_decide; lia.
Qed.

(** The length of a list, split by the node each record names. *)
Lemma length_by_node (l : Neighbors) n :
  (∀ p r, l !! p = Some r → node r < n) →
  length l = sum_list_with (λ b, count_node b l) (seq 0 n).
Proof.
  induction l as [|r l IH]; intros Hin; simpl.
  - by rewrite sum_with_zero.
  - rewrite (sum_with_ext _ (λ b, (if decide (node r = b) then 1 else 0)
                                  + count_node b l)).
    2: { intros b _. apply count_node_cons. }
    rewrite sum_with_plus, sum_indicator, <- IH.
    + rewrite decide_True; [done|]. by apply (Hin 0).
    + intros p r' Hp. by apply (Hin (S p)).
Qed.

Lemma total_degree_rows_from (pre l : list Neighbors) :
  total_degree l
  = sum_list_with (λ a, length (row (pre ++ l) a)) (seq (length pre) (length l)).
Proof.
  revert pre. induction l as [|x l IH]; intros pre; [done|].
  rewrite total_degree_cons. simpl. unfold row at 1.
  rewrite list_lookup_middle by done. simpl. f_equal.
  rewrite (IH (pre ++ [x])), length_app, <- app_assoc. simpl.
  by rewrite Nat.add_1_r.
Qed.

Lemma total_degree_rows (nbs : list Neighbors) :
  total_degree nbs = sum_list_with (λ a, length (row nbs a)) (seq 0 (length nbs)).
Proof. apply (total_degree_rows_from [] nbs). Qed.

(** Symmetric tables hold the same number of records. *)
Lemma sym_total_degree nbs1 nbs2 :
  sym nbs1 nbs2 → total_degree nbs1 = total_degree nbs2.
Proof.
  intros Hsym. rewrite !total_degree_rows.
  rewrite (sum_with_ext _ (λ a, sum_list_with (λ b, count_node b (row nbs1 a))
                                              (seq 0 (length nbs2)))).
  2: { intros a _. apply length_by_node. intros p r. by apply sym_node_in_range. }
  rewrite sum_with_exchange. apply sum_with_ext. intros b _.
  rewrite (length_by_node (row nbs2 b) (length nbs1)).
  - apply sum_with_ext. intros a _. apply Hsym.
  - intros p r. apply sym_node_in_range. by apply sym_swap.
Qed.

(** C5: in every graph state that calls of the member functions lead to,
    [nrEdges()] is the sum of the lengths of the neighbour lists of the nodes
    of type 1, and that sum is the sum of the lengths of the neighbour lists
    of the nodes of type 2. *)
Theorem edge_count_symmetry cfg (g : BipartiteGraph) :
  reachable cfg g →
  nrEdges g = total_degree (_nb1 g) ∧ total_degree (_nb1 g) = total_degree (_nb2 g).
Proof.
  intros Hreach. split; [apply nrEdges_total|].
  by apply sym_total_degree, (reachable_sym cfg).
Qed.

Lemma edge_count_symmetry_witness :
  let g := {| _nb1 := [[mkNeighbor 1 1 0];
                       [mkNeighbor 0 0 1; mkNeighbor 1 1 1]];
              _nb2 := [[mkNeighbor 1 1 0];
                       [mkNeighbor 0 0 1; mkNeighbor 1 1 1];
                       []];
              _edge_indexed := false; _edges := []; _vv2e := ∅ |} in
  run release [Construct 3 2 example_edges; EraseEdge 1 0; Add2; Erase1 0]
      empty_graph = Done g ∧
  nrEdges g = 3 ∧ total_degree (_nb1 g) = total_degree (_nb2 g).
Proof.
  intros g. split; [reflexivity|].
  destruct (edge_count_symmetry release g) as [E1 E2].
  - exists [Construct 3 2 example_edges; EraseEdge 1 0; Add2; Erase1 0].
    reflexivity.
  - split; [reflexivity|exact E2].
Defined.

(** ** The traversal graph of symmetric tables *)

Lemma elem_of_vertices_l g a : inl a ∈ vertices g ↔ a < nr1 g.
Proof.
  unfold vertices. rewrite elem_of_app, !list_elem_of_fmap. split.
  - intros [(x & Hx & Hin)|(x & Hx & _)]; [|done]. injection Hx as ->.
    apply elem_of_seq in Hin. lia.
  - intros H. left. exists a. split; [done|]. apply elem_of_seq. lia.
Qed.

Lemma elem_of_vertices_r g b : inr b ∈ vertices g ↔ b < nr2 g.
Proof.
  unfold vertices. rewrite elem_of_app, !list_elem_of_fmap. split.
  - intros [(x & Hx & _)|(x & Hx & Hin)]; [done|]. injection Hx as ->.
    apply elem_of_seq in Hin. lia.
  - intros H. right. exists b. split; [done|]. apply elem_of_seq. lia.
Qed.

Lemma NoDup_vertices g : NoDup (vertices g).
Proof.
  unfold vertices. apply NoDup_app. split_and!.
  - apply NoDup_fmap; [apply _|apply NoDup_seq].
  - intros v Hl Hr. apply list_elem_of_fmap in Hl as (a & -> & _).
    by apply list_elem_of_fmap in Hr as (b & Hb & _).
  - apply NoDup_fmap; [apply _|apply NoDup_seq].
Qed.

Lemma length_vertices g : length (vertices g) = nr1 g + nr2 g.
Proof. unfold vertices. by rewrite length_app, !length_fmap, !length_seq. Qed.

Lemma elem_of_adjacent_l g a w :
  w ∈ adjacent g (inl a) ↔ ∃ b, w = inr b ∧ 0 < count_node b (row (_nb1 g) a).
Proof.
  simpl. rewrite list_elem_of_fmap. split.
  - intros (r & -> & Hr). exists (node r). split; [done|].
    apply list_elem_of_lookup in Hr as [p Hp].
    apply count_node_pos, has_neighbor_true. eauto.
  - intros (b & -> & Hb). apply count_node_pos, has_neighbor_true in Hb
      as (p & r & Hp & <-).
    exists r. split; [done|]. apply list_elem_of_lookup. eauto.
Qed.

Lemma elem_of_adjacent_r g b w :
  w ∈ adjacent g (inr b) ↔ ∃ a, w = inl a ∧ 0 < count_node a (row (_nb2 g) b).
Proof.
  simpl. rewrite list_elem_of_fmap. split.
  - intros (r & -> & Hr). exists (node r). split; [done|].
    apply list_elem_of_lookup in Hr as [p Hp].
    apply count_node_pos, has_neighbor_true. eauto.
  - intros (a & -> & Ha). apply count_node_pos, has_neighbor_true in Ha
      as (p & r & Hp & <-).
    exists r. split; [done|]. apply list_elem_of_lookup. eauto.
Qed.

Lemma adjacent_sym g v w :
  sym (_nb1 g) (_nb2 g) → w ∈ adjacent g v → v ∈ adjacent g w.
Proof.
  intros Hsym. destruct v as [a|b].
  - rewrite elem_of_adjacent_l. intros (b & -> & Hb).
    apply elem_of_adjacent_r. exists a. split; [done|]. by rewrite <- (Hsym a b).
  - rewrite elem_of_adjacent_r. intros (a & -> & Ha).
    apply elem_of_adjacent_l. exists b. split; [done|]. by rewrite (Hsym a b).
Qed.

Lemma adjacent_in_range g v w :
  sym (_nb1 g) (_nb2 g) → w ∈ adjacent g v → w ∈ vertices g.
Proof.
  intros Hsym Hw. pose proof (adjacent_sym g v w Hsym Hw) as Hv.
  destruct w as [a|b].
  - apply elem_of_vertices_l. unfold nr1.
    destruct (decide (a < length (_nb1 g))); [done|].
    simpl in Hv. rewrite row_ge in Hv by lia. by apply elem_of_nil in Hv.
  - apply elem_of_vertices_r. unfold nr2.
    destruct (decide (b < length (_nb2 g))); [done|].
    simpl in Hv. rewrite row_ge in Hv by lia. by apply elem_of_nil in Hv.
Qed.

Lemma sum_with_fmap {A B} (f : B → nat) (h : A → B) (l : list A) :
  sum_list_with f (h <$> l) = sum_list_with (λ x, f (h x)) l.
Proof. induction l as [|x l IH]; csimpl; [done|]. by rewrite IH. Qed.

(** Every edge is counted at both of its ends. *)
Lemma degree_sum g :
  sym (_nb1 g) (_nb2 g) →
  sum_list_with (degree g) (vertices g) = 2 * nrEdges g.
Proof.
  intros Hsym. unfold vertices.
  rewrite sum_list_with_app, !sum_with_fmap, nrEdges_total.
  assert (sum_list_with (λ a, degree g (inl a)) (seq 0 (nr1 g))
          = total_degree (_nb1 g)) as ->.
  { rewrite total_degree_rows. apply sum_with_ext. intros a _.
    unfold degree. simpl. apply length_fmap. }
  assert (sum_list_with (λ b, degree g (inr b)) (seq 0 (nr2 g))
          = total_degree (_nb2 g)) as ->.
  { rewrite total_degree_rows. apply sum_with_ext. intros b _.
    unfold degree. simpl. apply length_fmap. }
  rewrite (sym_total_degree _ _ Hsym). lia.
Qed.

Lemma remove_one_length p l : p ∈ l → S (length (remove_one p l)) = length l.
Proof.
  induction l as [|v l IH]; simpl; [by intros ?%elem_of_nil|].
  destruct (decide (v = p)) as [->|Hne]; [done|].
  intros [?|Hin]%elem_of_cons; [congruence|]. simpl. by rewrite IH.
Qed.

Lemma remove_one_subset p l v : v ∈ remove_one p l → v ∈ l.
Proof.
  induction l as [|x l IH]; simpl; [done|].
  destruct (decide (x = p)); [by right|].
  intros [->|Hin]%elem_of_cons; [by left|right; auto].
Qed.

(** ** The level-by-level traversal *)

Section Traversal.
Variable g : BipartiteGraph.
Variable s : vertex.
Hypothesis Hsym : sym (_nb1 g) (_nb2 g).

Lemma nones_cons e l :
  nones (e :: l) = (if decide (e.2 = None) then 1 else 0) + nones l.
Proof. unfold nones. rewrite filter_cons. by destruct (decide (e.2 = None)). Qed.

Lemma nones_app l1 l2 : nones (l1 ++ l2) = nones l1 + nones l2.
Proof. unfold nones. by rewrite filter_app, length_app. Qed.

Lemma nones_reached u (new : list vertex) :
  nones ((λ v, (v, Some u)) <$> new) = 0.
Proof.
  induction new as [|v new IH]; [done|].
  by rewrite fmap_cons, nones_cons, IH.
Qed.

Lemma visit_seen u t v w : w ∈ seen t → w ∈ seen (visit u t v).
Proof.
  unfold visit. destruct (decide (v ∈ seen t)); simpl; [done|].
  intros Hw. apply elem_of_app. by left.
Qed.

Lemma visit_all_seen u nbrs t w :
  w ∈ seen t → w ∈ seen (foldl (visit u) t nbrs).
Proof.
  revert t. induction nbrs as [|v nbrs IH]; intros t Hw; simpl; [done|].
  by apply IH, visit_seen.
Qed.

(** Visiting the neighbours of [u]: each one is a revisit or a node
    reached for the first time, and all of them are reached afterwards. *)
Lemma visit_all u nbrs t :
  NoDup (seen t) →
  ∃ new,
    seen (foldl (visit u) t nbrs) = seen t ++ new ∧
    next (foldl (visit u) t nbrs) = next t ++ ((λ v, (v, Some u)) <$> new) ∧
    revisits (foldl (visit u) t nbrs) + length new = revisits t + length nbrs ∧
    NoDup (seen (foldl (visit u) t nbrs)) ∧
    (∀ v, v ∈ new → v ∈ nbrs) ∧
    (∀ v, v ∈ nbrs → v ∈ seen (foldl (visit u) t nbrs)).
Proof.
  revert t. induction nbrs as [|v nbrs IH]; intros t Hnd; simpl.
  - exists []. rewrite !app_nil_r. split_and!; try done.
    by intros v ?%elem_of_nil.
  - assert (v ∈ seen (visit u t v)) as Hv.
    { unfold visit. destruct (decide (v ∈ seen t)); simpl; [done|].
      apply elem_of_app. right. by left. }
    unfold visit at 2 4 6 8 10. unfold visit in Hv.
    destruct (decide (v ∈ seen t)) as [Hin|Hnin].
    + destruct (IH (mkTraversal (seen t) (next t) (S (revisits t))) Hnd)
        as (new & Hs & Hn & Hr & Hnd' & Hsub & Hall).
      exists new. simpl in *. split_and!; try done; [lia| |].
      * intros w Hw. right. auto.
      * intros w [->|Hw]%elem_of_cons; [by apply visit_all_seen|auto].
    + destruct (IH (mkTraversal (seen t ++ [v]) (next t ++ [(v, Some u)])
                                (revisits t)))
        as (new & Hs & Hn & Hr & Hnd' & Hsub & Hall).
      { simpl. apply NoDup_app. split; [done|]. split; [|apply NoDup_singleton].
        intros w Hw ->%list_elem_of_singleton. done. }
      exists (v :: new). simpl in *. split_and!.
      * by rewrite Hs, <- app_assoc.
      * by rewrite Hn, <- app_assoc.
      * lia.
      * done.
      * intros w [->|Hw]%elem_of_cons; [by left|right; auto].
      * intros w [->|Hw]%elem_of_cons; [by apply visit_all_seen|auto].
Qed.

Lemma remove_one_or p l w : w ∈ l → w = p ∨ w ∈ remove_one p l.
Proof.
  induction l as [|x l IH]; simpl; [by intros ?%elem_of_nil|].
  destruct (decide (x = p)) as [->|Hne].
  - intros [->|Hw]%elem_of_cons; [by left|by right].
  - intros [->|Hw]%elem_of_cons; [right; by left|].
    destruct (IH Hw) as [->|Hr]; [by left|right; by right].
Qed.

(** One node of the frontier expanded. *)
Lemma expand_inv expanded e todo t :
  traversal_inv g s expanded (e :: todo) t →
  traversal_inv g s (expanded ++ [e.1]) todo (expand g t e).
Proof.
  intros (Hperm & Hnd & Hin & Hpar & Hcount & Hs0 & Hpath & Hclosed).
  destruct e as [u par]. unfold expand. csimpl in *.
  set (nbrs := match par with
               | Some p => remove_one p (adjacent g u)
               | None => adjacent g u
               end).
  assert (∀ v, v ∈ nbrs → v ∈ adjacent g u) as Hnbrs.
  { intros v. unfold nbrs. destruct par; [apply remove_one_subset|done]. }
  assert (degree g u = length nbrs + (if decide (par = None) then 0 else 1))
    as Hdeg.
  { unfold nbrs, degree. destruct par as [p|]; simpl; [|lia].
    rewrite <- (remove_one_length p (adjacent g u)); [lia|].
    apply Hpar. by left. }
  assert (u ∈ seen t) as Hu.
  { rewrite Hperm. apply elem_of_app. right. by left. }
  destruct (visit_all u nbrs t Hnd) as (new & Hs & Hn & Hr & Hnd' & Hsub & Hall).
  assert (∀ v, v ∈ seen t → v ∈ seen (foldl (visit u) t nbrs)) as Hgrow.
  { intros v Hv. rewrite Hs. apply elem_of_app. by left. }
  split_and!.
  - rewrite Hs, Hn, Hperm, !fmap_app, <- list_fmap_compose, <- !app_assoc.
    assert (fst ∘ (λ v, (v, Some u)) <$> new = new) as ->.
    { rewrite <- (list_fmap_id new) at 2. by apply list_fmap_ext. }
    by rewrite <- app_comm_cons, <- !app_assoc.
  - done.
  - intros v. rewrite Hs. intros [Hv|Hv]%elem_of_app; [auto|].
    eapply adjacent_in_range; [done|]. eauto.
  - intros v p. rewrite Hn, app_assoc.
    intros [Hv|Hv]%elem_of_app.
    + destruct (Hpar v p) as [Hp1 Hp2]; [by right|]. auto.
    + apply list_elem_of_fmap in Hv as (w & Hw & Hnew). injection Hw as -> ->.
      split; [|auto]. apply adjacent_sym; [done|]. auto.
  - rewrite sum_list_with_app. simpl.
    rewrite Hs, Hn, !length_app, length_fmap, app_assoc, nones_app, nones_reached.
    rewrite nones_cons in Hcount. simpl in Hcount.
    destruct (decide (par = None)); lia.
  - auto.
  - intros v. rewrite Hs. intros [Hv|Hv]%elem_of_app; [auto|].
    apply (path_step g s u); auto.
  - intros x w [Hx|Hx]%elem_of_app Hw.
    + apply Hgrow. eauto.
    + apply list_elem_of_singleton in Hx as ->. unfold nbrs in Hall. destruct par as [p|]; [|auto].
      destruct (remove_one_or p _ _ Hw) as [->|Hr']; [|auto].
      apply Hgrow, (Hpar u p). by left.
Qed.

(** One round: the whole frontier expanded. *)
Lemma round_inv todo expanded t :
  traversal_inv g s expanded todo t →
  traversal_inv g s (expanded ++ todo.*1) [] (foldl (expand g) t todo).
Proof.
  revert expanded t. induction todo as [|e todo IH]; intros expanded t Hinv; simpl.
  - by rewrite app_nil_r.
  - rewrite cons_middle, app_assoc. apply IH. by apply expand_inv.
Qed.

Lemma next_round_inv expanded t :
  traversal_inv g s expanded [] t →
  traversal_inv g s expanded (next t) (mkTraversal (seen t) [] (revisits t)).
Proof.
  intros (Hperm & Hnd & Hin & Hpar & Hcount & Hs0 & Hpath & Hclosed). simpl in *.
  split_and!; simpl; try done.
  - by rewrite app_nil_r.
  - intros u p. rewrite app_nil_r. apply Hpar.
  - rewrite app_nil_r. lia.
Qed.

Lemma expanded_bound expanded todo t :
  traversal_inv g s expanded todo t → length expanded ≤ nr1 g + nr2 g.
Proof.
  intros (Hperm & Hnd & Hin & _).
  rewrite <- length_vertices.
  transitivity (length (seen t)).
  - rewrite Hperm, length_app. lia.
  - apply submseteq_length, NoDup_submseteq; done.
Qed.

(** With enough fuel the rounds end with an empty frontier. *)
Lemma levels_inv fuel expanded t :
  traversal_inv g s expanded (next t) (mkTraversal (seen t) [] (revisits t)) →
  nr1 g + nr2 g < fuel + length expanded →
  ∃ expanded', traversal_inv g s expanded' [] (levels g fuel t) ∧
               next (levels g fuel t) = [].
Proof.
  revert expanded t. induction fuel as [|fuel IH]; intros expanded t Hinv Hfuel.
  - apply expanded_bound in Hinv. lia.
  - simpl. destruct (next t) as [|e frontier] eqn:E.
    + exists expanded. split; [|done]. destruct t as [sn n r]. simpl in *.
      by subst n.
    + apply round_inv, next_round_inv in Hinv.
      apply (IH _ _ Hinv). rewrite length_app. simpl. lia.
Qed.

Lemma traverse_inv t :
  s ∈ vertices g →
  levels g (S (nr1 g + nr2 g)) (mkTraversal [s] [(s, None)] 0) = t →
  ∃ expanded, traversal_inv g s expanded [] t ∧ next t = [].
Proof.
  intros Hs <-. apply (levels_inv _ []); [|simpl; lia].
  split_and!; simpl; try done.
  - apply NoDup_singleton.
  - by intros v ->%list_elem_of_singleton.
  - intros u p [Hu|Hu]%elem_of_cons; [done|by apply elem_of_nil in Hu].
  - by left.
  - intros v ->%list_elem_of_singleton. constructor.
  - by intros u w ?%elem_of_nil.
Qed.
End Traversal.

Lemma traverse_start g t :
  traverse g = Some t →
  ∃ s, head (vertices g) = Some s ∧ s ∈ vertices g ∧
       levels g (S (nr1 g + nr2 g)) (mkTraversal [s] [(s, None)] 0) = t.
Proof.
  unfold traverse. destruct (vertices g) as [|s vs] eqn:Ev; [done|].
  intros H. injection H as <-. exists s. split; [done|]. split; [by left|done].
Qed.

(** The account of the traversal when it ends: the degrees of the nodes
    reached add up to two for every node but the first, plus the revisits. *)
Lemma traverse_account g t :
  sym (_nb1 g) (_nb2 g) → traverse g = Some t →
  NoDup (seen t) ∧ (∀ v, v ∈ seen t → v ∈ vertices g) ∧
  sum_list_with (degree g) (seen t) + 2 = 2 * length (seen t) + revisits t.
Proof.
  intros Hsym (s & _ & Hs & Ht)%traverse_start.
  destruct (traverse_inv g s Hsym t Hs Ht)
    as (expanded & (Hperm & Hnd & Hin & _ & Hcount & _) & Hnext).
  split; [done|]. split; [done|].
  rewrite Hnext in *. simpl in *. rewrite app_nil_r in Hperm.
  rewrite Hperm at 1. unfold nones in Hcount. simpl in Hcount. lia.
Qed.

(** The traversal reaches exactly the nodes that a walk from the start node
    leads to. *)
Lemma traverse_reaches g t s :
  sym (_nb1 g) (_nb2 g) → traverse g = Some t → head (vertices g) = Some s →
  ∀ v, v ∈ seen t ↔ path g s v.
Proof.
  intros Hsym (s' & Hhead & Hs & Ht)%traverse_start Hs'.
  rewrite Hhead in Hs'. injection Hs' as ->.
  destruct (traverse_inv g s Hsym t Hs Ht)
    as (expanded & (Hperm & _ & _ & _ & _ & Hs0 & Hpath & Hclosed) & Hnext).
  rewrite Hnext in Hperm. simpl in Hperm. rewrite app_nil_r in Hperm.
  intros v. split; [apply Hpath|].
  induction 1 as [|v w Hv IH Hw]; [done|].
  apply (Hclosed v w); [|done]. by rewrite <- Hperm.
Qed.

(** [isConnected] of the model answers whether a walk from the first node
    leads to every node. *)
Lemma isConnected_paths g s :
  sym (_nb1 g) (_nb2 g) → head (vertices g) = Some s →
  isConnected g = true ↔ ∀ v, v ∈ vertices g → path g s v.
Proof.
  intros Hsym Hs. unfold isConnected.
  destruct (traverse g) as [t|] eqn:Et.
  - rewrite forallb_forall. split.
    + intros H v Hv. apply (traverse_reaches g t s Hsym Et Hs).
      apply list_elem_of_In in Hv. by apply H, bool_decide_eq_true in Hv.
    + intros H v Hv. apply bool_decide_eq_true.
      apply (traverse_reaches g t s Hsym Et Hs), H. by apply list_elem_of_In.
  - unfold traverse in Et. by destruct (vertices g).
Qed.

(** ** C4: the tree test *)

Lemma traverse_Some g : 0 < nr1 g + nr2 g → ∃ t, traverse g = Some t.
Proof.
  intros Hpos. unfold traverse. destruct (vertices g) as [|s vs] eqn:Ev.
  - apply (f_equal length) in Ev. rewrite length_vertices in Ev. simpl in Ev. lia.
  - by eexists.
Qed.

(** On symmetric tables with at least one node the traversal finds no
    revisit exactly when a connected graph has one edge less than nodes. *)
Lemma isTree_edge_count_test without_nodes g :
  sym (_nb1 g) (_nb2 g) → 0 < nr1 g + nr2 g →
  isTree without_nodes g = edge_count_test g.
Proof.
  intros Hsym Hpos. unfold isTree, edge_count_test, isConnected, acyclic.
  destruct (traverse_Some g Hpos) as [t Et]. rewrite Et.
  destruct (forallb _ (vertices g)) eqn:Hconn; simpl; [|done].
  destruct (traverse_account g t Hsym Et) as (Hnd & Hin & Hcount).
  assert (seen t ≡ₚ vertices g) as Hperm.
  { apply NoDup_Permutation; [done|apply NoDup_vertices|].
    intros v. split; [apply Hin|]. intros Hv.
    rewrite forallb_forall in Hconn. apply list_elem_of_In in Hv.
    by apply Hconn, bool_decide_eq_true in Hv. }
  rewrite Hperm, (degree_sum g Hsym), length_vertices in Hcount.
  destruct (Nat.eqb_spec (revisits t) 0), (Z.eqb_spec (Z.of_nat (nrEdges g))
    (Z.of_nat (nr1 g) + Z.of_nat (nr2 g) - 1)); try done; lia.
Qed.

(** On the graph without nodes the two formulations of the tree test part:
    the graph is connected and the traversal finds no cycle, while the test
    by the number of edges fails, 0 being different from [nr1() + nr2() - 1]
    as an integer and in 64-bit [size_t] arithmetic.  The two agree there
    exactly if [isTree()] returns false. *)
Lemma tree_test_without_nodes without_nodes :
  isTree without_nodes empty_graph = without_nodes ∧
  isConnected empty_graph = true ∧ acyclic empty_graph = true ∧
  edge_count_test empty_graph = false ∧
  (Z.of_nat (nrEdges empty_graph)
     ≠ (Z.of_nat (nr1 empty_graph) + Z.of_nat (nr2 empty_graph) - 1) mod 2 ^ 64)%Z.
Proof. split_and!; done. Qed.

(** The tree characterisation on graphs with nodes: for every graph state
    with at least one node that calls of the member functions lead to,
    [isTree()] is true if and only if [isConnected()] is true and
    [nrEdges() == nr1() + nr2() - 1], whatever [isTree()] returns on the
    graph without nodes; on the graph of the example [isConnected()] is true
    and [isTree()] is false. *)
Theorem isTree_iff_connected_edge_count cfg without_nodes (g : BipartiteGraph) :
  reachable cfg g → 0 < nr1 g + nr2 g →
  (isTree without_nodes g = true ↔
     isConnected g = true ∧
     (Z.of_nat (nrEdges g) = Z.of_nat (nr1 g) + Z.of_nat (nr2 g) - 1)%Z) ∧
  isConnected example_graph = true ∧ isTree without_nodes example_graph = false.
Proof.
  intros Hreach Hpos. split; [|split; reflexivity].
  rewrite (isTree_edge_count_test _ g (reachable_sym cfg g Hreach) Hpos).
  unfold edge_count_test. by rewrite andb_true_iff, Z.eqb_eq.
Qed.

Lemma isTree_iff_connected_edge_count_witness :
  isTree true example_graph = true ↔
    isConnected example_graph = true ∧
    (Z.of_nat (nrEdges example_graph)
       = Z.of_nat (nr1 example_graph) + Z.of_nat (nr2 example_graph) - 1)%Z.
Proof.
  apply (isTree_iff_connected_edge_count release true example_graph).
  - exists [Construct 3 2 example_edges]. reflexivity.
  - unfold nr1, nr2. simpl. lia.
Defined.

(** The example graph without the edge (1,0) is a tree: four edges join its
    five nodes. *)
Example example_erased_is_tree without_nodes :
  ∃ g, eraseEdge release example_graph 1 0 = Done g ∧
       isConnected g = true ∧ isTree without_nodes g = true ∧ nrEdges g = 4.
Proof. eexists. split; [apply example_erased|]. by vm_compute. Qed.

(** Two nodes of type 1 without any node of type 2 are not connected. *)
Example isolated_nodes_not_connected without_nodes :
  isConnected (add1 (add1 empty_graph).1).1 = false ∧
  isTree without_nodes (add1 (add1 empty_graph).1).1 = false.
Proof. split; reflexivity. Qed.

(** * Further properties of the member functions of the header *)

(** ** The ranged [add1] and [add2] as compositions *)

Lemma for_each_fmap {S X Y} (body : S → Y → outcome S) (f : X → Y) xs s :
  for_each body (f <$> xs) s = for_each (λ s x, body s (f x)) xs s.
Proof.
  revert s. induction xs as [|x xs IH]; intros s; csimpl; [done|].
  destruct (body s (f x)); simpl; auto.
Qed.

Lemma add1_step_in_range cfg g nbs i it row2 :
  _nb2 g !! it = Some row2 →
  add1_step cfg (g, nbs, i) it =
    Done (with_nb g (_nb1 g) (<[it := row2 ++ [mkNeighbor (length row2) (nr1 g) i]]> (_nb2 g)),
          nbs ++ [mkNeighbor i it (length row2)], S i).
Proof.
  intros H. unfold add1_step, nr2.
  by rewrite (ltb_lookup _ _ _ H), c_assert_true, (nb2_in_range cfg g it row2 H).
Qed.

Lemma add1_step_out_of_range cfg g nbs i it :
  nr2 g ≤ it →
  add1_step cfg (g, nbs, i) it = if NDEBUG cfg then Undefined else Aborted.
Proof.
  intros H. unfold add1_step, c_assert. rewrite (nb2_out_of_range cfg g it H).
  unfold nr2 in *. rewrite (ltb_ge _ _ H).
  by destruct (NDEBUG cfg), (DAI_DEBUG cfg).
Qed.

Lemma add2_step_in_range cfg g nbs i it row1 :
  _nb1 g !! it = Some row1 →
  add2_step cfg (g, nbs, i) it =
    Done (with_nb g (<[it := row1 ++ [mkNeighbor (length row1) (nr2 g) i]]> (_nb1 g)) (_nb2 g),
          nbs ++ [mkNeighbor i it (length row1)], S i).
Proof.
  intros H. unfold add2_step, nr1.
  by rewrite (ltb_lookup _ _ _ H), c_assert_true, (nb1_in_range cfg g it row1 H).
Qed.

Lemma add2_step_out_of_range cfg g nbs i it :
  nr1 g ≤ it →
  add2_step cfg (g, nbs, i) it = if NDEBUG cfg then Undefined else Aborted.
Proof.
  intros H. unfold add2_step, c_assert. rewrite (nb1_out_of_range cfg g it H).
  unfold nr1 in *. rewrite (ltb_ge _ _ H).
  by destruct (NDEBUG cfg), (DAI_DEBUG cfg).
Qed.

Lemma addEdge_unchecked_outcome cfg g n1 n2 :
  nr1 g ≤ n1 ∨ nr2 g ≤ n2 →
  addEdge cfg g n1 n2 false = if NDEBUG cfg then Undefined else Aborted.
Proof.
  intros H. destruct (NDEBUG cfg) eqn:E.
  - by apply addEdge_unchecked_out_of_range.
  - by apply addEdge_out_of_range.
Qed.

(** The loop of the ranged [add1], seen on the graph with the slot of the
    new node already there, is a loop of unchecked [addEdge]s. *)
Lemma add1_loop_as_addEdges cfg range g nbs :
  for_each (add1_step cfg) range (g, nbs, length nbs)
    ≫= (λ s, Done (pending1 s.1.1 s.1.2))
  = for_each (λ G it, addEdge cfg G (nr1 g) it false) range (pending1 g nbs).
Proof.
  revert g nbs. induction range as [|it range IH]; intros g nbs; [done|].
  cbn [for_each]. destruct (decide (it < nr2 g)) as [Hin|Hout].
  - destruct (lookup_lt_is_Some_2 _ _ Hin) as [row2 E2].
    rewrite (add1_step_in_range _ _ _ _ _ _ E2). simpl.
    rewrite (addEdge_in_range cfg (pending1 g nbs) (nr1 g) it false nbs row2);
      [|by apply list_lookup_middle|done]. simpl.
    set (g1 := with_nb g (_nb1 g) _). set (nbs1 := nbs ++ _).
    replace (S (length nbs)) with (length nbs1)
      by (unfold nbs1; rewrite length_app; simpl; lia).
    rewrite (IH g1 nbs1). f_equal.
    unfold edge_added, pending1, g1, nbs1, nr1. simpl.
    by rewrite <- (snoc_as_insert (_nb1 g) nbs).
  - rewrite add1_step_out_of_range by lia.
    rewrite addEdge_unchecked_outcome by (right; unfold nr2, pending1 in *; simpl; lia).
    by destruct (NDEBUG cfg).
Qed.

Lemma add2_loop_as_addEdges cfg range g nbs :
  for_each (add2_step cfg) range (g, nbs, length nbs)
    ≫= (λ s, Done (pending2 s.1.1 s.1.2))
  = for_each (λ G it, addEdge cfg G it (nr2 g) false) range (pending2 g nbs).
Proof.
  revert g nbs. induction range as [|it range IH]; intros g nbs; [done|].
  cbn [for_each]. destruct (decide (it < nr1 g)) as [Hin|Hout].
  - destruct (lookup_lt_is_Some_2 _ _ Hin) as [row1 E1].
    rewrite (add2_step_in_range _ _ _ _ _ _ E1). simpl.
    rewrite (addEdge_in_range cfg (pending2 g nbs) it (nr2 g) false row1 nbs);
      [|done|by apply list_lookup_middle]. simpl.
    set (g1 := with_nb g _ (_nb2 g)). set (nbs1 := nbs ++ _).
    replace (S (length nbs)) with (length nbs1)
      by (unfold nbs1; rewrite length_app; simpl; lia).
    rewrite (IH g1 nbs1). f_equal.
    unfold edge_added, pending2, g1, nbs1, nr2. simpl.
    by rewrite <- (snoc_as_insert (_nb2 g) nbs).
  - rewrite add2_step_out_of_range by lia.
    rewrite addEdge_unchecked_outcome by (left; unfold nr1, pending2 in *; simpl; lia).
    by destruct (NDEBUG cfg).
Qed.

(** X1: the ranged [add1] is [add1()] followed by one unchecked [addEdge]
    from the new node to every node of the range, in the order of the range;
    the two have the same outcome, a failure included, in every build.  The
    ranged [add2] is [add2()] followed by unchecked [addEdge]s in the same
    way. *)
Theorem ranged_add_is_add_then_addEdges cfg (g : BipartiteGraph) (range : list nat) :
  add1_range cfg g range
    = run cfg (Add1 :: ((λ it, AddEdge (nr1 g) it false) <$> range)) g ∧
  add2_range cfg g range
    = run cfg (Add2 :: ((λ it, AddEdge it (nr2 g) false) <$> range)) g.
Proof.
  split.
  - unfold run. simpl. rewrite for_each_fmap. simpl.
    change (with_nb g (_nb1 g ++ [[]]) (_nb2 g)) with (pending1 g []).
    rewrite <- add1_loop_as_addEdges. unfold add1_range. simpl.
    destruct (for_each (add1_step cfg) range (g, [], 0)) as [[[h l] i]| |]; done.
  - unfold run. simpl. rewrite for_each_fmap. simpl.
    change (with_nb g (_nb1 g) (_nb2 g ++ [[]])) with (pending2 g []).
    rewrite <- add2_loop_as_addEdges. unfold add2_range. simpl.
    destruct (for_each (add2_step cfg) range (g, [], 0)) as [[[h l] i]| |]; done.
Qed.

(** ** The ranged [add1] and [add2] on a range of valid ids *)

Lemma row_insert_prefix nbs a l ext b :
  nbs !! a = Some l →
  row nbs b `prefix_of` row (<[a := l ++ ext]> nbs) b ∧
  length (row (<[a := l ++ ext]> nbs) b)
    = length (row nbs b) + (if decide (b = a) then length ext else 0).
Proof.
  intros H. rewrite (row_insert _ _ _ _ _ H).
  destruct (decide (b = a)) as [->|]; [|split; [done|lia]].
  rewrite (row_lookup _ _ _ H), length_app. split; [by apply prefix_app_r|done].
Qed.

Lemma add1_loop_result cfg range g nbs i :
  Forall (λ it, it < nr2 g) range →
  ∃ g' nbs',
    for_each (add1_step cfg) range (g, nbs, i) = Done (g', nbs', i + length range) ∧
    _nb1 g' = _nb1 g ∧ length (_nb2 g') = length (_nb2 g) ∧
    names nbs' = names nbs ++ range ∧
    iter <$> nbs' = (iter <$> nbs) ++ seq i (length range) ∧
    (∀ b, row (_nb2 g) b `prefix_of` row (_nb2 g') b ∧
          length (row (_nb2 g') b)
            = length (row (_nb2 g) b) + length (filter (λ it, it = b) range)) ∧
    total_degree (_nb2 g') = total_degree (_nb2 g) + length range.
Proof.
  revert g nbs i. induction range as [|it range IH]; intros g nbs i Hin.
  - exists g, nbs. simpl. rewrite Nat.add_0_r, !app_nil_r.
    split_and!; try done; try lia.
  - apply Forall_cons in Hin as [Hit Hin]. cbn [for_each].
    destruct (lookup_lt_is_Some_2 _ _ Hit) as [row2 E2].
    rewrite (add1_step_in_range _ _ _ _ _ _ E2). simpl.
    set (g1 := with_nb g (_nb1 g) _). set (nbs1 := nbs ++ _).
    destruct (IH g1 nbs1 (S i)) as (g' & nbs' & Hrun & H1 & H2 & Hn & Hi & Hb & Ht).
    { unfold nr2, g1 in *. simpl. by rewrite length_insert. }
    exists g', nbs'. rewrite Hrun, H1, H2, Hn, Hi, Ht. unfold g1, nbs1, names. simpl.
    rewrite !fmap_app, <- !app_assoc, length_insert. simpl.
    split_and!; try done.
    + f_equal. f_equal. lia.
    + intros b. destruct (Hb b) as [Hp Hl].
      destruct (row_insert_prefix (_nb2 g) it row2
                  [mkNeighbor (length row2) (nr1 g) i] b E2) as [Hp1 Hl1].
      split; [by etrans|]. rewrite Hl. unfold g1. simpl. rewrite Hl1.
      rewrite filter_cons. destruct (decide (it = b)) as [->|Hne].
      * rewrite decide_True by done. simpl. lia.
      * rewrite decide_False by congruence. simpl. lia.
    + pose proof (total_degree_insert (_nb2 g) it row2
                    (row2 ++ [mkNeighbor (length row2) (nr1 g) i]) E2) as Hins.
      rewrite length_app in Hins. simpl in Hins. lia.
Qed.

(** X2: on a range of valid ids the ranged [add1] returns in every build.
    The new node gets the id [nr1()] had, its list names the nodes of the
    range in their order, repetitions kept (no duplicate check), with [iter]
    counting from 0.  Every list there was is kept as a prefix, the list of a
    node of type 2 grows by one record for each time the range names it, and
    [nrEdges()] grows by the length of the range.  The dual cross-reference
    is kept. *)
Theorem ranged_add1_result cfg (g : BipartiteGraph) (range : list nat) :
  Forall (λ it, it < nr2 g) range →
  ∃ g', add1_range cfg g range = Done g' ∧
    nr1 g' = S (nr1 g) ∧ nr2 g' = nr2 g ∧
    take (nr1 g) (_nb1 g') = _nb1 g ∧
    names (row (_nb1 g') (nr1 g)) = range ∧
    iter <$> row (_nb1 g') (nr1 g) = seq 0 (length range) ∧
    (∀ b, row (_nb2 g) b `prefix_of` row (_nb2 g') b ∧
          length (row (_nb2 g') b)
            = length (row (_nb2 g) b) + length (filter (λ it, it = b) range)) ∧
    nrEdges g' = nrEdges g + length range ∧
    (dual_inv g → dual_inv g').
Proof.
  intros Hin.
  destruct (add1_loop_result cfg range g [] 0 Hin)
    as (g' & nbs' & Hrun & H1 & H2 & Hn & Hi & Hb & Ht).
  assert (add1_range cfg g range = Done (pending1 g' nbs')) as Hadd.
  { unfold add1_range. by rewrite Hrun. }
  simpl in Hn, Hi.
  assert (row (_nb1 (pending1 g' nbs')) (nr1 g) = nbs') as Hrow.
  { unfold row, nr1, pending1. simpl. by rewrite H1, list_lookup_middle. }
  exists (pending1 g' nbs'). split; [done|]. rewrite Hrow.
  split. { unfold nr1, pending1. simpl. rewrite length_app, H1. simpl. lia. }
  split; [exact H2|].
  split. { unfold nr1. simpl. rewrite H1. apply take_app_length. }
  do 3 (split; [done|]).
  split; [|by eapply add1_range_dual_inv].
  rewrite !nrEdges_total. simpl. rewrite H1, total_degree_app, total_degree_cons.
  apply (f_equal length) in Hn. unfold names in Hn. rewrite length_fmap in Hn.
  change (total_degree []) with 0. lia.
Qed.

Lemma ranged_add1_result_witness :
  ∃ g', add1_range release example_graph [1; 1; 0] = Done g' ∧
        nr1 g' = 4 ∧ names (row (_nb1 g') 3) = [1; 1; 0] ∧
        length (row (_nb2 g') 1) = 4 ∧ nrEdges g' = 8.
Proof.
  destruct (ranged_add1_result release example_graph [1; 1; 0])
    as (g' & Ha & N1 & _ & _ & Hn & _ & Hb & He & _).
  - repeat constructor; unfold nr2; simpl; lia.
  - exists g'. split; [exact Ha|]. split; [exact N1|]. split; [exact Hn|].
    split; [apply Hb|exact He].
Defined.

Lemma add2_loop_result cfg range g nbs i :
  Forall (λ it, it < nr1 g) range →
  ∃ g' nbs',
    for_each (add2_step cfg) range (g, nbs, i) = Done (g', nbs', i + length range) ∧
    _nb2 g' = _nb2 g ∧ length (_nb1 g') = length (_nb1 g) ∧
    names nbs' = names nbs ++ range ∧
    iter <$> nbs' = (iter <$> nbs) ++ seq i (length range) ∧
    (∀ a, row (_nb1 g) a `prefix_of` row (_nb1 g') a ∧
          length (row (_nb1 g') a)
            = length (row (_nb1 g) a) + length (filter (λ it, it = a) range)) ∧
    total_degree (_nb1 g') = total_degree (_nb1 g) + length range.
Proof.
  revert g nbs i. induction range as [|it range IH]; intros g nbs i Hin.
  - exists g, nbs. simpl. rewrite Nat.add_0_r, !app_nil_r.
    split_and!; try done; try lia.
  - apply Forall_cons in Hin as [Hit Hin]. cbn [for_each].
    destruct (lookup_lt_is_Some_2 _ _ Hit) as [row1 E1].
    rewrite (add2_step_in_range _ _ _ _ _ _ E1). simpl.
    set (g1 := with_nb g _ (_nb2 g)). set (nbs1 := nbs ++ _).
    destruct (IH g1 nbs1 (S i)) as (g' & nbs' & Hrun & H1 & H2 & Hn & Hi & Hb & Ht).
    { unfold nr1, g1 in *. simpl. by rewrite length_insert. }
    exists g', nbs'. rewrite Hrun, H1, H2, Hn, Hi, Ht. unfold g1, nbs1, names. simpl.
    rewrite !fmap_app, <- !app_assoc, length_insert. simpl.
    split_and!; try done.
    + f_equal. f_equal. lia.
    + intros a. destruct (Hb a) as [Hp Hl].
      destruct (row_insert_prefix (_nb1 g) it row1
                  [mkNeighbor (length row1) (nr2 g) i] a E1) as [Hp1 Hl1].
      split; [by etrans|]. rewrite Hl. unfold g1. simpl. rewrite Hl1.
      rewrite filter_cons. destruct (decide (it = a)) as [->|Hne].
      * rewrite decide_True by done. simpl. lia.
      * rewrite decide_False by congruence. simpl. lia.
    + pose proof (total_degree_insert (_nb1 g) it row1
                    (row1 ++ [mkNeighbor (length row1) (nr2 g) i]) E1) as Hins.
      rewrite length_app in Hins. simpl in Hins. lia.
Qed.

(** X3: the ranged [add2] on a range of valid ids, the mirror image of the
    ranged [add1]: it returns in every build, the new node of type 2 has the
    id [nr2()] had and a list that names the range in order with [iter]
    counting from 0, every list there was is kept as a prefix, the list of a
    node of type 1 grows by one record for each time the range names it,
    [nrEdges()] grows by the length of the range and the dual
    cross-reference is kept. *)
Theorem ranged_add2_result cfg (g : BipartiteGraph) (range : list nat) :
  Forall (λ it, it < nr1 g) range →
  ∃ g', add2_range cfg g range = Done g' ∧
    nr2 g' = S (nr2 g) ∧ nr1 g' = nr1 g ∧
    take (nr2 g) (_nb2 g') = _nb2 g ∧
    names (row (_nb2 g') (nr2 g)) = range ∧
    iter <$> row (_nb2 g') (nr2 g) = seq 0 (length range) ∧
    (∀ a, row (_nb1 g) a `prefix_of` row (_nb1 g') a ∧
          length (row (_nb1 g') a)
            = length (row (_nb1 g) a) + length (filter (λ it, it = a) range)) ∧
    nrEdges g' = nrEdges g + length range ∧
    (dual_inv g → dual_inv g').
Proof.
  intros Hin.
  destruct (add2_loop_result cfg range g [] 0 Hin)
    as (g' & nbs' & Hrun & H1 & H2 & Hn & Hi & Hb & Ht).
  assert (add2_range cfg g range = Done (pending2 g' nbs')) as Hadd.
  { unfold add2_range. by rewrite Hrun. }
  simpl in Hn, Hi.
  assert (row (_nb2 (pending2 g' nbs')) (nr2 g) = nbs') as Hrow.
  { unfold row, nr2, pending2. simpl. by rewrite H1, list_lookup_middle. }
  exists (pending2 g' nbs'). split; [done|]. rewrite Hrow.
  split. { unfold nr2, pending2. simpl. rewrite length_app, H1. simpl. lia. }
  split; [exact H2|].
  split. { unfold nr2. simpl. rewrite H1. apply take_app_length. }
  do 3 (split; [done|]).
  split; [|by eapply add2_range_dual_inv].
  rewrite !nrEdges_total. simpl. exact Ht.
Qed.

Lemma ranged_add2_result_witness :
  ∃ g', add2_range debug example_graph [2; 0] = Done g' ∧
        nr2 g' = 3 ∧ names (row (_nb2 g') 2) = [2; 0] ∧
        length (row (_nb1 g') 0) = 2 ∧ nrEdges g' = 7.
Proof.
  destruct (ranged_add2_result debug example_graph [2; 0])
    as (g' & Ha & N2 & _ & _ & Hn & _ & Hb & He & _).
  - repeat constructor; unfold nr1; simpl; lia.
  - exists g'. split; [exact Ha|]. split; [exact N2|]. split; [exact Hn|].
    split; [apply Hb|exact He].
Defined.

(** ** The ranged [add1] and [add2] on an id that is out of range *)

Lemma for_each_fails {S X} (body : S → X → outcome S) (P : S → Prop)
    (bad : X → Prop) `{∀ x, Decision (bad x)} (o : outcome S) xs s :
  (∀ s x, P s → ¬ bad x → ∃ s', body s x = Done s' ∧ P s') →
  (∀ s x, P s → bad x → body s x = o) →
  (∀ s', o ≠ Done s') →
  P s → Exists bad xs → for_each body xs s = o.
Proof.
  intros Hgood Hbad Ho. revert s. induction xs as [|x xs IH]; intros s HP Hex.
  - by apply Exists_nil in Hex.
  - simpl. destruct (decide (bad x)) as [Hx|Hx].
    + rewrite (Hbad s x HP Hx). destruct o; [by destruct (Ho a)|done|done].
    + destruct (Hgood s x HP Hx) as (s' & -> & HP'). simpl.
      apply Exists_cons in Hex as [?|Hex]; [done|]. by apply IH.
Qed.

(** X4: a ranged [add1] whose range holds an id that is not below [nr2()]
    (a ranged [add2]: not below [nr1()]) has no defined result.  When NDEBUG
    is not defined the [assert] in the loop stops the program; with NDEBUG
    nothing checks the id and it reaches the unchecked subscript of the
    accessor, which is undefined behaviour, with and without DAI_DEBUG. *)
Theorem ranged_add_out_of_range cfg (g : BipartiteGraph) (range : list nat) :
  (Exists (λ it, nr2 g ≤ it) range →
   add1_range cfg g range = if NDEBUG cfg then Undefined else Aborted) ∧
  (Exists (λ it, nr1 g ≤ it) range →
   add2_range cfg g range = if NDEBUG cfg then Undefined else Aborted).
Proof.
  split; intros Hex.
  - assert (for_each (add1_step cfg) range (g, [], 0)
            = if NDEBUG cfg then Undefined else Aborted) as Hloop.
    { apply (for_each_fails (add1_step cfg) (λ s, nr2 s.1.1 = nr2 g)
               (λ it, nr2 g ≤ it)); [| |by destruct (NDEBUG cfg)|done|done].
      - intros [[h l] i] it Hs Hit. simpl in Hs.
        assert (it < nr2 h) as Hlt by lia.
        destruct (lookup_lt_is_Some_2 _ _ Hlt) as [row2 E2].
        rewrite (add1_step_in_range _ _ _ _ _ _ E2). eexists. split; [done|].
        unfold nr2 in *. simpl. by rewrite length_insert.
      - intros [[h l] i] it Hs Hit. simpl in Hs.
        apply add1_step_out_of_range. lia. }
    unfold add1_range. rewrite Hloop. by destruct (NDEBUG cfg).
  - assert (for_each (add2_step cfg) range (g, [], 0)
            = if NDEBUG cfg then Undefined else Aborted) as Hloop.
    { apply (for_each_fails (add2_step cfg) (λ s, nr1 s.1.1 = nr1 g)
               (λ it, nr1 g ≤ it)); [| |by destruct (NDEBUG cfg)|done|done].
      - intros [[h l] i] it Hs Hit. simpl in Hs.
        assert (it < nr1 h) as Hlt by lia.
        destruct (lookup_lt_is_Some_2 _ _ Hlt) as [row1 E1].
        rewrite (add2_step_in_range _ _ _ _ _ _ E1). eexists. split; [done|].
        unfold nr1 in *. simpl. by rewrite length_insert.
      - intros [[h l] i] it Hs Hit. simpl in Hs.
        apply add2_step_out_of_range. lia. }
    unfold add2_range. rewrite Hloop. by destruct (NDEBUG cfg).
Qed.

Lemma ranged_add_out_of_range_witness :
  add1_range release example_graph [0; 2] = Aborted ∧
  add2_range ndebug example_graph [3] = Undefined.
Proof.
  destruct (ranged_add_out_of_range release example_graph [0; 2]) as [A _].
  destruct (ranged_add_out_of_range ndebug example_graph [3]) as [_ B].
  split.
  - apply A. apply Exists_cons. right. apply Exists_cons. left.
    unfold nr2. simpl. lia.
  - apply B. apply Exists_cons. left. unfold nr1. simpl. lia.
Defined.

(** ** [addEdge] on valid ids *)

Lemma has_neighbor_app n l1 l2 :
  has_neighbor n (l1 ++ l2) = has_neighbor n l1 || has_neighbor n l2.
Proof. unfold has_neighbor. apply existsb_app. Qed.

Lemma has_edge_edge_added g n1 n2 row1 row2 :
  _nb1 g !! n1 = Some row1 →
  has_edge (edge_added g n1 n2 row1 row2) (n1, n2) = true.
Proof.
  intros E1. unfold has_edge. simpl.
  rewrite (row_insert _ _ _ _ _ E1), decide_True by done.
  rewrite has_neighbor_app. simpl. rewrite Nat.eqb_refl. by rewrite orb_true_r.
Qed.

(** X5: a checked [addEdge] on valid ids returns in every build; afterwards
    the edge is there, and a second checked [addEdge] of the same edge
    returns the graph as it is.  On a graph that has the edge already the
    first call changes nothing either. *)
Theorem addEdge_checked_idempotent cfg (g : BipartiteGraph) (n1 n2 : nat) :
  n1 < nr1 g → n2 < nr2 g →
  ∃ g1, addEdge cfg g n1 n2 true = Done g1 ∧
        has_edge g1 (n1, n2) = true ∧
        addEdge cfg g1 n1 n2 true = Done g1 ∧
        nrEdges g1 = nrEdges g + (if has_edge g (n1, n2) then 0 else 1) ∧
        (has_edge g (n1, n2) = true → g1 = g).
Proof.
  unfold nr1, nr2. intros H1 H2.
  destruct (lookup_lt_is_Some_2 _ _ H1) as [row1 E1].
  destruct (lookup_lt_is_Some_2 _ _ H2) as [row2 E2].
  assert (∀ h r1 r2, _nb1 h !! n1 = Some r1 → _nb2 h !! n2 = Some r2 →
            has_edge h (n1, n2) = true → addEdge cfg h n1 n2 true = Done h) as Hnoop.
  { intros h r1 r2 L1 L2 He. rewrite (addEdge_in_range cfg h n1 n2 true r1 r2 L1 L2).
    unfold has_edge in He. simpl in He. rewrite (row_lookup _ _ _ L1) in He.
    by rewrite He. }
  destruct (has_edge g (n1, n2)) eqn:He.
  - exists g. rewrite (Hnoop g row1 row2 E1 E2 He). split_and!; try done; lia.
  - exists (edge_added g n1 n2 row1 row2).
    rewrite (addEdge_in_range cfg g n1 n2 true row1 row2 E1 E2).
    unfold has_edge in He. simpl in He. rewrite (row_lookup _ _ _ E1) in He.
    rewrite He. simpl.
    pose proof (has_edge_edge_added g n1 n2 row1 row2 E1) as Hnew.
    split_and!; try done.
    + eapply Hnoop; [| |done]; simpl.
      * rewrite list_lookup_insert_eq; [done|by eapply lookup_lt_Some].
      * rewrite list_lookup_insert_eq; [done|by eapply lookup_lt_Some].
    + rewrite (edge_added_nrEdges _ _ _ _ _ E1). lia.
Qed.

Lemma addEdge_checked_idempotent_witness :
  ∃ g1, addEdge release example_graph 0 1 true = Done g1 ∧
        addEdge release g1 0 1 true = Done g1 ∧ nrEdges g1 = 6.
Proof.
  destruct (addEdge_checked_idempotent release example_graph 0 1)
    as (g1 & Ha & _ & Hb & Hn & _).
  - unfold nr1. simpl. lia.
  - unfold nr2. simpl. lia.
  - exists g1. split; [exact Ha|]. split; [exact Hb|exact Hn].
Defined.

(** X6: [addEdge] on valid ids only appends.  The numbers of nodes and the
    members of the compatibility layer are as before, the list of every
    node other than [n1] (type 1) and [n2] (type 2) is as before, and the
    lists of [n1] and [n2] are the old lists, followed, unless the call was
    checked and the edge was there, by one record each: [{size1, n2, size2}]
    and [{size2, n1, size1}], which point at each other. *)
Theorem addEdge_appends cfg (g : BipartiteGraph) (n1 n2 : nat) (check : bool) :
  n1 < nr1 g → n2 < nr2 g →
  ∃ g', addEdge cfg g n1 n2 check = Done g' ∧
    nr1 g' = nr1 g ∧ nr2 g' = nr2 g ∧ legacy g' = legacy g ∧
    (∀ a, a ≠ n1 → _nb1 g' !! a = _nb1 g !! a) ∧
    (∀ b, b ≠ n2 → _nb2 g' !! b = _nb2 g !! b) ∧
    row (_nb1 g') n1 =
      row (_nb1 g) n1 ++
        (if check && has_edge g (n1, n2) then []
         else [mkNeighbor (degree1 g n1) n2 (degree2 g n2)]) ∧
    row (_nb2 g') n2 =
      row (_nb2 g) n2 ++
        (if check && has_edge g (n1, n2) then []
         else [mkNeighbor (degree2 g n2) n1 (degree1 g n1)]).
Proof.
  unfold nr1, nr2. intros H1 H2.
  destruct (lookup_lt_is_Some_2 _ _ H1) as [row1 E1].
  destruct (lookup_lt_is_Some_2 _ _ H2) as [row2 E2].
  eexists. split; [by apply (addEdge_in_range cfg g n1 n2 check row1 row2)|].
  unfold has_edge, degree1, degree2. simpl.
  rewrite (row_lookup _ _ _ E1), (row_lookup _ _ _ E2).
  destruct (check && has_neighbor n2 row1).
  - rewrite (row_lookup _ _ _ E1), (row_lookup _ _ _ E2), !app_nil_r. done.
  - simpl. rewrite !length_insert.
    rewrite (row_insert _ _ _ _ _ E1), (row_insert _ _ _ _ _ E2), !decide_True by done.
    split_and!; try done.
    + intros a Ha. by rewrite list_lookup_insert_ne.
    + intros b Hb. by rewrite list_lookup_insert_ne.
Qed.

Lemma addEdge_appends_witness :
  ∃ g', addEdge ndebug example_graph 0 1 false = Done g' ∧
        row (_nb1 g') 0 = [mkNeighbor 0 0 0; mkNeighbor 1 1 2] ∧
        row (_nb2 g') 1 = [mkNeighbor 0 1 1; mkNeighbor 1 2 1; mkNeighbor 2 0 1] ∧
        _nb1 g' !! 2 = _nb1 example_graph !! 2.
Proof.
  destruct (addEdge_appends ndebug example_graph 0 1 false)
    as (g' & Ha & _ & _ & _ & F1 & _ & R1 & R2).
  - unfold nr1. simpl. lia.
  - unfold nr2. simpl. lia.
  - exists g'. split; [exact Ha|]. split; [exact R1|]. split; [exact R2|].
    apply F1. lia.
Defined.

(** ** [eraseEdge] on valid ids *)

Lemma erase_first_length n l :
  length (erase_first n l) + (if has_neighbor n l then 1 else 0) = length l.
Proof.
  induction l as [|r l IH]; simpl; [done|].
  destruct (node r =? n); simpl; lia.
Qed.

Lemma eraseEdge_absent cfg g n1 n2 row1 row2 :
  _nb1 g !! n1 = Some row1 → _nb2 g !! n2 = Some row2 →
  has_neighbor n2 row1 = false → has_neighbor n1 row2 = false →
  eraseEdge cfg g n1 n2 = Done g.
Proof.
  intros E1 E2 A1 A2. rewrite (eraseEdge_in_range cfg g n1 n2 row1 row2 E1 E2).
  rewrite !erase_first_absent, !list_insert_id by done. by destruct g.
Qed.

(** X7: on a graph whose two tables agree (each edge recorded as often at
    its type-1 end as at its type-2 end), [eraseEdge] on valid ids returns in
    every build and leaves the tables in agreement.  An edge that is not
    there is erased silently: the graph is returned as it is.  Otherwise
    one record goes from each of the two lists: both degrees and [nrEdges()]
    fall by one, and an edge recorded several times is still there. *)
Theorem eraseEdge_removes_one cfg (g : BipartiteGraph) (n1 n2 : nat) :
  sym (_nb1 g) (_nb2 g) → n1 < nr1 g → n2 < nr2 g →
  ∃ g', eraseEdge cfg g n1 n2 = Done g' ∧
    sym (_nb1 g') (_nb2 g') ∧
    (has_edge g (n1, n2) = false → g' = g) ∧
    (has_edge g (n1, n2) = true →
       S (degree1 g' n1) = degree1 g n1 ∧ S (degree2 g' n2) = degree2 g n2 ∧
       S (nrEdges g') = nrEdges g ∧
       S (count_node n2 (row (_nb1 g') n1)) = count_node n2 (row (_nb1 g) n1) ∧
       has_edge g' (n1, n2) = (1 <? count_node n2 (row (_nb1 g) n1))).
Proof.
  unfold nr1, nr2. intros Hsym H1 H2.
  destruct (lookup_lt_is_Some_2 _ _ H1) as [row1 E1].
  destruct (lookup_lt_is_Some_2 _ _ H2) as [row2 E2].
  pose proof (Hsym n1 n2) as Hcount.
  rewrite (row_lookup _ _ _ E1), (row_lookup _ _ _ E2) in Hcount.
  eexists. split; [by apply (eraseEdge_in_range cfg g n1 n2 row1 row2)|].
  split; [simpl; by apply sym_erase|].
  unfold has_edge, degree1, degree2. simpl. rewrite (row_lookup _ _ _ E1).
  split.
  - intros A1. assert (has_neighbor n1 row2 = false) as A2.
    { apply count_node_zero. rewrite <- Hcount. by apply count_node_zero. }
    rewrite !erase_first_absent, !list_insert_id by done. by destruct g.
  - intros P1. assert (has_neighbor n1 row2 = true) as P2.
    { apply count_node_pos. rewrite <- Hcount. by apply count_node_pos. }
    rewrite (row_insert _ _ _ _ _ E1), (row_insert _ _ _ _ _ E2), !decide_True by done.
    rewrite (row_lookup _ _ _ E2).
    pose proof (erase_first_length n2 row1) as L1.
    pose proof (erase_first_length n1 row2) as L2.
    rewrite P1 in L1. rewrite P2 in L2.
    pose proof (total_degree_insert (_nb1 g) n1 row1 (erase_first n2 row1) E1) as T.
    rewrite !nrEdges_total. simpl.
    rewrite count_node_erase_first, decide_True by done.
    apply count_node_pos in P1.
    split_and!; try lia.
    destruct (has_neighbor n2 (erase_first n2 row1)) eqn:Hh.
    + apply count_node_pos in Hh.
      rewrite count_node_erase_first, decide_True in Hh by done.
      symmetry. apply Nat.ltb_lt. lia.
    + apply count_node_zero in Hh.
      rewrite count_node_erase_first, decide_True in Hh by done.
      symmetry. apply Nat.ltb_ge. lia.
Qed.

Lemma eraseEdge_removes_one_witness :
  ∃ g', eraseEdge release example_graph 1 0 = Done g' ∧
        S (nrEdges g') = 5 ∧ has_edge g' (1, 0) = false.
Proof.
  destruct (eraseEdge_removes_one release example_graph 1 0)
    as (g' & He & _ & _ & Hp).
  - apply (construct_sym release empty_graph 3 2 example_edges). reflexivity.
  - unfold nr1. simpl. lia.
  - unfold nr2. simpl. lia.
  - destruct (Hp eq_refl) as (_ & _ & Hn & _ & Hh).
    exists g'. split; [exact He|]. split; [exact Hn|exact Hh].
Defined.

(** Under the cross-reference the two records of an edge that sits last in
    both lists point at each other. *)
Lemma last_records_paired own other a b la ra lb rb :
  dual_ok own other →
  row own a = la ++ [ra] → node ra = b →
  row other b = lb ++ [rb] → has_neighbor a lb = false →
  dual ra = length lb.
Proof.
  intros Hok Ha Hra Hb Hlb.
  destruct (Hok a (length la) ra) as (_ & r' & Hr' & Hn & _).
  { rewrite Ha. by apply list_lookup_middle. }
  rewrite Hra, Hb in Hr'. apply lookup_app_Some in Hr' as [Hr'|[Hge Hr']].
  - rewrite has_neighbor_false in Hlb. by destruct (Hlb _ _ Hr').
  - apply list_lookup_singleton_Some in Hr' as [Hz _]. lia.
Qed.

Lemma dual_ok_drop_last own other a b la ra lb rb :
  own !! a = Some (la ++ [ra]) → other !! b = Some (lb ++ [rb]) →
  node rb = a → dual rb = length la →
  dual_ok own other →
  dual_ok (<[a := la]> own) (<[b := lb]> other).
Proof.
  intros Ha Hb Hnb Hdb Hok a' p r Hr.
  assert (row own a' !! p = Some r ∧ (a' = a → p < length la)) as [Hr0 Hp].
  { rewrite (row_insert _ _ _ _ _ Ha) in Hr. destruct (decide (a' = a)) as [->|].
    - rewrite (row_lookup _ _ _ Ha). split; [by apply lookup_app_l_Some|].
      intros _. by eapply lookup_lt_Some.
    - done. }
  destruct (Hok a' p r Hr0) as (Hi & r' & Hr' & Hn & Hd).
  split; [done|]. exists r'. split; [|done].
  rewrite (row_insert _ _ _ _ _ Hb). destruct (decide (node r = b)) as [E|]; [|done].
  rewrite E, (row_lookup _ _ _ Hb) in Hr'.
  apply lookup_app_Some in Hr' as [Hr'|[Hge Hr']]; [done|].
  apply list_lookup_singleton_Some in Hr' as [_ <-].
  rewrite Hnb in Hn. rewrite Hdb in Hd. specialize (Hp (eq_sym Hn)). lia.
Qed.

Lemma erases_last_erase n l :
  erases_last n l → ∃ l' r, l = l' ++ [r] ∧ erase_first n l = l'.
Proof.
  intros (l' & r & -> & Hr & Hl'). exists l', r. split; [done|].
  by apply erase_first_last.
Qed.

(** A record that moves to the front keeps its [iter], which then is wrong. *)
Lemma stale_after_erase own other other' a n l :
  dual_ok own other → own !! a = Some l → has_neighbor n l = true →
  dual_ok (<[a := erase_first n l]> own) other' →
  erases_last n l.
Proof.
  intros Hok Ha Hhas Hok'.
  destruct (erase_first_spec n l)
    as [[Habs _]|(l1 & r & l2 & Hl & Hr & Hl1 & He)]; [congruence|].
  destruct l2 as [|x l2]; [by exists l1, r|]. exfalso.
  destruct (Hok a (S (length l1)) x) as [Hi _].
  { rewrite (row_lookup _ _ _ Ha), Hl. rewrite lookup_app_r by lia.
    by replace (S (length l1) - length l1) with 1 by lia. }
  destruct (Hok' a (length l1) x) as [Hi' _]; [|lia].
  rewrite (row_insert _ _ _ _ _ Ha), decide_True by done.
  rewrite He. by apply list_lookup_middle.
Qed.

(** X8: when [eraseEdge] is safe.  On a graph that satisfies the dual
    cross-reference, [eraseEdge] on valid ids leaves a graph that satisfies
    it if and only if the edge is not there or the record erased is the last
    one in the list of [n1] and in the list of [n2]: the function does not
    renumber the records behind an erased one. *)
Theorem eraseEdge_keeps_invariant_iff cfg (g : BipartiteGraph) (n1 n2 : nat) :
  dual_inv g → n1 < nr1 g → n2 < nr2 g →
  ∃ g', eraseEdge cfg g n1 n2 = Done g' ∧
    (dual_inv g' ↔
       has_edge g (n1, n2) = false ∨
       (erases_last n2 (row (_nb1 g) n1) ∧ erases_last n1 (row (_nb2 g) n2))).
Proof.
  unfold nr1, nr2. intros [Hok1 Hok2] H1 H2.
  destruct (lookup_lt_is_Some_2 _ _ H1) as [row1 E1].
  destruct (lookup_lt_is_Some_2 _ _ H2) as [row2 E2].
  eexists. split; [by apply (eraseEdge_in_range cfg g n1 n2 row1 row2)|].
  unfold has_edge, dual_inv. simpl.
  pose proof (row_lookup _ _ _ E1) as R1. pose proof (row_lookup _ _ _ E2) as R2.
  destruct (has_neighbor n2 row1) eqn:P1.
  - assert (has_neighbor n1 row2 = true) as P2.
    { destruct (has_neighbor n1 row2) eqn:A2; [done|].
      rewrite <- R2 in A2. rewrite <- R1 in P1.
      by rewrite (absent_on_both_sides _ _ _ _ Hok1 A2) in P1. }
    rewrite R1, R2. split.
    + intros [Hok1' Hok2']. right. split.
      * by eapply (stale_after_erase (_nb1 g) (_nb2 g)).
      * by eapply (stale_after_erase (_nb2 g) (_nb1 g)).
    + intros [?|[L1 L2]]; [congruence|].
      destruct L1 as (l1 & r1 & -> & Hr1 & Hl1).
      destruct L2 as (l2 & r2 & -> & Hr2 & Hl2).
      rewrite !erase_first_last by done.
      pose proof (last_records_paired _ _ n1 n2 l1 r1 l2 r2 Hok1 R1 Hr1 R2 Hl2) as D1.
      pose proof (last_records_paired _ _ n2 n1 l2 r2 l1 r1 Hok2 R2 Hr2 R1 Hl1) as D2.
      split; by eapply dual_ok_drop_last.
  - assert (has_neighbor n1 row2 = false) as A2.
    { rewrite <- R2. apply (absent_on_both_sides _ _ _ _ Hok2). by rewrite R1. }
    rewrite !erase_first_absent, !list_insert_id by done.
    rewrite R1. split; [by left|done].
Qed.

Lemma eraseEdge_keeps_invariant_iff_witness :
  ∃ g', eraseEdge release example_graph 2 1 = Done g' ∧ dual_inv g'.
Proof.
  destruct (eraseEdge_keeps_invariant_iff release example_graph 2 1)
    as (g' & He & Hiff).
  - exact example_graph_dual_inv.
  - unfold nr1. simpl. lia.
  - unfold nr2. simpl. lia.
  - exists g'. split; [exact He|]. apply Hiff. right. split.
    + exists [mkNeighbor 0 0 2], (mkNeighbor 1 1 1). by repeat split.
    + exists [mkNeighbor 0 1 1], (mkNeighbor 1 2 1). by repeat split.
Defined.

(** ** The accessors on a graph built by insertions *)

Lemma row_lookup_Some nbs a p r :
  row nbs a !! p = Some r → ∃ l, nbs !! a = Some l ∧ l !! p = Some r.
Proof. unfold row. destruct (nbs !! a) as [l|]; [by exists l|done]. Qed.

Lemma nb1_at_in_range cfg g i p l r :
  _nb1 g !! i = Some l → l !! p = Some r → nb1_at cfg g i p = Done r.
Proof.
  intros Hl Hr. unfold nb1_at.
  rewrite (ltb_lookup _ _ _ Hl), debug_assert_true, (subscript_Some _ _ _ Hl). simpl.
  by rewrite (ltb_lookup _ _ _ Hr), debug_assert_true, (subscript_Some _ _ _ Hr).
Qed.

Lemma nb2_at_in_range cfg g i p l r :
  _nb2 g !! i = Some l → l !! p = Some r → nb2_at cfg g i p = Done r.
Proof.
  intros Hl Hr. unfold nb2_at.
  rewrite (ltb_lookup _ _ _ Hl), debug_assert_true, (subscript_Some _ _ _ Hl). simpl.
  by rewrite (ltb_lookup _ _ _ Hr), debug_assert_true, (subscript_Some _ _ _ Hr).
Qed.

(** X9: what the documentation of [Neighbor] promises holds on every graph
    that the constructors and the inserting member functions ([construct],
    [add1], [add2], [addEdge], [indexEdges]) build, in every build: for a
    position [p] in the list of node [i] of type 1, [n = nb1(i,p)] returns
    with [n.iter == p], and [nb2(n.node, n.dual)] returns, without a failed
    assertion, the record with [node == i], [dual == p] and [iter == n.dual];
    likewise with the two types exchanged. *)
Theorem documented_cross_reference cfg cs (g : BipartiteGraph) :
  forallb insertion cs = true → run cfg cs empty_graph = Done g →
  (∀ i p, p < degree1 g i →
     ∃ n n', nb1_at cfg g i p = Done n ∧ iter n = p ∧
             nb2_at cfg g (node n) (dual n) = Done n' ∧
             node n' = i ∧ dual n' = p ∧ iter n' = dual n) ∧
  (∀ i p, p < degree2 g i →
     ∃ n n', nb2_at cfg g i p = Done n ∧ iter n = p ∧
             nb1_at cfg g (node n) (dual n) = Done n' ∧
             node n' = i ∧ dual n' = p ∧ iter n' = dual n).
Proof.
  intros Hins Hrun.
  destruct (insertions_keep_dual_inv cfg cs g Hins Hrun) as [Hok1 Hok2].
  split; intros i p Hp.
  - destruct (lookup_lt_is_Some_2 _ _ Hp) as [n Hn].
    destruct (Hok1 i p n Hn) as (Hi & n' & Hn' & Hnode & Hdual).
    destruct (Hok2 _ _ n' Hn') as (Hi' & _).
    apply row_lookup_Some in Hn as (l & Hl & Hlp).
    apply row_lookup_Some in Hn' as (l' & Hl' & Hlp').
    exists n, n'. split; [by eapply nb1_at_in_range|]. split; [done|].
    split; [by eapply nb2_at_in_range|done].
  - destruct (lookup_lt_is_Some_2 _ _ Hp) as [n Hn].
    destruct (Hok2 i p n Hn) as (Hi & n' & Hn' & Hnode & Hdual).
    destruct (Hok1 _ _ n' Hn') as (Hi' & _).
    apply row_lookup_Some in Hn as (l & Hl & Hlp).
    apply row_lookup_Some in Hn' as (l' & Hl' & Hlp').
    exists n, n'. split; [by eapply nb2_at_in_range|]. split; [done|].
    split; [by eapply nb1_at_in_range|done].
Qed.

Lemma documented_cross_reference_witness :
  ∃ n n', nb1_at debug example_graph 2 1 = Done n ∧ iter n = 1 ∧
          nb2_at debug example_graph (node n) (dual n) = Done n' ∧
          node n' = 2 ∧ dual n' = 1 ∧ iter n' = dual n.
Proof.
  destruct (documented_cross_reference debug [Construct 3 2 example_edges]
              example_graph) as [A _].
  - reflexivity.
  - reflexivity.
  - apply (A 2 1). unfold degree1. simpl. lia.
Defined.

(** ** The edge index built by [indexEdges] *)

Lemma listed_from_cons k l nbs :
  listed_from k (l :: nbs) = map (λ r : Neighbor, (k, node r)) l ++ listed_from (S k) nbs.
Proof.
  unfold listed_from. simpl. rewrite Nat.add_0_r. f_equal. f_equal.
  apply imap_ext. intros i x _. simpl. apply map_ext. intros r.
  by rewrite Nat.add_succ_r.
Qed.

Lemma listed_edges_from nbs : listed_edges nbs = listed_from 0 nbs.
Proof. reflexivity. Qed.

Lemma listed_from_length k nbs : length (listed_from k nbs) = total_degree nbs.
Proof.
  revert k. induction nbs as [|l nbs IH]; intros k; [done|].
  by rewrite listed_from_cons, length_app, length_map, IH, total_degree_cons.
Qed.

Lemma elem_of_listed_from k nbs a b :
  (a, b) ∈ listed_from k nbs ↔ k ≤ a ∧ has_neighbor b (row nbs (a - k)) = true.
Proof.
  revert k. induction nbs as [|l nbs IH]; intros k.
  - rewrite row_ge by (simpl; lia). unfold listed_from. simpl.
    rewrite elem_of_nil. split; [done|]. by intros [_ ?].
  - rewrite listed_from_cons, elem_of_app, IH, list_elem_of_In, in_map_iff.
    split.
    + intros [(r & Hr & Hin)|[Hk Hh]].
      * injection Hr as <- <-. split; [done|]. rewrite Nat.sub_diag.
        apply has_neighbor_true. apply list_elem_of_In, list_elem_of_lookup in Hin
          as [p Hp]. by exists p, r.
      * split; [lia|]. by replace (a - k) with (S (a - S k)) by lia.
    + intros [Hk Hh]. destruct (decide (a = k)) as [->|Hne].
      * left. rewrite Nat.sub_diag in Hh.
        apply has_neighbor_true in Hh as (p & r & Hp & <-).
        exists r. split; [done|]. apply list_elem_of_In, list_elem_of_lookup. eauto.
      * right. split; [lia|]. by replace (a - k) with (S (a - S k)) in Hh by lia.
Qed.

Lemma elem_of_listed_edges nbs e :
  e ∈ listed_edges nbs ↔ has_neighbor e.2 (row nbs e.1) = true.
Proof.
  destruct e as [a b]. rewrite listed_edges_from, elem_of_listed_from. simpl.
  rewrite Nat.sub_0_r. split; [by intros [_ ?]|]. intros H. split; [lia|done].
Qed.

(** The map that the numbering loop leaves: an edge of the list is mapped to
    the position of its last occurrence, any other key is as before. *)
Lemma number_from_lookup es m i e k :
  (number_from es (m, i)).1 !! e = Some k ↔
    (∃ j, es !! j = Some e ∧ k = i + j ∧ ∀ j', j < j' → es !! j' ≠ Some e) ∨
    ((e ∉ es) ∧ m !! e = Some k).
Proof.
  revert m i. induction es as [|x es IH]; intros m i.
  - simpl. split.
    + intros H. right. split; [apply not_elem_of_nil|done].
    + intros [(j & Hj & _)|[_ H]]; [by rewrite lookup_nil in Hj|done].
  - change (number_from (x :: es) (m, i)) with (number_from es (<[x := i]> m, S i)).
    rewrite IH. split.
    + intros [(j & Hj & -> & Hlast)|[Hnin Hm]].
      * left. exists (S j). split; [done|]. split; [lia|].
        intros [|j'] Hj'; [lia|]. simpl. apply Hlast. lia.
      * destruct (decide (x = e)) as [->|Hne].
        -- rewrite lookup_insert_eq in Hm. injection Hm as <-.
           left. exists 0. split; [done|]. split; [lia|].
           intros [|j'] Hj'; [lia|]. simpl. intros Hin.
           apply Hnin, list_elem_of_lookup. eauto.
        -- rewrite lookup_insert_ne in Hm by done. right. split; [|done].
           apply not_elem_of_cons. split; [congruence|done].
    + intros [(j & Hj & -> & Hlast)|[Hnin Hm]].
      * destruct j as [|j].
        -- simpl in Hj. injection Hj as ->. right. split.
           ++ intros [j' Hj']%list_elem_of_lookup. by apply (Hlast (S j')); [lia|].
           ++ rewrite lookup_insert_eq. f_equal. lia.
        -- left. exists j. split; [done|]. split; [lia|].
           intros j' Hj'. apply (Hlast (S j')). lia.
      * apply not_elem_of_cons in Hnin as [Hne Hnin]. right. split; [done|].
        by rewrite lookup_insert_ne.
Qed.

Lemma number_from_is_Some es m i e :
  is_Some ((number_from es (m, i)).1 !! e) ↔ e ∈ es ∨ is_Some (m !! e).
Proof.
  revert m i. induction es as [|x es IH]; intros m i.
  - simpl. rewrite elem_of_nil. tauto.
  - change (number_from (x :: es) (m, i)) with (number_from es (<[x := i]> m, S i)).
    rewrite IH, elem_of_cons. destruct (decide (x = e)) as [->|Hne].
    + rewrite lookup_insert_eq. split; [intros _; by left; left|].
      intros _. right. by eexists.
    + rewrite lookup_insert_ne by done.
      assert (e ≠ x) by congruence. tauto.
Qed.

Lemma number_edges_lookup es e k :
  number_edges es !! e = Some k ↔
    es !! k = Some e ∧ ∀ j, k < j → es !! j ≠ Some e.
Proof.
  change (number_edges es) with ((number_from es (∅, 0)).1).
  rewrite number_from_lookup. split.
  - intros [(j & Hj & -> & Hlast)|[_ H]]; [done|by rewrite lookup_empty in H].
  - intros [Hk Hlast]. left. by exists k.
Qed.

Lemma number_edges_is_Some es e : is_Some (number_edges es !! e) ↔ e ∈ es.
Proof.
  change (number_edges es) with ((number_from es (∅, 0)).1).
  rewrite number_from_is_Some, lookup_empty. split; [|by left].
  intros [?|[? ?]]; done.
Qed.

Lemma indexed_edges_length g : length (_edges (indexEdges g)) = nrEdges g.
Proof.
  simpl. rewrite (merge_sort_Permutation edge_le), listed_edges_from.
  by rewrite listed_from_length, nrEdges_total.
Qed.

Lemma elem_of_indexed_edges g e : e ∈ _edges (indexEdges g) ↔ has_edge g e = true.
Proof.
  simpl. rewrite (merge_sort_Permutation edge_le). apply elem_of_listed_edges.
Qed.

(** X10: [indexEdges()] leaves the adjacency alone and lists every edge of
    the graph, as often as the list of its type-1 node records it: the
    edges are those of the loops over [_nb1] in another order, sorted by
    [(n1, n2)]; [(n1, n2)] is listed if and only if [n2] is in the list of
    [n1]; and [nr_edges()] then returns [nrEdges()], in every build. *)
Theorem indexEdges_lists_the_edges cfg (g : BipartiteGraph) :
  _nb1 (indexEdges g) = _nb1 g ∧ _nb2 (indexEdges g) = _nb2 g ∧
  _edge_indexed (indexEdges g) = true ∧
  nr_edges cfg (indexEdges g) = Done (nrEdges g) ∧
  StronglySorted edge_le (edges (indexEdges g)) ∧
  edges (indexEdges g) ≡ₚ listed_edges (_nb1 g) ∧
  (∀ e, e ∈ edges (indexEdges g) ↔ has_edge g e = true).
Proof.
  split_and!; try done.
  - unfold nr_edges. rewrite indexed_edges_length. simpl.
    by rewrite c_assert_true.
  - apply (StronglySorted_merge_sort edge_le).
  - apply (merge_sort_Permutation edge_le).
  - apply elem_of_indexed_edges.
Qed.

Lemma edge_indexed cfg g k e :
  _edges (indexEdges g) !! k = Some e → edge cfg (indexEdges g) k = Done e.
Proof.
  intros H. unfold edge. change (_edge_indexed (indexEdges g)) with true.
  rewrite c_assert_true. simpl. by apply subscript_Some.
Qed.

Lemma VV2E_indexed cfg g n1 n2 k :
  _vv2e (indexEdges g) !! (n1, n2) = Some k → VV2E cfg (indexEdges g) n1 n2 = Done k.
Proof.
  intros H. unfold VV2E. change (_edge_indexed (indexEdges g)) with true.
  rewrite H, !c_assert_true. done.
Qed.

(** X11: the two lookups of the index fit together.  After [indexEdges()],
    [VV2E(n1,n2)] of an edge of the graph returns an ordinal below
    [nrEdges()] at which [edge] returns [(n1,n2)]; and [edge(k)] for [k]
    below [nrEdges()] returns an edge of the graph whose [VV2E] is an ordinal
    not below [k] that [edge] maps to the same edge: the last one of an edge
    recorded several times, and [k] itself when no edge is. *)
Theorem edge_index_round_trip cfg (g : BipartiteGraph) :
  (∀ n1 n2, has_edge g (n1, n2) = true →
     ∃ k, VV2E cfg (indexEdges g) n1 n2 = Done k ∧ k < nrEdges g ∧
          edge cfg (indexEdges g) k = Done (n1, n2)) ∧
  (∀ k, k < nrEdges g →
     ∃ e k', edge cfg (indexEdges g) k = Done e ∧ has_edge g e = true ∧
             VV2E cfg (indexEdges g) e.1 e.2 = Done k' ∧ k ≤ k' ∧
             edge cfg (indexEdges g) k' = Done e ∧
             (NoDup (listed_edges (_nb1 g)) → k' = k)).
Proof.
  split.
  - intros n1 n2 He. apply elem_of_indexed_edges in He.
    apply number_edges_is_Some in He as [k Hk].
    pose proof Hk as Hk'. apply number_edges_lookup in Hk' as [Hek _].
    exists k. split; [by apply VV2E_indexed|]. split; [|by apply edge_indexed].
    rewrite <- indexed_edges_length. by eapply lookup_lt_Some.
  - intros k Hk. rewrite <- indexed_edges_length in Hk.
    destruct (lookup_lt_is_Some_2 _ _ Hk) as [e He].
    assert (e ∈ _edges (indexEdges g)) as Hin by (apply list_elem_of_lookup; eauto).
    pose proof Hin as Hin'. apply number_edges_is_Some in Hin' as [k' Hk'].
    pose proof Hk' as Hl. apply number_edges_lookup in Hl as [Hek' Hlast].
    exists e, k'. split; [by apply edge_indexed|].
    split; [by apply elem_of_indexed_edges|].
    split; [apply VV2E_indexed; by destruct e|].
    split. { destruct (decide (k ≤ k')); [done|]. by destruct (Hlast k); [lia|]. }
    split; [by apply edge_indexed|].
    intros Hnd. eapply NoDup_lookup; [|exact Hek'|exact He].
    simpl. by rewrite (merge_sort_Permutation edge_le).
Qed.

Lemma edge_index_round_trip_witness :
  (∃ k, VV2E release (indexEdges example_graph) 2 0 = Done k ∧ k < 5 ∧
        edge release (indexEdges example_graph) k = Done (2, 0)) ∧
  (∃ e k', edge release (indexEdges example_graph) 2 = Done e ∧
           VV2E release (indexEdges example_graph) e.1 e.2 = Done k' ∧ k' = 2).
Proof.
  destruct (edge_index_round_trip release example_graph) as [A B]. split.
  - destruct (A 2 0) as (k & Hv & Hk & He); [reflexivity|].
    exists k. split; [exact Hv|]. split; [exact Hk|exact He].
  - destruct (B 2) as (e & k' & He & _ & Hv & _ & _ & Hnd).
    + vm_compute. lia.
    + exists e, k'. split; [exact He|]. split; [exact Hv|]. apply Hnd.
      vm_compute. repeat constructor; rewrite ?elem_of_cons, ?elem_of_nil;
        intros H; repeat (destruct H as [H|H]; try discriminate H); exact H.
Defined.

(** X12: what the index does not answer.  After [indexEdges()], [VV2E] of a
    pair that is no edge of the graph stops in the failed assertion
    [i != _vv2e.end()] when NDEBUG is not defined; with NDEBUG nothing checks
    the lookup and the end iterator is dereferenced, which is undefined
    behaviour.  [edge(k)] does not check [k]: from [nrEdges()] on it
    subscripts the vector out of range, undefined behaviour in every
    build. *)
Theorem edge_index_misses cfg (g : BipartiteGraph) :
  (∀ n1 n2, has_edge g (n1, n2) = false →
     VV2E cfg (indexEdges g) n1 n2 = if NDEBUG cfg then Undefined else Aborted) ∧
  (∀ k, nrEdges g ≤ k → edge cfg (indexEdges g) k = Undefined).
Proof.
  split.
  - intros n1 n2 He. unfold VV2E. change (_edge_indexed (indexEdges g)) with true.
    rewrite c_assert_true. simpl.
    destruct (number_edges _ !! (n1, n2)) as [k|] eqn:Hk.
    + assert ((n1, n2) ∈ _edges (indexEdges g)) as Hin
        by (apply number_edges_is_Some; by eexists).
      apply elem_of_indexed_edges in Hin. congruence.
    + unfold c_assert. by destruct (NDEBUG cfg).
  - intros k Hk. unfold edge. change (_edge_indexed (indexEdges g)) with true.
    rewrite c_assert_true. simpl. apply subscript_None.
    pose proof (indexed_edges_length g) as Hl. simpl in Hl. lia.
Qed.

Lemma edge_index_misses_witness :
  VV2E release (indexEdges example_graph) 0 1 = Aborted ∧
  edge debug (indexEdges example_graph) 5 = Undefined.
Proof.
  destruct (edge_index_misses release example_graph) as [A _].
  destruct (edge_index_misses debug example_graph) as [_ B]. split.
  - apply A. reflexivity.
  - apply B. vm_compute. lia.
Defined.

(** X13: the index is never refreshed.  After [indexEdges()], whatever
    calls of [construct], [add1], [add2], [addEdge] and [eraseEdge] follow,
    [edges()], [edge], [VV2E] and [nr_edges()] answer as they did right after
    [indexEdges()]: [nr_edges()] returns the number of edges the graph had
    then, not [nrEdges()] of the graph as it is. *)
Theorem index_is_never_refreshed cfg cs (g g' : BipartiteGraph) :
  forallb in_header cs = true → IndexEdges ∉ cs →
  run cfg cs (indexEdges g) = Done g' →
  edges g' = edges (indexEdges g) ∧
  nr_edges cfg g' = Done (nrEdges g) ∧
  (∀ k, edge cfg g' k = edge cfg (indexEdges g) k) ∧
  (∀ n1 n2, VV2E cfg g' n1 n2 = VV2E cfg (indexEdges g) n1 n2).
Proof.
  intros _ Hni Hrun. apply (run_legacy _ _ _ _ Hni) in Hrun.
  injection Hrun as Hi He Hv.
  pose proof (indexed_edges_length g) as Hn.
  unfold edges, nr_edges, edge, VV2E in *. rewrite Hi, He, Hv.
  split; [done|]. split; [|done].
  change (_edge_indexed (indexEdges g)) with true. rewrite c_assert_true.
  simpl. simpl in Hn. by rewrite Hn.
Qed.

Lemma index_is_never_refreshed_witness :
  ∃ g', run release [AddEdge 0 1 true; Add1] (indexEdges example_graph) = Done g' ∧
        nrEdges g' = 6 ∧ nr_edges release g' = Done 5 ∧
        VV2E release g' 0 1 = Aborted.
Proof.
  assert (∃ g', run release [AddEdge 0 1 true; Add1] (indexEdges example_graph)
                = Done g') as [g' Hrun] by (eexists; reflexivity).
  destruct (index_is_never_refreshed release [AddEdge 0 1 true; Add1]
              example_graph g') as (_ & Hn & _ & Hv).
  - reflexivity.
  - rewrite !not_elem_of_cons. repeat split; try discriminate. apply not_elem_of_nil.
  - exact Hrun.
  - exists g'. split; [exact Hrun|]. split.
    + vm_compute in Hrun. injection Hrun as <-. reflexivity.
    + split; [exact Hn|]. rewrite Hv. reflexivity.
Defined.

(** ** [construct] on a range of valid edges *)

Lemma has_edge_edge_added_iff g n1 n2 row1 row2 e :
  _nb1 g !! n1 = Some row1 →
  has_edge (edge_added g n1 n2 row1 row2) e = true ↔
    has_edge g e = true ∨ e = (n1, n2).
Proof.
  intros E1. destruct e as [a b]. unfold has_edge. simpl.
  rewrite (row_insert _ _ _ _ _ E1). destruct (decide (a = n1)) as [->|Hne].
  - rewrite has_neighbor_app, orb_true_iff, (row_lookup _ _ _ E1). simpl.
    rewrite orb_false_r, Nat.eqb_eq. split.
    + intros [?| ->]; [by left|by right].
    + intros [?|[= ->]]; [by left|by right].
  - split; [by left|]. intros [?|[= ? ?]]; [done|congruence].
Qed.

(** The edges after an [addEdge] on valid ids, checked or not. *)
Lemma addEdge_has_edge cfg g n1 n2 check :
  n1 < nr1 g → n2 < nr2 g →
  ∃ g', addEdge cfg g n1 n2 check = Done g' ∧
        nr1 g' = nr1 g ∧ nr2 g' = nr2 g ∧
        (∀ e, has_edge g' e = true ↔ has_edge g e = true ∨ e = (n1, n2)) ∧
        nrEdges g' = nrEdges g + (if check && has_edge g (n1, n2) then 0 else 1).
Proof.
  unfold nr1, nr2. intros H1 H2.
  destruct (lookup_lt_is_Some_2 _ _ H1) as [row1 E1].
  destruct (lookup_lt_is_Some_2 _ _ H2) as [row2 E2].
  rewrite (addEdge_in_range cfg g n1 n2 check row1 row2 E1 E2).
  unfold has_edge at 3. simpl. rewrite (row_lookup _ _ _ E1).
  destruct (check && has_neighbor n2 row1) eqn:E.
  - exists g. split; [done|]. split; [done|]. split; [done|]. split; [|lia].
    intros e. split; [by left|].
    intros [?| ->]; [done|]. apply andb_true_iff in E as [_ E].
    unfold has_edge. simpl. by rewrite (row_lookup _ _ _ E1).
  - eexists. split; [done|]. simpl. rewrite !length_insert.
    split; [done|]. split; [done|]. split.
    + intros e. by apply has_edge_edge_added_iff.
    + rewrite (edge_added_nrEdges _ _ _ _ _ E1). lia.
Qed.

Lemma construct_loop_edges cfg check es g :
  Forall (λ e : Edge, e.1 < nr1 g ∧ e.2 < nr2 g) es →
  ∃ g', for_each (λ g e, addEdge cfg g e.1 e.2 check) es g = Done g' ∧
        nr1 g' = nr1 g ∧ nr2 g' = nr2 g ∧
        (∀ e, has_edge g' e = true ↔ has_edge g e = true ∨ e ∈ es).
Proof.
  revert g. induction es as [|x es IH]; intros g Hin.
  - exists g. split_and!; try done. intros e. rewrite elem_of_nil. tauto.
  - apply Forall_cons in Hin as [[H1 H2] Hin]. cbn [for_each].
    destruct (addEdge_has_edge cfg g x.1 x.2 check H1 H2) as (g1 & -> & N1 & N2 & He1 & _).
    simpl. destruct (IH g1) as (g' & Hrun & N1' & N2' & He').
    { by rewrite N1, N2. }
    exists g'. split; [done|]. rewrite N1', N2'. split_and!; try done.
    intros e. rewrite He', He1, elem_of_cons. destruct x. simpl. tauto.
Qed.

Lemma has_edge_replicate g n1 n2 e :
  has_edge (with_nb g (replicate n1 []) (replicate n2 [])) e = false.
Proof. unfold has_edge. simpl. by rewrite row_replicate. Qed.

(** X14: [construct] on a range of valid edges returns in every build a
    graph with [nr1] and [nr2] nodes whose edges are those of the range:
    [n2] is in the list of [n1] if and only if [(n1,n2)] is in the range,
    and then [n1] is in the list of [n2]; the dual cross-reference holds, and
    the members of the compatibility layer are those of the graph before. *)
Theorem construct_holds_the_input cfg (g0 : BipartiteGraph) (n1 n2 : nat)
    (es : list Edge) :
  Forall (λ e : Edge, e.1 < n1 ∧ e.2 < n2) es →
  ∃ g, construct cfg g0 n1 n2 es = Done g ∧
       nr1 g = n1 ∧ nr2 g = n2 ∧
       (∀ e, has_edge g e = true ↔ e ∈ es) ∧
       (∀ a b, has_neighbor a (row (_nb2 g) b) = has_neighbor b (row (_nb1 g) a)) ∧
       dual_inv g ∧ legacy g = legacy g0.
Proof.
  intros Hin. unfold construct.
  destruct (construct_loop_edges cfg (DAI_DEBUG cfg) es
              (with_nb g0 (replicate n1 []) (replicate n2 [])))
    as (g & Hrun & N1 & N2 & He).
  { unfold nr1, nr2. simpl. by rewrite !length_replicate. }
  exists g. split; [done|].
  unfold nr1, nr2 in N1, N2. simpl in N1, N2. rewrite !length_replicate in N1, N2.
  split; [done|]. split; [done|]. split_and!.
  - intros e. rewrite He, has_edge_replicate. split; [by intros [?|?]|by right].
  - intros a b. pose proof (construct_sym cfg g0 n1 n2 es g Hrun a b) as Hs.
    destruct (has_neighbor b (row (_nb1 g) a)) eqn:E.
    + apply count_node_pos. rewrite <- Hs. by apply count_node_pos.
    + apply count_node_zero. rewrite <- Hs. by apply count_node_zero.
  - by eapply construct_dual_inv.
  - by eapply construct_legacy.
Qed.

Lemma construct_holds_the_input_witness :
  ∃ g, construct debug example_graph 2 2 [(1, 0); (0, 1); (1, 0)] = Done g ∧
       nr1 g = 2 ∧ has_edge g (0, 1) = true ∧
       has_neighbor 1 (row (_nb2 g) 0) = has_neighbor 0 (row (_nb1 g) 1).
Proof.
  destruct (construct_holds_the_input debug example_graph 2 2 [(1, 0); (0, 1); (1, 0)])
    as (g & Hc & N1 & _ & He & Hs & _).
  - repeat constructor; simpl; lia.
  - exists g. split; [exact Hc|]. split; [exact N1|]. split; [|apply Hs].
    apply He. apply elem_of_cons. right. apply elem_of_cons. left. reflexivity.
Defined.

(** The loop of [construct] in a build with DAI_DEBUG keeps one record pair
    an edge. *)
Lemma construct_loop_checked cfg es g acc :
  Forall (λ e : Edge, e.1 < nr1 g ∧ e.2 < nr2 g) es →
  NoDup acc → (∀ e, has_edge g e = true ↔ e ∈ acc) → nrEdges g = length acc →
  ∃ g' acc', for_each (λ g e, addEdge cfg g e.1 e.2 true) es g = Done g' ∧
             NoDup acc' ∧ (∀ e, e ∈ acc' ↔ e ∈ acc ∨ e ∈ es) ∧
             nrEdges g' = length acc'.
Proof.
  revert g acc. induction es as [|x es IH]; intros g acc Hin Hnd He Hn.
  - exists g, acc. split_and!; try done. intros e. rewrite elem_of_nil. tauto.
  - apply Forall_cons in Hin as [[H1 H2] Hin]. cbn [for_each].
    destruct (addEdge_has_edge cfg g x.1 x.2 true H1 H2)
      as (g1 & Hadd & N1 & N2 & He1 & Hn1).
    rewrite Hadd. simpl in Hn1 |- *.
    replace (x.1, x.2) with x in * by by destruct x.
    destruct (has_edge g x) eqn:Hx.
    + destruct (IH g1 acc) as (g' & acc' & Hrun & Hnd' & He' & Hn').
      * by rewrite N1, N2.
      * done.
      * intros e. rewrite He1, He. split; [|by left].
        intros [?| ->]; [done|]. by apply He.
      * lia.
      * exists g', acc'. split_and!; try done. intros e.
        rewrite He', elem_of_cons. split; [tauto|].
        intros [?|[->|?]]; [by left| |by right]. left. by apply He.
    + destruct (IH g1 (acc ++ [x])) as (g' & acc' & Hrun & Hnd' & He' & Hn').
      * by rewrite N1, N2.
      * apply NoDup_app. split; [done|]. split; [|apply NoDup_singleton].
        intros e Hacc ->%list_elem_of_singleton. apply He in Hacc. congruence.
      * intros e. rewrite He1, He, elem_of_app, list_elem_of_singleton. done.
      * rewrite length_app. simpl. lia.
      * exists g', acc'. split_and!; try done. intros e.
        rewrite He', elem_of_app, list_elem_of_singleton, elem_of_cons. tauto.
Qed.

(** X15: in a build with DAI_DEBUG [construct] adds every edge of a range of
    valid edges once, however often the range repeats it: [nrEdges()] is the
    number of different edges of the range. *)
Theorem construct_checked_counts_once cfg (g0 : BipartiteGraph) (n1 n2 : nat)
    (es : list Edge) :
  DAI_DEBUG cfg = true → Forall (λ e : Edge, e.1 < n1 ∧ e.2 < n2) es →
  ∃ g, construct cfg g0 n1 n2 es = Done g ∧
       nrEdges g = length (remove_dups es).
Proof.
  intros Hd Hin. unfold construct. rewrite Hd.
  destruct (construct_loop_checked cfg es
              (with_nb g0 (replicate n1 []) (replicate n2 [])) [])
    as (g & acc & Hrun & Hnd & He & Hn).
  - unfold nr1, nr2. simpl. by rewrite !length_replicate.
  - apply NoDup_nil_2.
  - intros e. rewrite has_edge_replicate, elem_of_nil. split; done.
  - rewrite nrEdges_total. simpl. apply total_degree_replicate.
  - exists g. split; [done|]. rewrite Hn. apply Permutation_length.
    apply NoDup_Permutation; [done|apply NoDup_remove_dups|].
    intros e. rewrite He, elem_of_remove_dups, elem_of_nil. tauto.
Qed.

Lemma construct_checked_counts_once_witness :
  ∃ g, construct debug empty_graph 2 2 [(1, 0); (0, 1); (1, 0); (1, 0)] = Done g ∧
       nrEdges g = 2.
Proof.
  destruct (construct_checked_counts_once debug empty_graph 2 2
              [(1, 0); (0, 1); (1, 0); (1, 0)]) as (g & Hc & Hn).
  - reflexivity.
  - repeat constructor; simpl; lia.
  - exists g. split; [exact Hc|]. rewrite Hn. reflexivity.
Defined.

Lemma construct_loop_build_independent cfg check es g :
  NoDup es → Forall (λ e : Edge, e.1 < nr1 g ∧ e.2 < nr2 g) es →
  (∀ e, e ∈ es → has_edge g e = false) →
  for_each (λ g e, addEdge cfg g e.1 e.2 check) es g =
  for_each (λ g e, addEdge release g e.1 e.2 false) es g ∧
  ∃ g', for_each (λ g e, addEdge release g e.1 e.2 false) es g = Done g'.
Proof.
  revert g. induction es as [|x es IH]; intros g Hnd Hin Hno; [by eauto|].
  apply NoDup_cons in Hnd as [Hx Hnd]. apply Forall_cons in Hin as [[H1 H2] Hin].
  cbn [for_each]. unfold nr1, nr2 in H1, H2.
  destruct (lookup_lt_is_Some_2 _ _ H1) as [row1 E1].
  destruct (lookup_lt_is_Some_2 _ _ H2) as [row2 E2].
  rewrite !(addEdge_in_range _ g x.1 x.2 _ row1 row2 E1 E2).
  pose proof (Hno x ltac:(left)) as Hf. unfold has_edge in Hf.
  rewrite (row_lookup _ _ _ E1) in Hf. rewrite Hf, andb_false_r. simpl.
  apply IH; [done| |].
  - unfold nr1, nr2. simpl. by rewrite !length_insert.
  - intros e He. apply not_true_is_false. intros Ht.
    apply (has_edge_edge_added_iff _ _ _ _ _ _ E1) in Ht as [Ht| ->].
    + rewrite (Hno e) in Ht; [done|by right].
    + by destruct x.
Qed.

(** X16: on a range of valid edges without repetitions [construct] returns
    the same graph in every build: the scan for an existing edge that
    DAI_DEBUG adds never finds one. *)
Theorem construct_same_in_every_build (g0 : BipartiteGraph) (n1 n2 : nat)
    (es : list Edge) :
  NoDup es → Forall (λ e : Edge, e.1 < n1 ∧ e.2 < n2) es →
  ∃ g, ∀ cfg, construct cfg g0 n1 n2 es = Done g.
Proof.
  intros Hnd Hin.
  assert (Forall (λ e : Edge,
            e.1 < nr1 (with_nb g0 (replicate n1 []) (replicate n2 [])) ∧
            e.2 < nr2 (with_nb g0 (replicate n1 []) (replicate n2 []))) es) as Hin'.
  { unfold nr1, nr2. simpl. by rewrite !length_replicate. }
  destruct (construct_loop_build_independent release false es _ Hnd Hin')
    as [_ [g Hg]].
  { intros e _. apply has_edge_replicate. }
  exists g. intros cfg. unfold construct.
  destruct (construct_loop_build_independent cfg (DAI_DEBUG cfg) es _ Hnd Hin')
    as [-> _]; [|done].
  intros e _. apply has_edge_replicate.
Qed.

Lemma construct_same_in_every_build_witness :
  ∃ g, construct debug empty_graph 3 2 example_edges = Done g ∧
       construct ndebug empty_graph 3 2 example_edges = Done g.
Proof.
  destruct (construct_same_in_every_build empty_graph 3 2 example_edges)
    as [g Hg].
  - unfold example_edges.
    repeat (apply NoDup_cons; split;
            [rewrite ?elem_of_cons, ?elem_of_nil; intros H;
             repeat (destruct H as [H|H]; try discriminate H); exact H|]).
    apply NoDup_nil_2.
  - repeat constructor; simpl; lia.
  - exists g. split; apply Hg.
Defined.

Lemma addEdge_ignores_the_index cfg (g h : BipartiteGraph) a b n1 n2 check :
  addEdge cfg (with_nb g a b) n1 n2 check =
  addEdge cfg (with_nb h a b) n1 n2 check
    ≫= (λ h', Done (with_nb g (_nb1 h') (_nb2 h'))).
Proof.
  unfold addEdge, nr1, nr2, nb1, debug_assert, c_assert, subscript. simpl.
  destruct (NDEBUG cfg), (DAI_DEBUG cfg), check, (n1 <? length a),
    (n2 <? length b), (a !! n1) as [r1|], (b !! n2) as [r2|]; simpl; try done;
    destruct (has_neighbor n2 r1); done.
Qed.

Lemma addEdge_keeps_the_index cfg (g g' : BipartiteGraph) n1 n2 check :
  addEdge cfg g n1 n2 check = Done g' → g' = with_nb g (_nb1 g') (_nb2 g').
Proof.
  unfold addEdge, nr1, nr2, nb1, debug_assert, c_assert, subscript.
  destruct g as [a b i es v]. simpl.
  destruct (NDEBUG cfg), (DAI_DEBUG cfg), check, (n1 <? length a),
    (n2 <? length b), (a !! n1) as [r1|], (b !! n2) as [r2|]; simpl; try done;
    try destruct (has_neighbor n2 r1); by intros [= <-].
Qed.

Lemma construct_loop_ignores_the_index cfg check (g h : BipartiteGraph) es a b :
  for_each (λ g e, addEdge cfg g e.1 e.2 check) es (with_nb g a b) =
  for_each (λ g e, addEdge cfg g e.1 e.2 check) es (with_nb h a b)
    ≫= (λ h', Done (with_nb g (_nb1 h') (_nb2 h'))).
Proof.
  revert a b. induction es as [|x es IH]; intros a b; cbn [for_each]; [done|].
  rewrite (addEdge_ignores_the_index cfg g h).
  destruct (addEdge cfg (with_nb h a b) x.1 x.2 check) as [h'| |] eqn:E; [|done..].
  simpl. rewrite (IH (_nb1 h') (_nb2 h')).
  by rewrite (addEdge_keeps_the_index _ _ _ _ _ _ E) at 3.
Qed.

(** X17: [construct] starts over.  Called on a graph that is in use it
    returns, for every input and in every build, with the outcome of the
    constructor from the same range; the neighbour lists are those of the
    newly constructed graph, nothing of the old nodes and edges is kept, and
    the members of the compatibility layer are those of the old graph: the
    edge index is neither cleared nor rebuilt. *)
Theorem construct_starts_over cfg (g0 : BipartiteGraph) (n1 n2 : nat)
    (es : list Edge) :
  construct cfg g0 n1 n2 es =
  new_graph cfg n1 n2 es ≫= (λ g, Done (with_nb g0 (_nb1 g) (_nb2 g))).
Proof.
  unfold new_graph, construct. apply construct_loop_ignores_the_index.
Qed.
